(** * ChessEngine: a shallow embedding of [Chess/ChessEngine.py]

    The engine keeps one mutable [GameState] object.  Its board is a Python
    list of lists of two-character strings, indexed with Python's own
    rules: an index [i] with [-len <= i < 0] reads from the end of the
    list, anything outside [-len .. len-1] raises [IndexError].  Methods
    that only read the object are functions from the state to a result;
    methods that assign to its fields thread the state and keep the
    assignments made before an exception was raised. *)

From Stdlib Require Import ZArith String Ascii List Bool Lia.
From stdpp Require Import base list.
Import ListNotations.

Local Open Scope string_scope.
Local Open Scope list_scope.
Local Open Scope Z_scope.

(** ** Python values *)

Inductive exn : Type := IndexError | KeyError | ValueError.

Inductive Res (A : Type) : Type :=
| Ok (a : A)
| Raise (e : exn).
Arguments Ok {A} a.
Arguments Raise {A} e.

Definition res_bind {A B} (x : Res A) (f : A -> Res B) : Res B :=
  match x with
  | Ok a => f a
  | Raise e => Raise e
  end.

Declare Scope res_scope.
Delimit Scope res_scope with res.
Notation "x <- c1 ;; c2" := (res_bind c1 (fun x => c2))
  (at level 100, c1 at next level, right associativity) : res_scope.

(** [l[i]] for a Python sequence of length [len]: the position read. *)
Definition norm_index (len : nat) (i : Z) : option nat :=
  if (0 <=? i) && (i <? Z.of_nat len) then Some (Z.to_nat i)
  else if (- Z.of_nat len <=? i) && (i <? 0) then Some (Z.to_nat (Z.of_nat len + i))
  else None.

Definition py_getitem {A} (l : list A) (i : Z) : Res A :=
  match norm_index (length l) i with
  | Some n => match l !! n with Some x => Ok x | None => Raise IndexError end
  | None => Raise IndexError
  end.

Definition py_setitem {A} (l : list A) (i : Z) (x : A) : Res (list A) :=
  match norm_index (length l) i with
  | Some n => Ok (<[n := x]> l)
  | None => Raise IndexError
  end.

(** [s[i]] on a Python string is a string of length one. *)
Definition str_getitem (s : string) (i : Z) : Res string :=
  match norm_index (String.length s) i with
  | Some n => match String.get n s with
              | Some ch => Ok (String ch EmptyString)
              | None => Raise IndexError
              end
  | None => Raise IndexError
  end.

Definition range (n : nat) : list Z := map Z.of_nat (seq 0 n).

(** ** The data model *)

Abbreviation Board := (list (list string)).

Record Move : Type := mkMove {
  startRow : Z;
  startCol : Z;
  endRow : Z;
  endCol : Z;
  pieceMoved : string;
  pieceCaptured : string;
  moveID : Z
}.

Record GameState : Type := mkGameState {
  board : Board;
  whiteToMove : bool;
  moveLog : list Move;
  whiteKingLocation : Z * Z;
  blackKingLocation : Z * Z;
  checkMate : bool;
  staleMate : bool
}.

(** [GameState.__init__] *)
Definition init : GameState := {|
  board := [
    ["bR"; "bN"; "bB"; "bQ"; "bK"; "bB"; "bN"; "bR"];
    ["bp"; "bp"; "bp"; "bp"; "bp"; "bp"; "bp"; "bp"];
    ["--"; "--"; "--"; "--"; "--"; "--"; "--"; "--"];
    ["--"; "--"; "--"; "--"; "--"; "--"; "--"; "--"];
    ["--"; "--"; "--"; "--"; "--"; "--"; "--"; "--"];
    ["--"; "--"; "--"; "--"; "--"; "--"; "--"; "--"];
    ["wp"; "wp"; "wp"; "wp"; "wp"; "wp"; "wp"; "wp"];
    ["wR"; "wN"; "wB"; "wQ"; "wK"; "wB"; "wN"; "wR"]];
  whiteToMove := true;
  moveLog := [];
  whiteKingLocation := (7, 4);
  blackKingLocation := (0, 4);
  checkMate := false;
  staleMate := false
|}.

(** [board[r][c]] *)
Definition board_get (b : Board) (r c : Z) : Res string :=
  (row <- py_getitem b r ;; py_getitem row c)%res.

(** [board[r][c] = v]: the row object is updated in place. *)
Definition board_set (b : Board) (r c : Z) (v : string) : Res Board :=
  (row <- py_getitem b r ;;
   row' <- py_setitem row c v ;;
   py_setitem b r row')%res.

(** [Move.__init__] *)
Definition Move_init (startSq endSq : Z * Z) (b : Board) : Res Move :=
  (let sr := fst startSq in
   let sc := snd startSq in
   let er := fst endSq in
   let ec := snd endSq in
   pm <- board_get b sr sc ;;
   pc <- board_get b er ec ;;
   Ok {| startRow := sr; startCol := sc; endRow := er; endCol := ec;
         pieceMoved := pm; pieceCaptured := pc;
         moveID := sr * 1000 + sc * 100 + er * 10 + ec |})%res.

(** [Move.__eq__]; every value of type [Move] is an instance of the class. *)
Definition Move_eq (self other : Move) : bool :=
  moveID self =? moveID other.

(** ** Methods that assign to the object *)

Definition M (A : Type) : Type := GameState -> Res A * GameState.

Definition ret {A} (a : A) : M A := fun s => (Ok a, s).

Definition bind {A B} (x : M A) (f : A -> M B) : M B := fun s =>
  match x s with
  | (Ok a, s') => f a s'
  | (Raise e, s') => (Raise e, s')
  end.

Declare Scope gs_scope.
Delimit Scope gs_scope with gs.
Notation "x <-- c1 ;; c2" := (bind c1 (fun x => c2))
  (at level 100, c1 at next level, right associativity) : gs_scope.
Notation "c1 ;;; c2" := (bind c1 (fun _ => c2))
  (at level 100, right associativity) : gs_scope.

(** Run a read-only method on the current object. *)
Definition read {A} (f : GameState -> Res A) : M A := fun s => (f s, s).

Definition set_board (b : Board) (s : GameState) : GameState :=
  {| board := b; whiteToMove := whiteToMove s; moveLog := moveLog s;
     whiteKingLocation := whiteKingLocation s;
     blackKingLocation := blackKingLocation s;
     checkMate := checkMate s; staleMate := staleMate s |}.

Definition set_whiteToMove (w : bool) (s : GameState) : GameState :=
  {| board := board s; whiteToMove := w; moveLog := moveLog s;
     whiteKingLocation := whiteKingLocation s;
     blackKingLocation := blackKingLocation s;
     checkMate := checkMate s; staleMate := staleMate s |}.

Definition set_moveLog (l : list Move) (s : GameState) : GameState :=
  {| board := board s; whiteToMove := whiteToMove s; moveLog := l;
     whiteKingLocation := whiteKingLocation s;
     blackKingLocation := blackKingLocation s;
     checkMate := checkMate s; staleMate := staleMate s |}.

Definition set_whiteKingLocation (k : Z * Z) (s : GameState) : GameState :=
  {| board := board s; whiteToMove := whiteToMove s; moveLog := moveLog s;
     whiteKingLocation := k;
     blackKingLocation := blackKingLocation s;
     checkMate := checkMate s; staleMate := staleMate s |}.

Definition set_blackKingLocation (k : Z * Z) (s : GameState) : GameState :=
  {| board := board s; whiteToMove := whiteToMove s; moveLog := moveLog s;
     whiteKingLocation := whiteKingLocation s;
     blackKingLocation := k;
     checkMate := checkMate s; staleMate := staleMate s |}.

Definition set_checkMate (f : bool) (s : GameState) : GameState :=
  {| board := board s; whiteToMove := whiteToMove s; moveLog := moveLog s;
     whiteKingLocation := whiteKingLocation s;
     blackKingLocation := blackKingLocation s;
     checkMate := f; staleMate := staleMate s |}.

Definition set_staleMate (f : bool) (s : GameState) : GameState :=
  {| board := board s; whiteToMove := whiteToMove s; moveLog := moveLog s;
     whiteKingLocation := whiteKingLocation s;
     blackKingLocation := blackKingLocation s;
     checkMate := checkMate s; staleMate := f |}.

Definition modify (f : GameState -> GameState) : M unit := fun s => (Ok tt, f s).

(** [self.board[r][c] = v] *)
Definition assign_cell (r c : Z) (v : string) : M unit := fun s =>
  match board_set (board s) r c v with
  | Ok b' => (Ok tt, set_board b' s)
  | Raise e => (Raise e, s)
  end.

(** [self.whiteToMove = not self.whiteToMove] *)
Definition flip_turn : M unit :=
  modify (fun s => set_whiteToMove (negb (whiteToMove s)) s).

(** [list.pop()] of a non-empty list: the last element and the rest. *)
Definition pop {A} (l : list A) : option (A * list A) :=
  match rev l with
  | [] => None
  | x :: r => Some (x, rev r)
  end.

Definition makeMove (move : Move) : M unit :=
  (assign_cell (startRow move) (startCol move) "--" ;;;
   assign_cell (endRow move) (endCol move) (pieceMoved move) ;;;
   modify (fun s => set_moveLog (moveLog s ++ [move]) s) ;;;
   flip_turn ;;;
   k <-- read (fun _ => str_getitem (pieceMoved move) 1) ;;
   if String.eqb k "wK" then
     modify (set_whiteKingLocation (endRow move, endCol move))
   else
     k' <-- read (fun _ => str_getitem (pieceMoved move) 1) ;;
     if String.eqb k' "bK" then
       modify (set_blackKingLocation (endRow move, endCol move))
     else ret tt)%gs.

Definition undoMove : M unit := fun s =>
  if negb (Nat.eqb (length (moveLog s)) 0) then
    match pop (moveLog s) with
    | None => (Raise IndexError, s)
    | Some (move, rest) =>
      (modify (set_moveLog rest) ;;;
       assign_cell (startRow move) (startCol move) (pieceMoved move) ;;;
       assign_cell (endRow move) (endCol move) (pieceCaptured move) ;;;
       flip_turn ;;;
       k <-- read (fun _ => str_getitem (pieceMoved move) 1) ;;
       if String.eqb k "wK" then
         modify (set_whiteKingLocation (startRow move, startCol move))
       else
         k' <-- read (fun _ => str_getitem (pieceMoved move) 1) ;;
         if String.eqb k' "bK" then
           modify (set_blackKingLocation (startRow move, startCol move))
         else ret tt)%gs s
    end
  else (Ok tt, s).

(** ** The move generators

    The generators read [self.board] and [self.whiteToMove] and append to
    the list [moves] they are handed. *)

(** [moves.append(Move(startSq, endSq, self.board))] *)
Definition append_move (s : GameState) (startSq endSq : Z * Z)
    (moves : list Move) : Res (list Move) :=
  (m <- Move_init startSq endSq (board s) ;; Ok (moves ++ [m]))%res.

(** A [for] loop without [break] over the items of [l]. *)
Fixpoint for_each {A B} (l : list A) (body : A -> B -> Res B) (acc : B) : Res B :=
  match l with
  | [] => Ok acc
  | x :: l' => (acc' <- body x acc ;; for_each l' body acc')%res
  end.

Definition getPawnmoves (s : GameState) (r c : Z) (moves : list Move)
    : Res (list Move) :=
  (if whiteToMove s then
     front <- board_get (board s) (r - 1) c ;;
     moves <- (if String.eqb front "--" then
                 moves <- append_move s (r, c) (r - 1, c) moves ;;
                 if r =? 6 then
                   front2 <- board_get (board s) (r - 2) c ;;
                   if String.eqb front2 "--"
                   then append_move s (r, c) (r - 2, c) moves
                   else Ok moves
                 else Ok moves
               else Ok moves) ;;
     moves <- (if c - 1 >=? 0 then
                 p <- board_get (board s) (r - 1) (c - 1) ;;
                 k <- str_getitem p 0 ;;
                 if String.eqb k "b"
                 then append_move s (r, c) (r - 1, c - 1) moves
                 else Ok moves
               else Ok moves) ;;
     if c + 1 <=? 7 then
       p <- board_get (board s) (r - 1) (c + 1) ;;
       k <- str_getitem p 0 ;;
       if String.eqb k "b"
       then append_move s (r, c) (r - 1, c + 1) moves
       else Ok moves
     else Ok moves
   else
     front <- board_get (board s) (r + 1) c ;;
     moves <- (if String.eqb front "--" then
                 moves <- append_move s (r, c) (r + 1, c) moves ;;
                 if r =? 1 then
                   front2 <- board_get (board s) (r + 2) c ;;
                   if String.eqb front2 "--"
                   then append_move s (r, c) (r + 2, c) moves
                   else Ok moves
                 else Ok moves
               else Ok moves) ;;
     moves <- (if c - 1 >=? 0 then
                 p <- board_get (board s) (r + 1) (c - 1) ;;
                 k <- str_getitem p 0 ;;
                 if String.eqb k "w"
                 then append_move s (r, c) (r + 1, c - 1) moves
                 else Ok moves
               else Ok moves) ;;
     if c + 1 <=? 7 then
       p <- board_get (board s) (r + 1) (c + 1) ;;
       k <- str_getitem p 0 ;;
       if String.eqb k "w"
       then append_move s (r, c) (r + 1, c + 1) moves
       else Ok moves
     else Ok moves)%res.

(** [0<=endrow<8 and 0<=endcol<8] *)
Definition on_board (endrow endcol : Z) : bool :=
  ((0 <=? endrow) && (endrow <? 8)) && ((0 <=? endcol) && (endcol <? 8)).

(** The inner loop [for i in range(1,8)] of the rook and bishop
    generators, which have the same body; leaving the recursion is the
    [break]. *)
Fixpoint slide (s : GameState) (enemyColor : string) (r c : Z) (d : Z * Z)
    (steps : list Z) (moves : list Move) : Res (list Move) :=
  match steps with
  | [] => Ok moves
  | i :: steps' =>
    let endrow := r + fst d * i in
    let endcol := c + snd d * i in
    if on_board endrow endcol then
      (endpiece <- board_get (board s) endrow endcol ;;
       if String.eqb endpiece "--" then
         moves <- append_move s (r, c) (endrow, endcol) moves ;;
         slide s enemyColor r c d steps' moves
       else
         k <- str_getitem endpiece 0 ;;
         if String.eqb k enemyColor
         then append_move s (r, c) (endrow, endcol) moves
         else Ok moves)%res
    else Ok moves
  end.

Definition range_1_8 : list Z := [1; 2; 3; 4; 5; 6; 7].

Definition rook_directions : list (Z * Z) := [(-1, 0); (0, -1); (1, 0); (0, 1)].
Definition bishop_directions : list (Z * Z) := [(-1, -1); (-1, 1); (1, -1); (1, 1)].

Definition getRookmoves (s : GameState) (r c : Z) (moves : list Move)
    : Res (list Move) :=
  let enemyColor := if whiteToMove s then "b" else "w" in
  for_each rook_directions
    (fun d moves => slide s enemyColor r c d range_1_8 moves) moves.

Definition getBishopmoves (s : GameState) (r c : Z) (moves : list Move)
    : Res (list Move) :=
  let enemyColor := if whiteToMove s then "b" else "w" in
  for_each bishop_directions
    (fun d moves => slide s enemyColor r c d range_1_8 moves) moves.

Definition getQueenmoves (s : GameState) (r c : Z) (moves : list Move)
    : Res (list Move) :=
  (moves <- getRookmoves s r c moves ;; getBishopmoves s r c moves)%res.

Definition knightmoves : list (Z * Z) :=
  [(-2, -1); (-2, 1); (-1, -2); (-1, 2); (1, -2); (1, 2); (2, -1); (2, 1)].

Definition kingmoves : list (Z * Z) :=
  [(-1, -1); (-1, 0); (-1, 1); (0, -1); (0, 1); (1, -1); (1, 0); (1, 1)].

(** The body shared by the knight and king loops: one step to
    [(r + dr, c + dc)]. *)
Definition step_to (s : GameState) (allyColor : string) (r c : Z) (m : Z * Z)
    (moves : list Move) : Res (list Move) :=
  let endrow := r + fst m in
  let endcol := c + snd m in
  if on_board endrow endcol then
    (endpiece <- board_get (board s) endrow endcol ;;
     k <- str_getitem endpiece 0 ;;
     if negb (String.eqb k allyColor)
     then append_move s (r, c) (endrow, endcol) moves
     else Ok moves)%res
  else Ok moves.

Definition getKnightmoves (s : GameState) (r c : Z) (moves : list Move)
    : Res (list Move) :=
  let allyColor := if whiteToMove s then "w" else "b" in
  for_each knightmoves (fun m moves => step_to s allyColor r c m moves) moves.

Definition getKingmoves (s : GameState) (r c : Z) (moves : list Move)
    : Res (list Move) :=
  let allyColor := if whiteToMove s then "w" else "b" in
  for_each (range 8)
    (fun i moves => (m <- py_getitem kingmoves i ;;
                     step_to s allyColor r c m moves)%res) moves.

(** The dictionary [self.moveFunctions]. *)
Definition moveFunctions (piece : string)
    : Res (GameState -> Z -> Z -> list Move -> Res (list Move)) :=
  if String.eqb piece "p" then Ok getPawnmoves
  else if String.eqb piece "R" then Ok getRookmoves
  else if String.eqb piece "N" then Ok getKnightmoves
  else if String.eqb piece "B" then Ok getBishopmoves
  else if String.eqb piece "Q" then Ok getQueenmoves
  else if String.eqb piece "K" then Ok getKingmoves
  else Raise KeyError.

(** The body of the two nested loops of [getAllPossibleMoves]. *)
Definition scan_cell (s : GameState) (r c : Z) (moves : list Move)
    : Res (list Move) :=
  (cell <- board_get (board s) r c ;;
   turn <- str_getitem cell 0 ;;
   if (String.eqb turn "w" && whiteToMove s)
      || (String.eqb turn "b" && negb (whiteToMove s)) then
     cell' <- board_get (board s) r c ;;
     piece <- str_getitem cell' 1 ;;
     f <- moveFunctions piece ;;
     f s r c moves
   else Ok moves)%res.

Definition getAllPossibleMoves (s : GameState) : Res (list Move) :=
  for_each (range (length (board s)))
    (fun r moves =>
       (row <- py_getitem (board s) r ;;
        for_each (range (length row)) (fun c moves => scan_cell s r c moves) moves)%res)
    [].

(** ** Check and the legality filter *)

Definition squareUnderAttack (r c : Z) : M bool :=
  (flip_turn ;;;
   oppMoves <-- read getAllPossibleMoves ;;
   flip_turn ;;;
   ret (existsb (fun move => (endRow move =? r) && (endCol move =? c)) oppMoves))%gs.

Definition inCheck : M bool := fun s =>
  if whiteToMove s
  then squareUnderAttack (fst (whiteKingLocation s)) (snd (whiteKingLocation s)) s
  else squareUnderAttack (fst (blackKingLocation s)) (snd (blackKingLocation s)) s.

(** [list.remove(x)]: drops the first item equal to [x]. *)
Fixpoint list_remove (x : Move) (l : list Move) : Res (list Move) :=
  match l with
  | [] => Raise ValueError
  | y :: l' =>
    if Move_eq y x then Ok l'
    else (l'' <- list_remove x l' ;; Ok (y :: l''))%res
  end.

(** The loop [for i in range(len(moves)-1,-1,-1)] of [getValidMoves];
    [n] counts the indices still to visit, the next one being [n - 1]. *)
Fixpoint filter_loop (n : nat) (moves : list Move) : M (list Move) :=
  match n with
  | O => ret moves
  | S i =>
    (m <-- read (fun _ => py_getitem moves (Z.of_nat i)) ;;
     makeMove m ;;;
     flip_turn ;;;
     chk <-- inCheck ;;
     moves' <-- (if chk : bool then
                   m' <-- read (fun _ => py_getitem moves (Z.of_nat i)) ;;
                   read (fun _ => list_remove m' moves)
                 else ret moves) ;;
     flip_turn ;;;
     undoMove ;;;
     filter_loop i moves')%gs
  end.

Definition getValidMoves : M (list Move) :=
  (moves <-- read getAllPossibleMoves ;;
   moves <-- filter_loop (length moves) moves ;;
   (if Nat.eqb (length moves) 0 then
      chk <-- inCheck ;;
      if chk : bool then modify (set_checkMate true)
      else modify (set_staleMate true)
    else
      modify (set_checkMate false) ;;;
      modify (set_staleMate false)) ;;;
   ret moves)%gs.

(** ** Running games *)

Definition coords (m : Move) : (Z * Z) * (Z * Z) :=
  ((startRow m, startCol m), (endRow m, endCol m)).

(** A position is reachable when it is the starting position or comes from
    a reachable one by asking for the valid moves and making one of them. *)
Inductive reachable : GameState -> Prop :=
| reachable_init : reachable init
| reachable_move s ms s1 m s2 :
    reachable s ->
    getValidMoves s = (Ok ms, s1) ->
    In m ms ->
    makeMove m s1 = (Ok tt, s2) ->
    reachable s2.

Definition coords_eqb (a b : (Z * Z) * (Z * Z)) : bool :=
  ((fst (fst a) =? fst (fst b)) && (snd (fst a) =? snd (fst b)))
  && ((fst (snd a) =? fst (snd b)) && (snd (snd a) =? snd (snd b))).

(** One turn of play: the valid moves are generated and the one with the
    chosen squares, if there is one, is made. *)
Definition play_move (sq : (Z * Z) * (Z * Z)) (s : GameState) : option GameState :=
  match getValidMoves s with
  | (Ok ms, s1) =>
    match find (fun m => coords_eqb (coords m) sq) ms with
    | Some m =>
      match makeMove m s1 with
      | (Ok _, s2) => Some s2
      | (Raise _, _) => None
      end
    | None => None
    end
  | (Raise _, _) => None
  end.

Fixpoint play (game : list ((Z * Z) * (Z * Z))) (s : GameState) : option GameState :=
  match game with
  | [] => Some s
  | sq :: game' =>
    match play_move sq s with
    | Some s' => play game' s'
    | None => None
    end
  end.

(** ** Positions inside the board

    [locate b r c] is the pair of list positions that [b[r][c]] denotes,
    when it denotes one; [cell] reads and [upd] writes such a position. *)

Definition locate (b : Board) (r c : Z) : option (nat * nat) :=
  match norm_index (length b) r with
  | Some i =>
    match b !! i with
    | Some row =>
      match norm_index (length row) c with
      | Some j => Some (i, j)
      | None => None
      end
    | None => None
    end
  | None => None
  end.

Definition cell (b : Board) (p : nat * nat) : option string :=
  match b !! fst p with
  | Some row => row !! snd p
  | None => None
  end.

Definition upd (b : Board) (p : nat * nat) (v : string) : Board :=
  alter (fun row => <[snd p := v]> row) (fst p) b.

(** A move record as the generators and the caller of [makeMove] build
    it: by [Move.__init__] on the board of the moment. *)
Definition built_on (b : Board) (m : Move) : Prop :=
  exists startSq endSq, Move_init startSq endSq b = Ok m.

(** The object after [makeMove] has run to its end on a move whose two
    squares denote the positions [p1] and [p2]. *)
Definition after_move (m : Move) (p1 p2 : nat * nat) (s : GameState) : GameState :=
  {| board := upd (upd (board s) p1 "--") p2 (pieceMoved m);
     whiteToMove := negb (whiteToMove s);
     moveLog := moveLog s ++ [m];
     whiteKingLocation := whiteKingLocation s;
     blackKingLocation := blackKingLocation s;
     checkMate := checkMate s;
     staleMate := staleMate s |}.

(** ** Well-formed boards and the vocabulary of the specification *)

(** Eight rows of eight cells, every cell a two-character string. *)
Definition wf_cell (p : string) : bool := Nat.eqb (String.length p) 2.

(** Eight rows of eight cells, every cell passing the test [f]. *)
Definition board_all (f : string -> bool) (b : Board) : bool :=
  Nat.eqb (length b) 8
  && forallb (fun row => Nat.eqb (length row) 8 && forallb f row) b.

Definition wf_board (b : Board) : bool := board_all wf_cell b.

Definition destinations (ms : list Move) : list (Z * Z) :=
  map (fun m => (endRow m, endCol m)) ms.

(** The square [i] steps from [(r, c)] in direction [d]. *)
Definition ray (r c : Z) (d : Z * Z) (i : Z) : Z * Z :=
  (r + fst d * i, c + snd d * i).

Definition empty_at (b : Board) (sq : Z * Z) : Prop :=
  board_get b (fst sq) (snd sq) = Ok "--".

Definition occupied_at (b : Board) (sq : Z * Z) : Prop :=
  exists p, board_get b (fst sq) (snd sq) = Ok p /\ p <> "--".

(** The cell holds a piece whose colour letter is [color]. *)
Definition color_at (b : Board) (sq : Z * Z) (color : string) : Prop :=
  exists p, board_get b (fst sq) (snd sq) = Ok p /\ str_getitem p 0 = Ok color.

Definition enemyColor (s : GameState) : string :=
  if whiteToMove s then "b" else "w".

(** The three sliding pieces, their generators and their rays. *)
Inductive slider : Type := Rook | Bishop | Queen.

Definition slider_moves (k : slider)
    : GameState -> Z -> Z -> list Move -> Res (list Move) :=
  match k with
  | Rook => getRookmoves
  | Bishop => getBishopmoves
  | Queen => getQueenmoves
  end.

Definition slider_directions (k : slider) : list (Z * Z) :=
  match k with
  | Rook => rook_directions
  | Bishop => bishop_directions
  | Queen => rook_directions ++ bishop_directions
  end.

(** The first occupied square of the ray from [(r, c)] in direction [d]
    is the one [i] steps away. *)
Definition first_occupied (b : Board) (r c : Z) (d : Z * Z) (i : Z) : Prop :=
  1 <= i <= 7 /\
  on_board (fst (ray r c d i)) (snd (ray r c d i)) = true /\
  (forall j, 1 <= j < i -> empty_at b (ray r c d j)) /\
  occupied_at b (ray r c d i).

(** The squares a ray adds, for any list of step lengths: those whose
    predecessors in the list are all on the board and empty, and which
    are themselves on the board and empty or hold the colour [e]. *)
Definition slide_reaches (s : GameState) (e : string) (r c : Z) (d : Z * Z)
    (steps : list Z) (sq : Z * Z) : Prop :=
  exists pre i post,
    steps = pre ++ i :: post /\ sq = ray r c d i /\
    on_board (fst sq) (snd sq) = true /\
    (forall j, In j pre ->
       on_board (fst (ray r c d j)) (snd (ray r c d j)) = true /\
       empty_at (board s) (ray r c d j)) /\
    (empty_at (board s) sq \/ color_at (board s) sq e).

(** A square the ray from [(r, c)] in direction [d] reaches: every
    square before it is empty, and it is empty or holds the colour [e]. *)
Definition ray_reaches (s : GameState) (e : string) (r c : Z) (d : Z * Z)
    (sq : Z * Z) : Prop :=
  exists i,
    1 <= i <= 7 /\ sq = ray r c d i /\
    on_board (fst sq) (snd sq) = true /\
    (forall j, 1 <= j < i -> empty_at (board s) (ray r c d j)) /\
    (empty_at (board s) sq \/ color_at (board s) sq e).

Definition all_directions : list (Z * Z) := rook_directions ++ bishop_directions.

(** ** Re-deriving check from the board *)

Fixpoint index_of (p : string) (row : list string) (c : Z) : option Z :=
  match row with
  | [] => None
  | x :: row' => if String.eqb x p then Some c else index_of p row' (c + 1)
  end.

(** The first square, in scan order, that holds the piece [p]. *)
Fixpoint find_piece (p : string) (b : Board) (r : Z) : option (Z * Z) :=
  match b with
  | [] => None
  | row :: b' =>
    match index_of p row 0 with
    | Some c => Some (r, c)
    | None => find_piece p b' (r + 1)
    end
  end.

(** Some pseudo-legal move of the side to move ends on [sq]. *)
Definition attacked (s : GameState) (sq : Z * Z) : Res bool :=
  (ms <- getAllPossibleMoves s ;;
   Ok (existsb (fun m => (endRow m =? fst sq) && (endCol m =? snd sq)) ms))%res.

(** In the position [s'] that a move has just led to, the king of the
    side that moved is found on the board and its square is attacked by
    the side now to move. *)
Definition leaves_king_attacked (s' : GameState) : Res bool :=
  match find_piece (if whiteToMove s' then "bK" else "wK") (board s') 0 with
  | Some sq => attacked s' sq
  | None => Ok false
  end.

(** ** Kinds of move in the starting position *)

Definition is_single_step (m : Move) : bool :=
  String.eqb (pieceMoved m) "wp" && (endRow m =? startRow m - 1)
  && (endCol m =? startCol m).

Definition is_double_step (m : Move) : bool :=
  String.eqb (pieceMoved m) "wp" && (endRow m =? startRow m - 2)
  && (endCol m =? startCol m).

Definition is_knight_move (m : Move) : bool :=
  String.eqb (pieceMoved m) "wN".

(** ** Games used as inputs *)

(** 1.e4 e5 *)
Definition game_open : list ((Z * Z) * (Z * Z)) :=
  [((6,4),(4,4)); ((1,4),(3,4))].

(** 1.e4 d5 2.Ke2 Bg4+ *)
Definition game_bishop_check : list ((Z * Z) * (Z * Z)) :=
  [((6,4),(4,4)); ((1,3),(3,3)); ((7,4),(6,4)); ((0,2),(4,6))].

(** 1.a3 h5 2.a4 h4 3.a5 h3 4.a6 hxg2 5.axb7 gxh1: a black pawn stands
    on h1. *)
Definition game_black_pawn_h1 : list ((Z * Z) * (Z * Z)) :=
  [((6,0),(5,0)); ((1,7),(3,7)); ((5,0),(4,0)); ((3,7),(4,7));
   ((4,0),(3,0)); ((4,7),(5,7)); ((3,0),(2,0)); ((5,7),(6,6));
   ((2,0),(1,1)); ((6,6),(7,7))].

(** 1.h3 a5 2.h4 a4 3.h5 a3 4.h6 axb2 5.hxg7 bxa1: a black pawn stands
    on a1. *)
Definition game_black_pawn_a1 : list ((Z * Z) * (Z * Z)) :=
  [((6,7),(5,7)); ((1,0),(3,0)); ((5,7),(4,7)); ((3,0),(4,0));
   ((4,7),(3,7)); ((4,0),(5,0)); ((3,7),(2,7)); ((5,0),(6,1));
   ((2,7),(1,6)); ((6,1),(7,0))].

(** 1.Nc3 Nf6 2.b4 Ng8 3.b5 Nf6 4.b6 Ng8 5.bxa7 Nf6 6.axb8 Ng8: a white
    pawn stands on b8 and b1 is empty. *)
Definition game_white_pawn_b8 : list ((Z * Z) * (Z * Z)) :=
  [((7,1),(5,2)); ((0,6),(2,5)); ((6,1),(4,1)); ((2,5),(0,6));
   ((4,1),(3,1)); ((0,6),(2,5)); ((3,1),(2,1)); ((2,5),(0,6));
   ((2,1),(1,0)); ((0,6),(2,5)); ((1,0),(0,1)); ((2,5),(0,6))].

(** 1.b4 Nf6 2.b5 Ne4 3.b6 Nc3 4.bxc7 Nxa2 5.cxb8 Nxc1: a white pawn
    stands on b8 and a black knight on c1. *)
Definition game_knight_c1 : list ((Z * Z) * (Z * Z)) :=
  [((6,1),(4,1)); ((0,6),(2,5)); ((4,1),(3,1)); ((2,5),(4,4));
   ((3,1),(2,1)); ((4,4),(5,2)); ((2,1),(1,2)); ((5,2),(6,0));
   ((1,2),(0,1)); ((6,0),(7,2))].

(** 1.e3 d5 2.Qh5 Na6 3.Qxh7 f5 4.Qxg7 Nb8 5.Qxh8 Na6 6.Qxg8 Nb8 7.Qxd5 Na6
    8.Qxb7 Nb8 9.Qxa8 Na6 10.Qxc8 Nb8 11.Qxb8 a6 12.Qxc7 Qd6 13.Qxd6 Bh6
    14.Qxh6 Kf7 15.a4 Kf6 16.Qxf6 f4 17.exf4 a5: black is left with the
    pawns a5 and e7, the white queen stands on f6. *)
Definition game_two_pawns : list ((Z * Z) * (Z * Z)) :=
  [((6,4),(5,4)); ((1,3),(3,3)); ((7,3),(3,7)); ((0,1),(2,0));
   ((3,7),(1,7)); ((1,5),(3,5)); ((1,7),(1,6)); ((2,0),(0,1));
   ((1,6),(0,7)); ((0,1),(2,0)); ((0,7),(0,6)); ((2,0),(0,1));
   ((0,6),(3,3)); ((0,1),(2,0)); ((3,3),(1,1)); ((2,0),(0,1));
   ((1,1),(0,0)); ((0,1),(2,0)); ((0,0),(0,2)); ((2,0),(0,1));
   ((0,2),(0,1)); ((1,0),(2,0)); ((0,1),(1,2)); ((0,3),(2,3));
   ((1,2),(2,3)); ((0,5),(2,7)); ((2,3),(2,7)); ((0,4),(1,5));
   ((6,0),(4,0)); ((1,5),(2,5)); ((2,7),(2,5)); ((3,5),(4,5));
   ((5,4),(4,5)); ((2,0),(3,0))].

(** ** The boards those games lead to *)

(** The board after 1.e4 e5, reached by [game_open]. *)
Definition board_open : Board :=
  [["bR"; "bN"; "bB"; "bQ"; "bK"; "bB"; "bN"; "bR"];
   ["bp"; "bp"; "bp"; "bp"; "--"; "bp"; "bp"; "bp"];
   ["--"; "--"; "--"; "--"; "--"; "--"; "--"; "--"];
   ["--"; "--"; "--"; "--"; "bp"; "--"; "--"; "--"];
   ["--"; "--"; "--"; "--"; "wp"; "--"; "--"; "--"];
   ["--"; "--"; "--"; "--"; "--"; "--"; "--"; "--"];
   ["wp"; "wp"; "wp"; "wp"; "--"; "wp"; "wp"; "wp"];
   ["wR"; "wN"; "wB"; "wQ"; "wK"; "wB"; "wN"; "wR"]].

(** The board after 1.e4 d5 2.Ke2 Bg4+, reached by [game_bishop_check]. *)
Definition board_bishop_check : Board :=
  [["bR"; "bN"; "--"; "bQ"; "bK"; "bB"; "bN"; "bR"];
   ["bp"; "bp"; "bp"; "--"; "bp"; "bp"; "bp"; "bp"];
   ["--"; "--"; "--"; "--"; "--"; "--"; "--"; "--"];
   ["--"; "--"; "--"; "bp"; "--"; "--"; "--"; "--"];
   ["--"; "--"; "--"; "--"; "wp"; "--"; "bB"; "--"];
   ["--"; "--"; "--"; "--"; "--"; "--"; "--"; "--"];
   ["wp"; "wp"; "wp"; "wp"; "wK"; "wp"; "wp"; "wp"];
   ["wR"; "wN"; "wB"; "wQ"; "--"; "wB"; "wN"; "wR"]].

(** The board with a black pawn on h1, reached by [game_black_pawn_h1]. *)
Definition board_black_pawn_h1 : Board :=
  [["bR"; "bN"; "bB"; "bQ"; "bK"; "bB"; "bN"; "bR"];
   ["bp"; "wp"; "bp"; "bp"; "bp"; "bp"; "bp"; "--"];
   ["--"; "--"; "--"; "--"; "--"; "--"; "--"; "--"];
   ["--"; "--"; "--"; "--"; "--"; "--"; "--"; "--"];
   ["--"; "--"; "--"; "--"; "--"; "--"; "--"; "--"];
   ["--"; "--"; "--"; "--"; "--"; "--"; "--"; "--"];
   ["--"; "wp"; "wp"; "wp"; "wp"; "wp"; "--"; "wp"];
   ["wR"; "wN"; "wB"; "wQ"; "wK"; "wB"; "wN"; "bp"]].

(** The board with a white pawn on b8 and b1 empty, reached by [game_white_pawn_b8]. *)
Definition board_white_pawn_b8 : Board :=
  [["bR"; "wp"; "bB"; "bQ"; "bK"; "bB"; "bN"; "bR"];
   ["--"; "bp"; "bp"; "bp"; "bp"; "bp"; "bp"; "bp"];
   ["--"; "--"; "--"; "--"; "--"; "--"; "--"; "--"];
   ["--"; "--"; "--"; "--"; "--"; "--"; "--"; "--"];
   ["--"; "--"; "--"; "--"; "--"; "--"; "--"; "--"];
   ["--"; "--"; "wN"; "--"; "--"; "--"; "--"; "--"];
   ["wp"; "--"; "wp"; "wp"; "wp"; "wp"; "wp"; "wp"];
   ["wR"; "--"; "wB"; "wQ"; "wK"; "wB"; "wN"; "wR"]].

(** The board with the black pawns a5 and e7 and the white queen on f6, reached by [game_two_pawns]. *)
Definition board_two_pawns : Board :=
  [["--"; "--"; "--"; "--"; "--"; "--"; "--"; "--"];
   ["--"; "--"; "--"; "--"; "bp"; "--"; "--"; "--"];
   ["--"; "--"; "--"; "--"; "--"; "wQ"; "--"; "--"];
   ["bp"; "--"; "--"; "--"; "--"; "--"; "--"; "--"];
   ["wp"; "--"; "--"; "--"; "--"; "wp"; "--"; "--"];
   ["--"; "--"; "--"; "--"; "--"; "--"; "--"; "--"];
   ["--"; "wp"; "wp"; "wp"; "--"; "wp"; "wp"; "wp"];
   ["wR"; "wN"; "wB"; "--"; "wK"; "wB"; "wN"; "wR"]].

(** The board with a white pawn on b8 and a black knight on c1, reached by [game_knight_c1]. *)
Definition board_knight_c1 : Board :=
  [["bR"; "wp"; "bB"; "bQ"; "bK"; "bB"; "--"; "bR"];
   ["bp"; "bp"; "--"; "bp"; "bp"; "bp"; "bp"; "bp"];
   ["--"; "--"; "--"; "--"; "--"; "--"; "--"; "--"];
   ["--"; "--"; "--"; "--"; "--"; "--"; "--"; "--"];
   ["--"; "--"; "--"; "--"; "--"; "--"; "--"; "--"];
   ["--"; "--"; "--"; "--"; "--"; "--"; "--"; "--"];
   ["--"; "--"; "wp"; "wp"; "wp"; "wp"; "wp"; "wp"];
   ["wR"; "wN"; "bN"; "wQ"; "wK"; "wB"; "wN"; "wR"]].

(** The board with a black pawn on a1, reached by [game_black_pawn_a1]. *)
Definition board_black_pawn_a1 : Board :=
  [["bR"; "bN"; "bB"; "bQ"; "bK"; "bB"; "bN"; "bR"];
   ["--"; "bp"; "bp"; "bp"; "bp"; "bp"; "wp"; "bp"];
   ["--"; "--"; "--"; "--"; "--"; "--"; "--"; "--"];
   ["--"; "--"; "--"; "--"; "--"; "--"; "--"; "--"];
   ["--"; "--"; "--"; "--"; "--"; "--"; "--"; "--"];
   ["--"; "--"; "--"; "--"; "--"; "--"; "--"; "--"];
   ["wp"; "--"; "wp"; "wp"; "wp"; "wp"; "wp"; "--"];
   ["bp"; "wN"; "wB"; "wQ"; "wK"; "wB"; "wN"; "wR"]].

(** Try one move, ask for the valid moves, take the move back, try
    another one and ask again. *)
Definition try_two_moves (m1 m2 : Move) : M (list Move * list Move) :=
  (makeMove m1 ;;;
   r1 <-- getValidMoves ;;
   undoMove ;;;
   makeMove m2 ;;;
   r2 <-- getValidMoves ;;
   ret (r1, r2))%gs.

(** The position after 1.e4 e5. *)
Definition pos_open : GameState := Eval vm_compute in
  match play game_open init with
  | Some s => s
  | None => init
  end.

(** The move e2-e4 as [Move.__init__] builds it on the starting board. *)
Definition move_e2e4 : Move :=
  {| startRow := 6; startCol := 4; endRow := 4; endCol := 4;
     pieceMoved := "wp"; pieceCaptured := "--"; moveID := 6444 |}.

(** ** The pawn generator, piece by piece *)

(** Row step of a pawn of the side to move, and the row it starts on. *)
Definition forward (s : GameState) : Z := if whiteToMove s then -1 else 1.
Definition home_row (s : GameState) : Z := if whiteToMove s then 6 else 1.

(** The first [if] of a branch of [getPawnmoves]: the single and the
    double step, to the rows [r1] and [r2]. *)
Definition pawn_steps (s : GameState) (r c r1 r2 home : Z) (moves : list Move)
    : Res (list Move) :=
  (front <- board_get (board s) r1 c ;;
   if String.eqb front "--" then
     moves <- append_move s (r, c) (r1, c) moves ;;
     if r =? home then
       front2 <- board_get (board s) r2 c ;;
       if String.eqb front2 "--"
       then append_move s (r, c) (r2, c) moves
       else Ok moves
     else Ok moves
   else Ok moves)%res.

(** One of the two capturing [if]s of a branch of [getPawnmoves]. *)
Definition pawn_capture (s : GameState) (r c r1 c1 : Z) (guard : bool)
    (color : string) (moves : list Move) : Res (list Move) :=
  (if guard then
     p <- board_get (board s) r1 c1 ;;
     k <- str_getitem p 0 ;;
     if String.eqb k color
     then append_move s (r, c) (r1, c1) moves
     else Ok moves
   else Ok moves)%res.

(** ** Positions on which the engine runs to the end *)

Definition pieces : list string :=
  ["--"; "wp"; "wR"; "wN"; "wB"; "wQ"; "wK";
         "bp"; "bR"; "bN"; "bB"; "bQ"; "bK"].

Definition piece_cell (p : string) : bool := existsb (String.eqb p) pieces.

(** Eight rows of eight cells, every cell empty or one of the twelve
    pieces. *)
Definition piece_board (b : Board) : bool := board_all piece_cell b.

Definition row_has (p : string) (b : Board) (i : nat) : bool :=
  match b !! i with
  | Some row => existsb (String.eqb p) row
  | None => false
  end.

(** No pawn of the colour [white] stands on the last rank of that
    colour. *)
Definition last_rank_free (b : Board) (white : bool) : bool :=
  if white then negb (row_has "wp" b 0) else negb (row_has "bp" b 7).

(** The cell holds a piece of the colour [white]. *)
Definition cell_of (white : bool) (p : string) : bool :=
  if white
  then existsb (String.eqb p) ["wp"; "wR"; "wN"; "wB"; "wQ"; "wK"]
  else existsb (String.eqb p) ["bp"; "bR"; "bN"; "bB"; "bQ"; "bK"].

(** A candidate of [getAllPossibleMoves]: a record built on the board
    that moves a piece of the side to move. *)
Definition candidate (s : GameState) (m : Move) : Prop :=
  built_on (board s) m /\ cell_of (whiteToMove s) (pieceMoved m) = true.

(** ** The colour of the side to move *)

Definition allyColor (s : GameState) : string :=
  if whiteToMove s then "w" else "b".

(** ** Chess notation: the tables of the class [Move]

    A Python dictionary is kept as the list of its items in insertion
    order.  Reading a key that is not there raises [KeyError]; there is no
    wrap-around for negative keys as there is for list positions. *)

(** [d[k]] *)
Definition dict_getitem {K V} (eqb : K -> K -> bool) (d : list (K * V)) (k : K)
    : Res V :=
  match find (fun kv => eqb (fst kv) k) d with
  | Some kv => Ok (snd kv)
  | None => Raise KeyError
  end.

(** [d[k] = v]: the value of a key already there is replaced, a new key
    goes to the end. *)
Fixpoint dict_setitem {K V} (eqb : K -> K -> bool) (d : list (K * V)) (k : K)
    (v : V) : list (K * V) :=
  match d with
  | [] => [(k, v)]
  | (k', v') :: d' =>
    if eqb k' k then (k', v) :: d' else (k', v') :: dict_setitem eqb d' k v
  end.

(** [{v: k for k, v in d.items()}] *)
Definition dict_invert {K V} (eqb : V -> V -> bool) (d : list (K * V))
    : list (V * K) :=
  fold_left (fun acc kv => dict_setitem eqb acc (snd kv) (fst kv)) d [].

Definition ranksToRows : list (string * Z) :=
  [("1", 7); ("2", 6); ("3", 5); ("4", 4);
   ("5", 3); ("6", 2); ("7", 1); ("8", 0)].

Definition rowsToRanks : list (Z * string) := dict_invert Z.eqb ranksToRows.

Definition filesToCols : list (string * Z) :=
  [("a", 0); ("b", 1); ("c", 2); ("d", 3);
   ("e", 4); ("f", 5); ("g", 6); ("h", 7)].

Definition colsToFiles : list (Z * string) := dict_invert Z.eqb filesToCols.

(** [Move.getRankFile] *)
Definition getRankFile (r c : Z) : Res string :=
  (file <- dict_getitem Z.eqb colsToFiles c ;;
   rank <- dict_getitem Z.eqb rowsToRanks r ;;
   Ok (String.append file rank))%res.

(** [Move.getChessNotation] *)
Definition getChessNotation (m : Move) : Res string :=
  (a <- getRankFile (startRow m) (startCol m) ;;
   b <- getRankFile (endRow m) (endCol m) ;;
   Ok (String.append a b))%res.

(** ** Taking moves back, counting pieces *)

(** [undoMove] called [n] times in a row. *)
Fixpoint undo_moves (n : nat) : M unit :=
  match n with
  | O => ret tt
  | S n' => (undoMove ;;; undo_moves n')%gs
  end.

(** The number of cells of the board that hold [p]. *)
Definition count_piece (p : string) (b : Board) : nat :=
  fold_right (fun row n => (length (List.filter (String.eqb p) row) + n)%nat)
    0%nat b.

(** ** The two flags

    [self.checkMate = cm; self.staleMate = sm] *)
Definition with_flags (cm sm : bool) (s : GameState) : GameState :=
  set_staleMate sm (set_checkMate cm s).

(** A method whose outcome does not depend on the two flags and which
    leaves them as it found them. *)
Definition ignores_flags {A} (x : M A) : Prop :=
  forall cm sm s,
    x (with_flags cm sm s) = (fst (x s), with_flags cm sm (snd (x s))).

(** ** Generators as functions of the list they append to *)

(** The moves a generator appends when it is handed the list [moves]
    are those it appends to the empty list. *)
Definition appender (g : list Move -> Res (list Move)) : Prop :=
  forall moves, g moves = (new <- g [] ;; Ok (moves ++ new))%res.

(** A record appended for the piece on [(r, c)]: it starts there, its two
    piece fields are what the board holds on its two squares, the end
    square does not hold the colour of the side to move, and the end
    square is on the board or, for a pawn, in a column of the board one
    pawn row ahead of [r]. *)
Definition guarded (s : GameState) (r c : Z) (pawn : bool) (m : Move) : Prop :=
  startRow m = r /\ startCol m = c /\
  board_get (board s) r c = Ok (pieceMoved m) /\
  board_get (board s) (endRow m) (endCol m) = Ok (pieceCaptured m) /\
  (exists k, str_getitem (pieceCaptured m) 0 = Ok k /\ k <> allyColor s) /\
  (on_board (endRow m) (endCol m) = true \/
   (pawn = true /\ endRow m = r + forward s /\ 0 <= endCol m < 8)).

(** The squares of the board in the order [getAllPossibleMoves] visits
    them. *)
Definition squares : list (Z * Z) :=
  flat_map (fun r => map (fun c => (r, c)) (range 8)) (range 8).

(** The position with a black pawn on h1 and white to move. *)
Definition pos_black_pawn_h1 : GameState := Eval vm_compute in
  match play game_black_pawn_h1 init with
  | Some s => s
  | None => init
  end.

(** The position after 1.e4 d5 2.Ke2 Bg4+: the white king stands on e2. *)
Definition pos_bishop_check : GameState := Eval vm_compute in
  match play game_bishop_check init with
  | Some s => s
  | None => init
  end.

(** The move e7-e5 as [Move.__init__] builds it after 1.e4. *)
Definition move_e7e5 : Move :=
  {| startRow := 1; startCol := 4; endRow := 3; endCol := 4;
     pieceMoved := "bp"; pieceCaptured := "--"; moveID := 1434 |}.

(** A record for a pawn on e2 whose end square is below the board. *)
Definition move_e2_off_board : Move :=
  {| startRow := 6; startCol := 4; endRow := 8; endCol := 4;
     pieceMoved := "wp"; pieceCaptured := "--"; moveID := 6484 |}.

(** * Properties *)

(** ** Python indexing *)

Lemma norm_index_lt len i n : norm_index len i = Some n -> (n < len)%nat.
Proof.
  unfold norm_index.
  destruct ((0 <=? i) && (i <? Z.of_nat len)) eqn:E1.
  - intros [= <-]. apply andb_true_iff in E1 as [H1 H2]. lia.
  - destruct ((- Z.of_nat len <=? i) && (i <? 0)) eqn:E2; [|discriminate].
    intros [= <-]. apply andb_true_iff in E2 as [H1 H2]. lia.
Qed.

Lemma norm_index_in_range len i :
  0 <= i < Z.of_nat len -> norm_index len i = Some (Z.to_nat i).
Proof.
  intros H. unfold norm_index.
  replace ((0 <=? i) && (i <? Z.of_nat len)) with true; [reflexivity|].
  symmetry. apply andb_true_iff. lia.
Qed.

Lemma py_getitem_Ok {A} (l : list A) i x :
  py_getitem l i = Ok x <->
  exists n, norm_index (length l) i = Some n /\ l !! n = Some x.
Proof.
  unfold py_getitem. split.
  - destruct (norm_index (length l) i) as [n|]; [|discriminate].
    destruct (l !! n) as [y|] eqn:E; [|discriminate].
    intros [= <-]. eauto.
  - intros (n & -> & ->). reflexivity.
Qed.

Lemma py_getitem_in_range {A} (l : list A) i :
  0 <= i < Z.of_nat (length l) ->
  exists x, py_getitem l i = Ok x /\ l !! Z.to_nat i = Some x.
Proof.
  intros H. destruct (lookup_lt_is_Some_2 l (Z.to_nat i)) as [x Hx]; [lia|].
  exists x. split; [|exact Hx].
  apply py_getitem_Ok. exists (Z.to_nat i). split; [|exact Hx].
  now apply norm_index_in_range.
Qed.

Lemma str_getitem_single s i k :
  str_getitem s i = Ok k -> exists ch, k = String ch EmptyString.
Proof.
  unfold str_getitem. destruct (norm_index _ _) as [n|]; [|discriminate].
  destruct (String.get n s) as [ch|]; [|discriminate].
  intros [= <-]. eauto.
Qed.

Lemma single_char_neq2 ch a b :
  String.eqb (String ch EmptyString) (String a (String b EmptyString)) = false.
Proof. simpl. destruct (Ascii.eqb ch a); reflexivity. Qed.

Lemma wf_cell_chars p :
  String.length p = 2%nat ->
  exists a b, p = String a (String b EmptyString) /\
    str_getitem p 0 = Ok (String a EmptyString) /\
    str_getitem p 1 = Ok (String b EmptyString).
Proof.
  destruct p as [|a [|b [|? ?]]]; try discriminate.
  intros _. exists a, b. auto.
Qed.

Lemma pop_snoc {A} (l : list A) x : pop (l ++ [x]) = Some (x, l).
Proof. unfold pop. rewrite rev_app_distr. simpl. now rewrite rev_involutive. Qed.

(** ** Reading and writing cells *)

Lemma locate_cell b r c p : locate b r c = Some p -> is_Some (cell b p).
Proof.
  unfold locate, cell.
  destruct (norm_index (length b) r) as [i|]; [|discriminate].
  destruct (b !! i) as [row|] eqn:Hrow; [|discriminate].
  destruct (norm_index (length row) c) as [j|] eqn:Hj; [|discriminate].
  intros [= <-]. simpl. rewrite Hrow.
  apply lookup_lt_is_Some_2. eapply norm_index_lt, Hj.
Qed.

Lemma board_get_locate b r c :
  board_get b r c =
  match locate b r c with
  | Some p => match cell b p with Some x => Ok x | None => Raise IndexError end
  | None => Raise IndexError
  end.
Proof.
  unfold board_get, locate, cell, py_getitem, res_bind.
  destruct (norm_index (length b) r) as [i|]; [|reflexivity].
  destruct (b !! i) as [row|] eqn:Hrow; [|reflexivity].
  destruct (norm_index (length row) c) as [j|]; [|reflexivity].
  simpl. now rewrite Hrow.
Qed.

Lemma board_get_Ok b r c x :
  board_get b r c = Ok x <-> exists p, locate b r c = Some p /\ cell b p = Some x.
Proof.
  rewrite board_get_locate. split.
  - destruct (locate b r c) as [p|]; [|discriminate].
    destruct (cell b p) as [y|] eqn:E; [|discriminate].
    intros [= <-]. eauto.
  - intros (p & -> & ->). reflexivity.
Qed.

Lemma board_set_locate b r c v :
  board_set b r c v =
  match locate b r c with
  | Some p => Ok (upd b p v)
  | None => Raise IndexError
  end.
Proof.
  unfold board_set, locate, upd, py_getitem, py_setitem, res_bind.
  destruct (norm_index (length b) r) as [i|] eqn:Hi; [|reflexivity].
  destruct (b !! i) as [row|] eqn:Hrow; [|reflexivity].
  destruct (norm_index (length row) c) as [j|]; [|reflexivity].
  simpl. f_equal. rewrite list_insert_alter.
  apply list_alter_ext; [|reflexivity].
  intros row' Hrow'. congruence.
Qed.

Lemma upd_length b p v : length (upd b p v) = length b.
Proof. apply length_alter. Qed.

Lemma upd_lookup_row b p v i :
  upd b p v !! i =
  if decide (fst p = i) then (fun row => <[snd p := v]> row) <$> b !! i
  else b !! i.
Proof.
  unfold upd. destruct (decide (fst p = i)) as [<-|Hne].
  - apply list_lookup_alter_eq.
  - now apply list_lookup_alter_ne.
Qed.

Lemma locate_upd b p v r c : locate (upd b p v) r c = locate b r c.
Proof.
  unfold locate. rewrite upd_length.
  destruct (norm_index (length b) r) as [i|]; [|reflexivity].
  rewrite upd_lookup_row. destruct (decide (fst p = i)); [|reflexivity].
  destruct (b !! i) as [row|]; [|reflexivity].
  simpl. now rewrite length_insert.
Qed.

Lemma upd_upd_eq b p v w : upd (upd b p v) p w = upd b p w.
Proof.
  unfold upd. rewrite list_alter_alter_eq.
  apply list_alter_ext; [|reflexivity].
  intros row _. simpl. apply list_insert_insert_eq.
Qed.

Lemma upd_upd_ne b p q v w :
  p <> q -> upd (upd b p v) q w = upd (upd b q w) p v.
Proof.
  intros Hne. unfold upd.
  destruct (decide (fst q = fst p)) as [E|E].
  - rewrite E, !list_alter_alter_eq.
    apply list_alter_ext; [|reflexivity].
    intros row _. simpl. apply list_insert_insert_ne.
    intros E2. apply Hne. destruct p, q; simpl in *; congruence.
  - now apply list_alter_alter_ne.
Qed.

Lemma upd_id b p v : cell b p = Some v -> upd b p v = b.
Proof.
  unfold cell, upd. intros H. apply list_eq. intros i.
  destruct (decide (fst p = i)) as [<-|Hne].
  - rewrite list_lookup_alter_eq.
    destruct (b !! fst p) as [row|]; [|reflexivity].
    simpl. f_equal. now apply list_insert_id.
  - now apply list_lookup_alter_ne.
Qed.

(** Writing the moved piece to the destination and emptying the origin,
    then putting both cells back, gives the board one started from. *)
Lemma upd_round_trip b p1 p2 pm pc e :
  cell b p1 = Some pm -> cell b p2 = Some pc ->
  upd (upd (upd (upd b p1 e) p2 pm) p1 pm) p2 pc = b.
Proof.
  intros H1 H2. destruct (decide (p1 = p2)) as [<-|Hne].
  - rewrite !upd_upd_eq. now apply upd_id.
  - rewrite (upd_upd_ne _ p2 p1) by congruence.
    rewrite upd_upd_eq, upd_upd_eq.
    rewrite (upd_id b p1 pm H1). now apply upd_id.
Qed.

(** ** [makeMove] and [undoMove] *)

Lemma GameState_eta s :
  {| board := board s; whiteToMove := whiteToMove s; moveLog := moveLog s;
     whiteKingLocation := whiteKingLocation s;
     blackKingLocation := blackKingLocation s;
     checkMate := checkMate s; staleMate := staleMate s |} = s.
Proof. now destruct s. Qed.

(** The comparison [move.pieceMoved[1] == 'wK'] sets a one-character
    string against a two-character one. *)
Lemma king_test_false pm k :
  str_getitem pm 1 = Ok k ->
  String.eqb k "wK" = false /\ String.eqb k "bK" = false.
Proof.
  intros H. apply str_getitem_single in H as [ch ->].
  split; apply single_char_neq2.
Qed.

Lemma makeMove_spec m s p1 p2 k :
  locate (board s) (startRow m) (startCol m) = Some p1 ->
  locate (board s) (endRow m) (endCol m) = Some p2 ->
  str_getitem (pieceMoved m) 1 = Ok k ->
  makeMove m s = (Ok tt, after_move m p1 p2 s).
Proof.
  intros H1 H2 Hk. destruct (king_test_false _ _ Hk) as [Hw Hb].
  unfold makeMove, bind, assign_cell, modify, flip_turn, read, ret.
  rewrite board_set_locate, H1. cbn [board set_board].
  rewrite board_set_locate, locate_upd, H2. cbn.
  rewrite Hk, Hw, Hb. reflexivity.
Qed.

Lemma makeMove_Ok_inv m s s1 :
  makeMove m s = (Ok tt, s1) ->
  exists p1 p2 k,
    locate (board s) (startRow m) (startCol m) = Some p1 /\
    locate (board s) (endRow m) (endCol m) = Some p2 /\
    str_getitem (pieceMoved m) 1 = Ok k /\
    s1 = after_move m p1 p2 s.
Proof.
  intros H.
  destruct (locate (board s) (startRow m) (startCol m)) as [p1|] eqn:H1.
  - destruct (locate (board s) (endRow m) (endCol m)) as [p2|] eqn:H2.
    + destruct (str_getitem (pieceMoved m) 1) as [k|e] eqn:Hk.
      * rewrite (makeMove_spec m s p1 p2 k H1 H2 Hk) in H.
        exists p1, p2, k. repeat split; congruence.
      * revert H. unfold makeMove, bind, assign_cell, modify, flip_turn, read, ret.
        rewrite board_set_locate, H1. cbn [board set_board].
        rewrite board_set_locate, locate_upd, H2. cbn.
        rewrite Hk. discriminate.
    + revert H. unfold makeMove, bind, assign_cell, modify, flip_turn, read, ret.
      rewrite board_set_locate, H1. cbn [board set_board].
      rewrite board_set_locate, locate_upd, H2. discriminate.
  - revert H. unfold makeMove, bind, assign_cell, modify, flip_turn, read, ret.
    rewrite board_set_locate, H1. discriminate.
Qed.

(** Whatever the move and whether or not the call raises, [makeMove]
    leaves both cached king squares as they were. *)
Lemma makeMove_king_locations m s r s1 :
  makeMove m s = (r, s1) ->
  whiteKingLocation s1 = whiteKingLocation s /\
  blackKingLocation s1 = blackKingLocation s.
Proof.
  unfold makeMove, bind, assign_cell, modify, flip_turn, read, ret.
  destruct (board_set (board s) _ _ _) as [b1|e1]; [|now intros [= _ <-]].
  cbn [board set_board].
  destruct (board_set b1 _ _ _) as [b2|e2]; [|now intros [= _ <-]].
  cbn.
  destruct (str_getitem (pieceMoved m) 1) as [k|e] eqn:Hk; [|now intros [= _ <-]].
  destruct (king_test_false _ _ Hk) as [-> ->].
  now intros [= _ <-].
Qed.

Lemma undoMove_after_move m p1 p2 s k :
  locate (board s) (startRow m) (startCol m) = Some p1 ->
  locate (board s) (endRow m) (endCol m) = Some p2 ->
  cell (board s) p1 = Some (pieceMoved m) ->
  cell (board s) p2 = Some (pieceCaptured m) ->
  str_getitem (pieceMoved m) 1 = Ok k ->
  undoMove (after_move m p1 p2 s) = (Ok tt, s).
Proof.
  intros H1 H2 C1 C2 Hk. destruct (king_test_false _ _ Hk) as [Hw Hb].
  unfold undoMove. cbn [moveLog after_move].
  rewrite pop_snoc, length_app. cbn [length].
  replace (negb (Nat.eqb (length (moveLog s) + 1) 0)) with true
    by (destruct (length (moveLog s)); reflexivity).
  unfold bind, assign_cell, modify, flip_turn, read, ret. cbn.
  rewrite board_set_locate, !locate_upd, H1. cbn.
  rewrite board_set_locate, !locate_upd, H2. cbn.
  rewrite Hk, Hw, Hb, negb_involutive.
  rewrite (upd_round_trip _ _ _ _ _ _ C1 C2).
  unfold set_moveLog, set_board, set_whiteToMove. cbn.
  now rewrite GameState_eta.
Qed.

Lemma Move_init_inv startSq endSq b m :
  Move_init startSq endSq b = Ok m ->
  exists p1 p2,
    locate b (startRow m) (startCol m) = Some p1 /\
    locate b (endRow m) (endCol m) = Some p2 /\
    cell b p1 = Some (pieceMoved m) /\
    cell b p2 = Some (pieceCaptured m).
Proof.
  unfold Move_init, res_bind.
  destruct (board_get b (fst startSq) (snd startSq)) as [pm|] eqn:E1; [|discriminate].
  destruct (board_get b (fst endSq) (snd endSq)) as [pc|] eqn:E2; [|discriminate].
  intros [= <-]. cbn.
  apply board_get_Ok in E1 as (p1 & L1 & C1).
  apply board_get_Ok in E2 as (p2 & L2 & C2).
  exists p1, p2. auto.
Qed.

(** For every game state, reachable or not: a move record built on the
    current board whose moved cell has two characters is applied by
    [makeMove], and [undoMove] right after it gives back the very state
    one started from. *)
Lemma makeMove_undoMove_restores (s : GameState) (m : Move) :
  built_on (board s) m ->
  String.length (pieceMoved m) = 2%nat ->
  exists s1, makeMove m s = (Ok tt, s1) /\ undoMove s1 = (Ok tt, s).
Proof.
  intros (startSq & endSq & Hm) Hlen.
  destruct (Move_init_inv _ _ _ _ Hm) as (p1 & p2 & L1 & L2 & C1 & C2).
  destruct (wf_cell_chars _ Hlen) as (a & b & _ & _ & Hk).
  exists (after_move m p1 p2 s). split.
  - eapply makeMove_spec; eauto.
  - eapply undoMove_after_move; eauto.
Qed.

(** ** What the generators append

    Every generator changes the list it is handed through [append_move]
    only, so a property of the list that [append_move] keeps is kept by
    the generators and by the scan of the board. *)

Lemma for_each_invariant {A B} (P : B -> Prop) (l : list A) body acc r :
  (forall x acc acc', P acc -> body x acc = Ok acc' -> P acc') ->
  P acc -> for_each l body acc = Ok r -> P r.
Proof.
  intros Hbody. revert acc. induction l as [|x l IH]; intros acc HP; cbn.
  - now intros [= <-].
  - destruct (body x acc) as [acc'|] eqn:E; cbn; [|discriminate].
    apply IH. eapply Hbody; eauto.
Qed.

Ltac res_cases :=
  repeat match goal with
  | H : Ok _ = Ok _ |- _ => injection H as H; subst
  | H : Raise _ = Ok _ |- _ => discriminate H
  | H : res_bind ?x _ = Ok _ |- _ =>
      let E := fresh "E" in
      destruct x eqn:E; cbn [res_bind] in H; [|discriminate H]
  | H : (if ?c then _ else _) = Ok _ |- _ =>
      let E := fresh "E" in destruct c eqn:E
  end.

Section Appends.
Variable s : GameState.
Variable P : list Move -> Prop.
Variable Q : Z -> Z -> Prop.
Hypothesis P_append : forall r c endSq moves res,
  Q r c -> P moves -> append_move s (r, c) endSq moves = Ok res -> P res.
Hypothesis Q_scan : forall r c cell turn,
  board_get (board s) r c = Ok cell ->
  str_getitem cell 0 = Ok turn ->
  (String.eqb turn "w" && whiteToMove s)
  || (String.eqb turn "b" && negb (whiteToMove s)) = true ->
  Q r c.

Ltac use_append :=
  repeat match goal with
  | H : append_move s (?r, ?c) _ ?moves = Ok _, HP : P ?moves, HQ : Q ?r ?c |- _ =>
      apply (P_append _ _ _ _ _ HQ HP) in H
  end.

Lemma getPawnmoves_appends r c moves res :
  Q r c -> P moves -> getPawnmoves s r c moves = Ok res -> P res.
Proof.
  intros HQ HP H. unfold getPawnmoves in H.
  destruct (whiteToMove s); res_cases; use_append; assumption.
Qed.

Lemma slide_appends enemyColor r c d steps moves res :
  Q r c -> P moves -> slide s enemyColor r c d steps moves = Ok res -> P res.
Proof.
  intros HQ. revert moves.
  induction steps as [|i steps IH]; intros moves HP H; cbn in H.
  - now injection H as <-.
  - destruct (on_board _ _); [|now injection H as <-].
    destruct (board_get _ _ _) as [endpiece|]; cbn [res_bind] in H; [|discriminate].
    destruct (String.eqb endpiece "--").
    + destruct (append_move _ _ _ _) as [moves'|] eqn:E; cbn [res_bind] in H;
        [|discriminate].
      apply IH in H; [exact H|]. eapply P_append; eauto.
    + res_cases; use_append; assumption.
Qed.

Lemma getRookmoves_appends r c moves res :
  Q r c -> P moves -> getRookmoves s r c moves = Ok res -> P res.
Proof.
  intros HQ HP. unfold getRookmoves. apply for_each_invariant; [|exact HP].
  intros d acc acc' Hacc. now apply slide_appends.
Qed.

Lemma getBishopmoves_appends r c moves res :
  Q r c -> P moves -> getBishopmoves s r c moves = Ok res -> P res.
Proof.
  intros HQ HP. unfold getBishopmoves. apply for_each_invariant; [|exact HP].
  intros d acc acc' Hacc. now apply slide_appends.
Qed.

Lemma getQueenmoves_appends r c moves res :
  Q r c -> P moves -> getQueenmoves s r c moves = Ok res -> P res.
Proof.
  intros HQ HP H. unfold getQueenmoves in H. res_cases.
  eapply getBishopmoves_appends; [exact HQ| |eassumption].
  eapply getRookmoves_appends; eassumption.
Qed.

Lemma step_to_appends allyColor r c m moves res :
  Q r c -> P moves -> step_to s allyColor r c m moves = Ok res -> P res.
Proof.
  intros HQ HP H. unfold step_to in H. res_cases; use_append; assumption.
Qed.

Lemma getKnightmoves_appends r c moves res :
  Q r c -> P moves -> getKnightmoves s r c moves = Ok res -> P res.
Proof.
  intros HQ HP. unfold getKnightmoves. apply for_each_invariant; [|exact HP].
  intros d acc acc' Hacc. now apply step_to_appends.
Qed.

Lemma getKingmoves_appends r c moves res :
  Q r c -> P moves -> getKingmoves s r c moves = Ok res -> P res.
Proof.
  intros HQ HP. unfold getKingmoves. apply for_each_invariant; [|exact HP].
  intros i acc acc' Hacc H. res_cases.
  eapply step_to_appends; eassumption.
Qed.

Lemma moveFunctions_appends piece f r c moves res :
  moveFunctions piece = Ok f ->
  Q r c -> P moves -> f s r c moves = Ok res -> P res.
Proof.
  unfold moveFunctions. intros Hf HQ HP.
  destruct (String.eqb piece "p");
    [injection Hf as <-; now apply getPawnmoves_appends|].
  destruct (String.eqb piece "R");
    [injection Hf as <-; now apply getRookmoves_appends|].
  destruct (String.eqb piece "N");
    [injection Hf as <-; now apply getKnightmoves_appends|].
  destruct (String.eqb piece "B");
    [injection Hf as <-; now apply getBishopmoves_appends|].
  destruct (String.eqb piece "Q");
    [injection Hf as <-; now apply getQueenmoves_appends|].
  destruct (String.eqb piece "K");
    [injection Hf as <-; now apply getKingmoves_appends|].
  discriminate.
Qed.

Lemma scan_cell_appends r c moves res :
  P moves -> scan_cell s r c moves = Ok res -> P res.
Proof.
  intros HP H. unfold scan_cell in H.
  destruct (board_get (board s) r c) as [cell0|] eqn:Hcell;
    cbn [res_bind] in H; [|discriminate].
  destruct (str_getitem cell0 0) as [turn|] eqn:Hturn;
    cbn [res_bind] in H; [|discriminate].
  destruct ((String.eqb turn "w" && whiteToMove s)
            || (String.eqb turn "b" && negb (whiteToMove s))) eqn:Hside.
  - res_cases. eapply moveFunctions_appends; eauto.
  - now injection H as <-.
Qed.

Lemma getAllPossibleMoves_appends res :
  P [] -> getAllPossibleMoves s = Ok res -> P res.
Proof.
  intros HP. unfold getAllPossibleMoves. apply for_each_invariant; [|exact HP].
  intros r acc acc' Hacc H. res_cases.
  revert H. apply for_each_invariant; [|exact Hacc].
  intros c acc1 acc2 Hacc1. apply scan_cell_appends, Hacc1.
Qed.
End Appends.

Lemma getAllPossibleMoves_built s ms :
  getAllPossibleMoves s = Ok ms -> Forall (built_on (board s)) ms.
Proof.
  apply (getAllPossibleMoves_appends s _ (fun _ _ => True));
    [|trivial|constructor].
  intros r c endSq moves res _ HP H. unfold append_move in H. res_cases.
  apply Forall_app. split; [exact HP|].
  constructor; [|constructor]. now exists (r, c), endSq.
Qed.

(** ** The state around the check test *)

Lemma bind_Ok_inv {A B} (x : M A) (f : A -> M B) s b s' :
  bind x f s = (Ok b, s') ->
  exists a s1, x s = (Ok a, s1) /\ f a s1 = (Ok b, s').
Proof.
  unfold bind. destruct (x s) as [[a|e] s1]; [eauto|discriminate].
Qed.

Lemma flip_turn_twice s :
  set_whiteToMove (negb (whiteToMove (set_whiteToMove (negb (whiteToMove s)) s)))
    (set_whiteToMove (negb (whiteToMove s)) s) = s.
Proof. destruct s. unfold set_whiteToMove. cbn. now rewrite negb_involutive. Qed.

Lemma squareUnderAttack_Ok r c s b s' :
  squareUnderAttack r c s = (Ok b, s') -> s' = s.
Proof.
  unfold squareUnderAttack, bind, flip_turn, modify, read, ret.
  destruct (getAllPossibleMoves _) as [opp|]; [|discriminate].
  intros [= _ <-]. apply flip_turn_twice.
Qed.

Lemma inCheck_Ok s b s' : inCheck s = (Ok b, s') -> s' = s.
Proof.
  unfold inCheck. destruct (whiteToMove s); apply squareUnderAttack_Ok.
Qed.

Lemma list_remove_Forall (P : Move -> Prop) x l l' :
  list_remove x l = Ok l' -> Forall P l -> Forall P l'.
Proof.
  revert l'. induction l as [|y l IH]; intros l' H HP; cbn in H; [discriminate|].
  apply Forall_cons in HP as [Hy Hl].
  destruct (Move_eq y x).
  - now injection H as <-.
  - destruct (list_remove x l) as [l''|]; cbn in H; [|discriminate].
    injection H as <-. constructor; auto.
Qed.

Lemma py_getitem_In {A} (l : list A) i x : py_getitem l i = Ok x -> In x l.
Proof.
  intros H. apply py_getitem_Ok in H as (n & _ & Hn).
  apply list_elem_of_In. eapply list_elem_of_lookup_2, Hn.
Qed.

(** One pass of the simulation: a move built on the current board is
    made, the check test is run with the turn flag flipped back, and the
    move is undone; the object is then exactly as before. *)
Lemma simulate_restores s m chk s' :
  built_on (board s) m ->
  (makeMove m ;;; flip_turn ;;; inCheck)%gs s = (Ok chk, s') ->
  (flip_turn ;;; undoMove)%gs s' = (Ok tt, s).
Proof.
  intros (sq1 & sq2 & Hm) H.
  apply bind_Ok_inv in H as ([] & s1 & Hmk & H).
  apply bind_Ok_inv in H as ([] & s2 & Hfl & H).
  apply inCheck_Ok in H as ->.
  apply makeMove_Ok_inv in Hmk as (p1 & p2 & k & L1 & L2 & Hk & ->).
  destruct (Move_init_inv _ _ _ _ Hm) as (q1 & q2 & L1' & L2' & C1 & C2).
  assert (q1 = p1) as -> by congruence. assert (q2 = p2) as -> by congruence.
  unfold flip_turn, modify in Hfl. injection Hfl as <-.
  unfold bind, flip_turn, modify.
  match goal with |- undoMove ?x = _ =>
    replace x with (after_move m p1 p2 s)
      by (unfold set_whiteToMove, after_move; cbn; now rewrite !negb_involutive)
  end.
  eapply undoMove_after_move; eauto.
Qed.

Lemma filter_loop_frame n : forall moves s res s',
  Forall (built_on (board s)) moves ->
  filter_loop n moves s = (Ok res, s') ->
  s' = s /\ Forall (built_on (board s)) res.
Proof.
  induction n as [|i IH]; intros moves s res s' Hb H; cbn [filter_loop] in H.
  - unfold ret in H. injection H as <- <-. auto.
  - apply bind_Ok_inv in H as (m & s0 & Hm & H).
    unfold read in Hm. injection Hm as Hm <-.
    assert (built_on (board s) m) as Hbm.
    { rewrite Forall_forall in Hb. apply Hb, list_elem_of_In.
      eapply py_getitem_In, Hm. }
    apply bind_Ok_inv in H as ([] & s1 & Hmk & H).
    apply bind_Ok_inv in H as ([] & s2 & Hfl & H).
    apply bind_Ok_inv in H as (chk & s3 & Hchk & H).
    assert ((makeMove m ;;; flip_turn ;;; inCheck)%gs s = (Ok chk, s3)) as Hsim.
    { unfold bind at 1. rewrite Hmk. unfold bind. rewrite Hfl. exact Hchk. }
    apply (simulate_restores _ _ _ _ Hbm) in Hsim.
    apply bind_Ok_inv in H as (moves' & s4 & Hrm & H).
    assert (s4 = s3 /\ Forall (built_on (board s)) moves') as [-> Hb'].
    { destruct chk.
      - apply bind_Ok_inv in Hrm as (m' & s5 & Hm' & Hrm).
        unfold read in Hm', Hrm. injection Hm' as Hm' <-.
        injection Hrm as Hrm <-. split; [reflexivity|].
        eapply list_remove_Forall; eauto.
      - unfold ret in Hrm. injection Hrm as <- <-. auto. }
    apply bind_Ok_inv in H as ([] & s5 & Hfl2 & H).
    apply bind_Ok_inv in H as ([] & s6 & Hun & H).
    assert (s6 = s) as ->.
    { unfold bind in Hsim. rewrite Hfl2, Hun in Hsim. congruence. }
    eapply IH; eauto.
Qed.

(** [getValidMoves], when it returns, has changed nothing but the two
    terminal flags, and those as follows. *)
Lemma getValidMoves_Ok_inv s ms s' :
  getValidMoves s = (Ok ms, s') ->
  (ms <> [] /\ s' = set_staleMate false (set_checkMate false s)) \/
  (ms = [] /\ inCheck s = (Ok true, s) /\ s' = set_checkMate true s) \/
  (ms = [] /\ inCheck s = (Ok false, s) /\ s' = set_staleMate true s).
Proof.
  intros H. unfold getValidMoves in H.
  apply bind_Ok_inv in H as (moves & s0 & Hg & H).
  unfold read in Hg. injection Hg as Hg <-.
  apply bind_Ok_inv in H as (moves' & s1 & Hloop & H).
  apply filter_loop_frame in Hloop as [-> _];
    [|now apply getAllPossibleMoves_built].
  apply bind_Ok_inv in H as ([] & s2 & Hflags & H).
  unfold ret in H. injection H as <- <-.
  destruct moves' as [|m moves']; cbn in Hflags.
  - apply bind_Ok_inv in Hflags as (chk & s3 & Hchk & Hflags).
    pose proof (inCheck_Ok _ _ _ Hchk) as ->.
    right. destruct chk; unfold modify in Hflags; injection Hflags as <-; auto.
  - left. split; [discriminate|].
    unfold bind, modify in Hflags. now injection Hflags as <-.
Qed.

(** ** Well-formed boards *)

Lemma on_board_range r c :
  on_board r c = true <-> (0 <= r < 8 /\ 0 <= c < 8).
Proof. unfold on_board. rewrite !andb_true_iff. lia. Qed.

Lemma board_all_rows f b :
  board_all f b = true ->
  length b = 8%nat /\
  forall i row, b !! i = Some row ->
    length row = 8%nat /\
    forall j p, row !! j = Some p -> f p = true.
Proof.
  unfold board_all. rewrite andb_true_iff, Nat.eqb_eq, forallb_forall.
  intros [Hlen Hrows]. split; [exact Hlen|].
  intros i row Hrow.
  assert (In row b) as Hin by (apply list_elem_of_In; eapply list_elem_of_lookup_2, Hrow).
  apply Hrows in Hin.
  rewrite andb_true_iff, Nat.eqb_eq, forallb_forall in Hin.
  destruct Hin as [Hl Hc]. split; [exact Hl|].
  intros j p Hp. apply Hc, list_elem_of_In.
  eapply list_elem_of_lookup_2, Hp.
Qed.

Lemma board_all_intro f b :
  length b = 8%nat ->
  (forall i row, b !! i = Some row ->
     length row = 8%nat /\
     forall j p, row !! j = Some p -> f p = true) ->
  board_all f b = true.
Proof.
  intros Hlen Hrows. unfold board_all.
  apply andb_true_iff. split; [now apply Nat.eqb_eq|].
  apply forallb_forall. intros row Hin.
  apply list_elem_of_In, list_elem_of_lookup in Hin as [i Hi].
  destruct (Hrows i row Hi) as [Hl Hc].
  apply andb_true_iff. split; [now apply Nat.eqb_eq|].
  apply forallb_forall. intros p Hp.
  apply list_elem_of_In, list_elem_of_lookup in Hp as [j Hj]. eauto.
Qed.

Lemma board_all_cell f b p v :
  board_all f b = true -> cell b p = Some v -> f v = true.
Proof.
  intros Hall Hc. destruct (board_all_rows f b Hall) as [_ Hrows].
  unfold cell in Hc. destruct (b !! fst p) as [row|] eqn:Hrow; [|discriminate].
  destruct (Hrows _ _ Hrow) as [_ H]. eauto.
Qed.

Lemma wf_board_rows b :
  wf_board b = true ->
  length b = 8%nat /\
  forall i row, b !! i = Some row ->
    length row = 8%nat /\
    forall j p, row !! j = Some p -> String.length p = 2%nat.
Proof.
  intros H. destruct (board_all_rows _ _ H) as [Hlen Hrows].
  split; [exact Hlen|]. intros i row Hrow.
  destruct (Hrows i row Hrow) as [Hl Hc]. split; [exact Hl|].
  intros j p Hp. apply Nat.eqb_eq. exact (Hc j p Hp).
Qed.

Lemma wf_locate b r c :
  wf_board b = true -> on_board r c = true ->
  locate b r c = Some (Z.to_nat r, Z.to_nat c).
Proof.
  intros Hwf Hrc. apply on_board_range in Hrc as [Hr Hc].
  destruct (wf_board_rows b Hwf) as [Hlen Hrows].
  unfold locate. rewrite norm_index_in_range by lia.
  destruct (lookup_lt_is_Some_2 b (Z.to_nat r)) as [row Hrow]; [lia|].
  rewrite Hrow. destruct (Hrows _ _ Hrow) as [Hl _].
  rewrite norm_index_in_range by lia. reflexivity.
Qed.

Lemma wf_board_get b r c :
  wf_board b = true -> on_board r c = true ->
  exists p, board_get b r c = Ok p /\ String.length p = 2%nat.
Proof.
  intros Hwf Hrc. pose proof (wf_locate b r c Hwf Hrc) as Hloc.
  destruct (locate_cell _ _ _ _ Hloc) as [p Hp].
  exists p. split.
  - apply board_get_Ok. eauto.
  - destruct (wf_board_rows b Hwf) as [_ Hrows].
    unfold cell in Hp. cbn in Hp.
    destruct (b !! Z.to_nat r) as [row|] eqn:Hrow; [|discriminate].
    eapply Hrows; eauto.
Qed.



Lemma wf_Move_init b r c er ec :
  wf_board b = true -> on_board r c = true -> on_board er ec = true ->
  exists m, Move_init (r, c) (er, ec) b = Ok m /\
    startRow m = r /\ startCol m = c /\ endRow m = er /\ endCol m = ec /\
    board_get b r c = Ok (pieceMoved m) /\
    board_get b er ec = Ok (pieceCaptured m).
Proof.
  intros Hwf H1 H2.
  destruct (wf_board_get b r c Hwf H1) as (pm & Hpm & _).
  destruct (wf_board_get b er ec Hwf H2) as (pc & Hpc & _).
  unfold Move_init. cbn. rewrite Hpm, Hpc. cbn.
  eexists. split; [reflexivity|]. cbn. auto 10.
Qed.

(** ** Sliding along a ray *)

Lemma cons_split {A} (x : A) l pre y post :
  x :: l = pre ++ y :: post ->
  (pre = [] /\ y = x /\ post = l) \/
  (exists pre', pre = x :: pre' /\ l = pre' ++ y :: post).
Proof.
  destruct pre as [|z pre']; cbn; intros [= -> ->]; eauto.
Qed.

Lemma destinations_app l1 l2 :
  destinations (l1 ++ l2) = destinations l1 ++ destinations l2.
Proof. apply map_app. Qed.

Section Slide.
Variable s : GameState.
Variables r c : Z.
Variable d : Z * Z.
Variable e : string.
Hypothesis Hwf : wf_board (board s) = true.
Hypothesis Hrc : on_board r c = true.

Lemma slide_spec_gen steps : forall moves,
  exists new,
    slide s e r c d steps moves = Ok (moves ++ new) /\
    forall sq, In sq (destinations new) <-> slide_reaches s e r c d steps sq.
Proof.
  induction steps as [|i steps IH]; intros moves.
  - exists []. cbn. rewrite app_nil_r. split; [reflexivity|].
    intros sq. split; [intros []|].
    intros (pre & i & post & H & _). destruct pre; discriminate.
  - cbn [slide].
    destruct (on_board (r + fst d * i) (c + snd d * i)) eqn:Hon.
    + destruct (wf_board_get _ _ _ Hwf Hon) as (p & Hp & Hlen).
      rewrite Hp. cbn [res_bind].
      destruct (wf_Move_init _ r c _ _ Hwf Hrc Hon)
        as (m & Hm & _ & _ & Her & Hec & _).
      destruct (String.eqb p "--") eqn:Hempty.
      * apply String.eqb_eq in Hempty. subst p.
        unfold append_move at 1. rewrite Hm. cbn [res_bind].
        destruct (IH (moves ++ [m])) as (new & Hnew & Hspec).
        exists (m :: new). split.
        { rewrite Hnew. f_equal. now rewrite <- app_assoc. }
        intros sq. cbn. rewrite Hspec, Her, Hec. split.
        -- intros [<-|(pre & j & post & -> & Hsq & Hb & Hpre & Hend)].
           ++ exists [], i, steps.
              split; [reflexivity|]. split; [reflexivity|].
              split; [exact Hon|]. split; [intros ? []|].
              left. exact Hp.
           ++ exists (i :: pre), j, post.
              split; [reflexivity|]. split; [exact Hsq|].
              split; [exact Hb|]. split; [|exact Hend].
              intros j' [<-|Hj']; [|now apply Hpre].
              split; [exact Hon|exact Hp].
        -- intros (pre & j & post & Hsplit & Hsq & Hb & Hpre & Hend).
           apply cons_split in Hsplit as [(-> & -> & ->)|(pre' & -> & ->)].
           ++ left. now rewrite Hsq.
           ++ right. exists pre', j, post.
              split; [reflexivity|]. split; [exact Hsq|].
              split; [exact Hb|]. split; [|exact Hend].
              intros j' Hj'. apply Hpre. now right.
      * destruct (wf_cell_chars p Hlen) as (a & b & -> & Hk & _).
        rewrite Hk. cbn [res_bind].
        assert (~ empty_at (board s) (ray r c d i)) as Hne.
        { unfold empty_at, ray. cbn. rewrite Hp. intros E.
          assert (String a (String b EmptyString) = "--") as E' by congruence.
          rewrite E', String.eqb_refl in Hempty. discriminate. }
        destruct (String.eqb (String a EmptyString) e) eqn:Hcol.
        -- apply String.eqb_eq in Hcol.
           unfold append_move. rewrite Hm. cbn [res_bind].
           exists [m]. split; [reflexivity|].
           intros sq. cbn. rewrite Her, Hec. split.
           ++ intros [<-|[]]. exists [], i, steps.
              split; [reflexivity|]. split; [reflexivity|].
              split; [exact Hon|]. split; [intros ? []|].
              right. exists (String a (String b EmptyString)).
              split; [exact Hp|]. now rewrite Hk, Hcol.
           ++ intros (pre & j & post & Hsplit & Hsq & Hb & Hpre & Hend).
              apply cons_split in Hsplit as [(-> & -> & ->)|(pre' & -> & ->)].
              ** left. now rewrite Hsq.
              ** exfalso. apply Hne, Hpre. now left.
        -- exists []. rewrite app_nil_r. split; [reflexivity|].
           intros sq. cbn. split; [intros []|].
           intros (pre & j & post & Hsplit & Hsq & Hb & Hpre & Hend).
           apply cons_split in Hsplit as [(-> & -> & ->)|(pre' & -> & ->)].
           ++ subst sq. destruct Hend as [Hend|(p' & Hp' & Hk')];
                [now apply Hne|].
              unfold ray in Hp'. cbn in Hp'. rewrite Hp in Hp'.
              injection Hp' as <-. rewrite Hk in Hk'.
              injection Hk' as Hk'. rewrite Hk', String.eqb_refl in Hcol.
              discriminate.
           ++ apply Hne, Hpre. now left.
    + exists []. rewrite app_nil_r. split; [reflexivity|].
      intros sq. cbn. split; [intros []|].
      intros (pre & j & post & Hsplit & Hsq & Hb & Hpre & Hend).
      apply cons_split in Hsplit as [(-> & -> & ->)|(pre' & -> & ->)].
      * subst sq. unfold ray in Hb. cbn in Hb. congruence.
      * destruct (Hpre i) as [Hb' _]; [now left|].
        unfold ray in Hb'. cbn in Hb'. congruence.
Qed.
End Slide.

Lemma range_1_8_split pre i post :
  range_1_8 = pre ++ i :: post ->
  1 <= i <= 7 /\ forall j, In j pre <-> 1 <= j < i.
Proof.
  unfold range_1_8. intros H.
  do 7 (apply cons_split in H as [(-> & -> & ->)|(pre' & -> & H)];
        [split; [lia|cbn; intros; lia]|rename pre' into pre]).
  destruct pre; discriminate.
Qed.

Lemma range_1_8_at i :
  1 <= i <= 7 ->
  exists pre post, range_1_8 = pre ++ i :: post /\
    forall j, In j pre <-> 1 <= j < i.
Proof.
  intros H.
  assert (i = 1 \/ i = 2 \/ i = 3 \/ i = 4 \/ i = 5 \/ i = 6 \/ i = 7)
    as [->|[->|[->|[->|[->|[->| ->]]]]]] by lia.
  - exists [], [2;3;4;5;6;7]. split; [reflexivity|]. cbn. intros; lia.
  - exists [1], [3;4;5;6;7]. split; [reflexivity|]. cbn. intros; lia.
  - exists [1;2], [4;5;6;7]. split; [reflexivity|]. cbn. intros; lia.
  - exists [1;2;3], [5;6;7]. split; [reflexivity|]. cbn. intros; lia.
  - exists [1;2;3;4], [6;7]. split; [reflexivity|]. cbn. intros; lia.
  - exists [1;2;3;4;5], [7]. split; [reflexivity|]. cbn. intros; lia.
  - exists [1;2;3;4;5;6], []. split; [reflexivity|]. cbn. intros; lia.
Qed.

Lemma in_all_directions d :
  In d all_directions ->
  -1 <= fst d <= 1 /\ -1 <= snd d <= 1 /\ (fst d <> 0 \/ snd d <> 0).
Proof.
  cbn. intros H.
  repeat (destruct H as [<-|H]; [cbn; lia|]). destruct H.
Qed.

(** Between the origin and a square of the ray that is on the board,
    every square of the ray is on the board. *)
Lemma ray_on_board r c d i j :
  In d all_directions -> on_board r c = true ->
  on_board (fst (ray r c d i)) (snd (ray r c d i)) = true ->
  1 <= j < i ->
  on_board (fst (ray r c d j)) (snd (ray r c d j)) = true.
Proof.
  intros Hd Hrc Hi Hj. apply in_all_directions in Hd as (Hd1 & Hd2 & _).
  unfold ray in *. cbn in *. apply on_board_range in Hrc, Hi.
  apply on_board_range. nia.
Qed.

Lemma ray_injective r c d d' i i' :
  In d all_directions -> In d' all_directions ->
  1 <= i -> 1 <= i' -> ray r c d i = ray r c d' i' -> d = d' /\ i = i'.
Proof.
  cbn. intros Hd Hd' Hi Hi' E. unfold ray in E.
  repeat (destruct Hd as [<-|Hd]; [|]); [..|destruct Hd];
  repeat (destruct Hd' as [<-|Hd']; [|]); try (destruct Hd');
  pose proof (f_equal fst E) as E1; pose proof (f_equal snd E) as E2;
  cbn in E1, E2; (split; [f_equal|]; lia).
Qed.

Lemma slide_reaches_range s e r c d sq :
  In d all_directions -> on_board r c = true ->
  slide_reaches s e r c d range_1_8 sq <-> ray_reaches s e r c d sq.
Proof.
  intros Hd Hrc. split.
  - intros (pre & i & post & Hsplit & Hsq & Hb & Hpre & Hend).
    apply range_1_8_split in Hsplit as [Hi Hin].
    exists i. repeat split; try assumption; try lia.
    intros j Hj. now apply Hpre, Hin.
  - intros (i & Hi & Hsq & Hb & Hpre & Hend).
    destruct (range_1_8_at i Hi) as (pre & post & Hsplit & Hin).
    exists pre, i, post. repeat split; try assumption.
    + subst sq. eapply ray_on_board; eauto. now apply Hin.
    + now apply Hpre, Hin.
Qed.

Lemma for_each_slide s e r c ds :
  wf_board (board s) = true -> on_board r c = true ->
  (forall d, In d ds -> In d all_directions) ->
  forall moves, exists new,
    for_each ds (fun d moves => slide s e r c d range_1_8 moves) moves
      = Ok (moves ++ new) /\
    forall sq, In sq (destinations new) <->
      exists d, In d ds /\ ray_reaches s e r c d sq.
Proof.
  intros Hwf Hrc. induction ds as [|d ds IH]; intros Hds moves.
  - exists []. rewrite app_nil_r. split; [reflexivity|].
    intros sq. cbn. split; [intros []|]. now intros (d & [] & _).
  - cbn [for_each].
    destruct (slide_spec_gen s r c d e Hwf Hrc range_1_8 moves)
      as (new1 & H1 & Hspec1).
    rewrite H1. cbn [res_bind].
    destruct (IH (fun d' H => Hds d' (or_intror H)) (moves ++ new1))
      as (new2 & H2 & Hspec2).
    exists (new1 ++ new2). split; [now rewrite H2, app_assoc|].
    intros sq. rewrite destinations_app, in_app_iff, Hspec1, Hspec2.
    rewrite slide_reaches_range by (auto; apply Hds; now left).
    split.
    + intros [H|(d' & Hd' & H)]; [exists d; split; [now left|exact H]|].
      exists d'. split; [now right|exact H].
    + intros (d' & [<-|Hd'] & H); [now left|]. right. eauto.
Qed.

Lemma slider_moves_spec k s r c moves :
  wf_board (board s) = true -> on_board r c = true ->
  exists new,
    slider_moves k s r c moves = Ok (moves ++ new) /\
    forall sq, In sq (destinations new) <->
      exists d, In d (slider_directions k) /\
                ray_reaches s (enemyColor s) r c d sq.
Proof.
  intros Hwf Hrc.
  assert (forall d, In d rook_directions -> In d all_directions) as HR
    by (intros d H; apply in_app_iff; now left).
  assert (forall d, In d bishop_directions -> In d all_directions) as HB
    by (intros d H; apply in_app_iff; now right).
  destruct k; cbn [slider_moves slider_directions].
  - destruct (for_each_slide s (enemyColor s) r c _ Hwf Hrc HR moves)
      as (new & H & Hspec).
    exists new. split; [exact H|exact Hspec].
  - destruct (for_each_slide s (enemyColor s) r c _ Hwf Hrc HB moves)
      as (new & H & Hspec).
    exists new. split; [exact H|exact Hspec].
  - destruct (for_each_slide s (enemyColor s) r c _ Hwf Hrc HR moves)
      as (new1 & H1 & Hspec1).
    destruct (for_each_slide s (enemyColor s) r c _ Hwf Hrc HB (moves ++ new1))
      as (new2 & H2 & Hspec2).
    exists (new1 ++ new2). split.
    + unfold getQueenmoves, getRookmoves, getBishopmoves.
      fold (enemyColor s). rewrite H1. cbn [res_bind].
      rewrite H2. now rewrite app_assoc.
    + intros sq. rewrite destinations_app, !in_app_iff, Hspec1, Hspec2.
      split.
      * intros [(d & Hd & H)|(d & Hd & H)]; exists d;
          (split; [apply in_app_iff; auto|exact H]).
      * intros (d & Hd & H). apply in_app_iff in Hd as [Hd|Hd]; eauto.
Qed.

(** ** Reachable positions are well-formed *)

Lemma board_all_upd f b p v :
  board_all f b = true -> f v = true -> board_all f (upd b p v) = true.
Proof.
  intros Hall Hv. destruct (board_all_rows f b Hall) as [Hlen Hrows].
  apply board_all_intro; [now rewrite upd_length|].
  intros i row Hrow. rewrite upd_lookup_row in Hrow.
  destruct (decide (fst p = i)) as [<-|Hne]; [|now apply (Hrows i)].
  destruct (b !! fst p) as [row0|] eqn:Hrow0; [|discriminate].
  cbn in Hrow. injection Hrow as <-.
  destruct (Hrows _ _ Hrow0) as [Hl Hc].
  split; [now rewrite length_insert|].
  intros j q Hq. destruct (decide (snd p = j)) as [<-|Hne].
  - destruct (decide (snd p < length row0)%nat) as [Hlt|Hge].
    + rewrite list_lookup_insert_eq in Hq by exact Hlt. now injection Hq as <-.
    + rewrite list_insert_ge in Hq by lia. eauto.
  - rewrite list_lookup_insert_ne in Hq by exact Hne. eauto.
Qed.

Lemma wf_cell_length b p v :
  wf_board b = true -> cell b p = Some v -> String.length v = 2%nat.
Proof.
  intros Hwf Hc. apply Nat.eqb_eq. exact (board_all_cell _ _ _ _ Hwf Hc).
Qed.

Lemma getValidMoves_built s ms s' :
  getValidMoves s = (Ok ms, s') -> Forall (built_on (board s)) ms.
Proof.
  intros H. unfold getValidMoves in H.
  apply bind_Ok_inv in H as (moves & s0 & Hg & H).
  unfold read in Hg. injection Hg as Hg <-.
  apply bind_Ok_inv in H as (moves' & s1 & Hloop & H).
  apply filter_loop_frame in Hloop as [-> Hb];
    [|now apply getAllPossibleMoves_built].
  apply bind_Ok_inv in H as ([] & s2 & _ & H).
  unfold ret in H. now injection H as <- _.
Qed.

Lemma getValidMoves_board s ms s' :
  getValidMoves s = (Ok ms, s') -> board s' = board s.
Proof.
  intros H. apply getValidMoves_Ok_inv in H as [[_ ->]|[(_ & _ & ->)|(_ & _ & ->)]];
    reflexivity.
Qed.

Lemma reachable_wf s : reachable s -> wf_board (board s) = true.
Proof.
  induction 1 as [|s ms s1 m s2 Hs IH Hv Hin Hmk]; [reflexivity|].
  pose proof (getValidMoves_board _ _ _ Hv) as Hb.
  pose proof (getValidMoves_built _ _ _ Hv) as Hbuilt.
  rewrite Forall_forall in Hbuilt.
  destruct (Hbuilt m) as (sq1 & sq2 & Hm); [now apply list_elem_of_In|].
  destruct (Move_init_inv _ _ _ _ Hm) as (q1 & q2 & _ & _ & C1 & _).
  apply makeMove_Ok_inv in Hmk as (p1 & p2 & k & _ & _ & _ & ->).
  cbn [board after_move]. rewrite Hb.
  apply board_all_upd; [now apply board_all_upd|].
  apply Nat.eqb_eq. eapply wf_cell_length; eauto.
Qed.

Lemma find_In {A} (f : A -> bool) l x : find f l = Some x -> In x l.
Proof. intros H. now apply find_some in H. Qed.

Lemma play_move_reachable sq s s' :
  reachable s -> play_move sq s = Some s' -> reachable s'.
Proof.
  intros Hs. unfold play_move.
  destruct (getValidMoves s) as [[ms|] s1] eqn:Hv; [|discriminate].
  destruct (find _ ms) as [m|] eqn:Hf; [|discriminate].
  destruct (makeMove m s1) as [[[]|] s2] eqn:Hmk; [|discriminate].
  intros [= <-]. eapply reachable_move; eauto using find_In.
Qed.

Lemma play_reachable game : forall s s',
  reachable s -> play game s = Some s' -> reachable s'.
Proof.
  induction game as [|sq game IH]; intros s s' Hs; cbn.
  - now intros [= <-].
  - destruct (play_move sq s) as [s1|] eqn:E; [|discriminate].
    apply IH. eapply play_move_reachable; eauto.
Qed.

(** ** The pawn generator away from the last rank *)

Lemma getPawnmoves_unfold s r c moves :
  getPawnmoves s r c moves =
  (if whiteToMove s then
     moves <- pawn_steps s r c (r - 1) (r - 2) 6 moves ;;
     moves <- pawn_capture s r c (r - 1) (c - 1) (c - 1 >=? 0) "b" moves ;;
     pawn_capture s r c (r - 1) (c + 1) (c + 1 <=? 7) "b" moves
   else
     moves <- pawn_steps s r c (r + 1) (r + 2) 1 moves ;;
     moves <- pawn_capture s r c (r + 1) (c - 1) (c - 1 >=? 0) "w" moves ;;
     pawn_capture s r c (r + 1) (c + 1) (c + 1 <=? 7) "w" moves)%res.
Proof.
  unfold getPawnmoves, pawn_steps, pawn_capture.
  destruct (whiteToMove s).
  - destruct (board_get (board s) (r - 1) c); reflexivity.
  - destruct (board_get (board s) (r + 1) c); reflexivity.
Qed.

Lemma pawn_steps_spec s r c r1 r2 home moves :
  wf_board (board s) = true -> on_board r c = true ->
  on_board r1 c = true -> (r = home -> on_board r2 c = true) ->
  exists new,
    pawn_steps s r c r1 r2 home moves = Ok (moves ++ new) /\
    forall sq, In sq (destinations new) <->
      (sq = (r1, c) /\ empty_at (board s) (r1, c)) \/
      (sq = (r2, c) /\ r = home /\
       empty_at (board s) (r1, c) /\ empty_at (board s) (r2, c)).
Proof.
  intros Hwf Hrc H1 H2. unfold pawn_steps, empty_at. cbn [fst snd].
  destruct (wf_board_get _ _ _ Hwf H1) as (p1 & Hp1 & _).
  rewrite Hp1. cbn [res_bind].
  destruct (String.eqb p1 "--") eqn:E1.
  - apply String.eqb_eq in E1. subst p1.
    destruct (wf_Move_init _ r c r1 c Hwf Hrc H1)
      as (m1 & Hm1 & _ & _ & Her1 & Hec1 & _).
    unfold append_move at 1. rewrite Hm1. cbn [res_bind].
    destruct (r =? home) eqn:Eh.
    + apply Z.eqb_eq in Eh. specialize (H2 Eh).
      destruct (wf_board_get _ _ _ Hwf H2) as (p2 & Hp2 & _).
      rewrite Hp2. cbn [res_bind].
      destruct (String.eqb p2 "--") eqn:E2.
      * apply String.eqb_eq in E2. subst p2.
        destruct (wf_Move_init _ r c r2 c Hwf Hrc H2)
          as (m2 & Hm2 & _ & _ & Her2 & Hec2 & _).
        unfold append_move. rewrite Hm2. cbn [res_bind].
        exists [m1; m2]. split; [now rewrite <- app_assoc|].
        intros sq. cbn. rewrite Her1, Hec1, Her2, Hec2. intuition.
      * exists [m1]. split; [reflexivity|].
        intros sq. cbn. rewrite Her1, Hec1. split; [intuition|].
        intros [[? _]|(_ & _ & _ & [= E])]; [auto|].
        rewrite E in E2. discriminate.
    + exists [m1]. split; [reflexivity|].
      intros sq. cbn. rewrite Her1, Hec1. split; [intuition|].
      intros [[? _]|(_ & E & _)]; [auto|].
      apply Z.eqb_neq in Eh. contradiction.
  - exists []. rewrite app_nil_r. split; [reflexivity|].
    intros sq. cbn. split; [intros []|].
    intros [[_ [= E]]|(_ & _ & [= E] & _)]; rewrite E in E1; discriminate.
Qed.

Lemma pawn_capture_spec s r c r1 c1 guard color moves :
  wf_board (board s) = true -> on_board r c = true ->
  (guard = true -> on_board r1 c1 = true) ->
  exists new,
    pawn_capture s r c r1 c1 guard color moves = Ok (moves ++ new) /\
    forall sq, In sq (destinations new) <->
      sq = (r1, c1) /\ guard = true /\ color_at (board s) (r1, c1) color.
Proof.
  intros Hwf Hrc Hg. unfold pawn_capture, color_at. cbn [fst snd].
  destruct guard.
  - specialize (Hg eq_refl).
    destruct (wf_board_get _ _ _ Hwf Hg) as (p & Hp & Hlen).
    destruct (wf_cell_chars p Hlen) as (a & b & -> & Hk & _).
    rewrite Hp. cbn [res_bind]. rewrite Hk. cbn [res_bind].
    destruct (String.eqb (String a EmptyString) color) eqn:E.
    + apply String.eqb_eq in E.
      destruct (wf_Move_init _ r c r1 c1 Hwf Hrc Hg)
        as (m & Hm & _ & _ & Her & Hec & _).
      unfold append_move. rewrite Hm. cbn [res_bind].
      exists [m]. split; [reflexivity|].
      intros sq. cbn. rewrite Her, Hec. split.
      * intros [<-|[]]. split; [reflexivity|]. split; [reflexivity|].
        eexists. split; [reflexivity|]. now rewrite Hk, E.
      * intros [-> _]. now left.
    + exists []. rewrite app_nil_r. split; [reflexivity|].
      intros sq. cbn. split; [intros []|].
      intros (_ & _ & p' & [= <-] & Hk'). rewrite Hk in Hk'.
      injection Hk' as Hk'. rewrite Hk', String.eqb_refl in E. discriminate.
  - exists []. rewrite app_nil_r. split; [reflexivity|].
    intros sq. cbn. split; [intros []|]. now intros (_ & [=] & _).
Qed.

(** For a pawn of the side to move that is not on its last rank, on a
    well-formed board: the generator returns; it offers the single step
    exactly when the cell ahead is empty, the double step exactly when
    the pawn is on its starting row and the two cells ahead are empty,
    and a diagonal move exactly when the diagonal cell is on the board
    and holds a piece of the opposite colour. *)
Lemma getPawnmoves_spec s r c moves :
  wf_board (board s) = true ->
  on_board r c = true ->
  on_board (r + forward s) c = true ->
  exists new,
    getPawnmoves s r c moves = Ok (moves ++ new) /\
    (In (r + forward s, c) (destinations new) <->
     empty_at (board s) (r + forward s, c)) /\
    (In (r + 2 * forward s, c) (destinations new) <->
     r = home_row s /\
     empty_at (board s) (r + forward s, c) /\
     empty_at (board s) (r + 2 * forward s, c)) /\
    (forall dc, dc = -1 \/ dc = 1 ->
       (In (r + forward s, c + dc) (destinations new) <->
        on_board (r + forward s) (c + dc) = true /\
        color_at (board s) (r + forward s, c + dc) (enemyColor s))).
Proof.
  intros Hwf Hrc Hfwd. rewrite getPawnmoves_unfold.
  unfold forward, home_row, enemyColor in *.
  pose proof Hrc as Hrc'. pose proof Hfwd as Hfwd'.
  apply on_board_range in Hrc', Hfwd'.
  destruct (whiteToMove s).
  - destruct (pawn_steps_spec s r c (r - 1) (r - 2) 6 moves Hwf Hrc)
      as (l1 & H1 & S1);
      [exact Hfwd|intros E; apply on_board_range; lia|].
    rewrite H1. cbn [res_bind].
    destruct (pawn_capture_spec s r c (r - 1) (c - 1) (c - 1 >=? 0) "b"
                (moves ++ l1) Hwf Hrc) as (l2 & H2 & S2).
    { intros Hg. apply on_board_range. lia. }
    rewrite H2. cbn [res_bind].
    destruct (pawn_capture_spec s r c (r - 1) (c + 1) (c + 1 <=? 7) "b"
                ((moves ++ l1) ++ l2) Hwf Hrc) as (l3 & H3 & S3).
    { intros Hg. apply on_board_range. lia. }
    rewrite H3. exists (l1 ++ l2 ++ l3).
    split; [now rewrite !app_assoc|].
    change (r + -1) with (r - 1) in *.
    change (r + 2 * -1) with (r - 2).
    rewrite !destinations_app, !in_app_iff.
    split; [|split; [|intros dc [-> | ->]]];
      rewrite ?in_app_iff, ?S1, ?S2, ?S3, ?on_board_range, !pair_equal_spec,
        ?Z.geb_le, ?Z.leb_le;
      change (c + -1) with (c - 1); intuition lia.
  - destruct (pawn_steps_spec s r c (r + 1) (r + 2) 1 moves Hwf Hrc)
      as (l1 & H1 & S1);
      [exact Hfwd|intros E; apply on_board_range; lia|].
    rewrite H1. cbn [res_bind].
    destruct (pawn_capture_spec s r c (r + 1) (c - 1) (c - 1 >=? 0) "w"
                (moves ++ l1) Hwf Hrc) as (l2 & H2 & S2).
    { intros Hg. apply on_board_range. lia. }
    rewrite H2. cbn [res_bind].
    destruct (pawn_capture_spec s r c (r + 1) (c + 1) (c + 1 <=? 7) "w"
                ((moves ++ l1) ++ l2) Hwf Hrc) as (l3 & H3 & S3).
    { intros Hg. apply on_board_range. lia. }
    rewrite H3. exists (l1 ++ l2 ++ l3).
    split; [now rewrite !app_assoc|].
    change (r + 2 * 1) with (r + 2).
    rewrite !destinations_app, !in_app_iff.
    split; [|split; [|intros dc [-> | ->]]];
      rewrite ?in_app_iff, ?S1, ?S2, ?S3, ?on_board_range, !pair_equal_spec,
        ?Z.geb_le, ?Z.leb_le;
      change (c + -1) with (c - 1); intuition lia.
Qed.

(** ** Where the engine runs to the end

    On a board of pieces with no pawn on its last rank every generator,
    the scan of the board and the legality filter return. *)

Lemma piece_cell_wf p : piece_cell p = true -> wf_cell p = true.
Proof.
  unfold piece_cell. intros H. apply existsb_exists in H as (x & Hin & E).
  apply String.eqb_eq in E. subst x. cbn in Hin.
  repeat (destruct Hin as [<-|Hin]; [reflexivity|]). destruct Hin.
Qed.

Lemma piece_board_wf b : piece_board b = true -> wf_board b = true.
Proof.
  intros H. destruct (board_all_rows _ _ H) as [Hlen Hrows].
  apply board_all_intro; [exact Hlen|].
  intros i row Hrow. destruct (Hrows i row Hrow) as [Hl Hc].
  split; [exact Hl|]. intros j p Hp. apply piece_cell_wf. eauto.
Qed.

Lemma piece_board_cell b p v :
  piece_board b = true -> cell b p = Some v -> piece_cell v = true.
Proof. apply board_all_cell. Qed.

Lemma piece_board_get b r c :
  piece_board b = true -> on_board r c = true ->
  exists p, board_get b r c = Ok p /\ piece_cell p = true /\
            cell b (Z.to_nat r, Z.to_nat c) = Some p.
Proof.
  intros Hpb Hrc. pose proof (piece_board_wf b Hpb) as Hwf.
  pose proof (wf_locate b r c Hwf Hrc) as Hloc.
  destruct (locate_cell _ _ _ _ Hloc) as [p Hp].
  exists p. split; [apply board_get_Ok; eauto|].
  split; [eapply piece_board_cell; eauto|exact Hp].
Qed.

Lemma for_each_Ok {A B} (l : list A) (body : A -> B -> Res B) acc :
  (forall x acc, In x l -> exists acc', body x acc = Ok acc') ->
  exists r, for_each l body acc = Ok r.
Proof.
  revert acc. induction l as [|x l IH]; intros acc Hbody; cbn.
  - eauto.
  - destruct (Hbody x acc) as [acc' E]; [now left|].
    rewrite E. cbn. apply IH. intros y acc1 Hy. apply Hbody. now right.
Qed.

Lemma step_to_Ok s allyColor r c m moves :
  wf_board (board s) = true -> on_board r c = true ->
  exists res, step_to s allyColor r c m moves = Ok res.
Proof.
  intros Hwf Hrc. unfold step_to.
  destruct (on_board (r + fst m) (c + snd m)) eqn:Hon; [|eauto].
  destruct (wf_board_get _ _ _ Hwf Hon) as (p & Hp & Hlen).
  destruct (wf_cell_chars p Hlen) as (a & b & -> & Hk & _).
  rewrite Hp. cbn [res_bind]. rewrite Hk. cbn [res_bind].
  destruct (negb _); [|eauto].
  destruct (wf_Move_init _ r c _ _ Hwf Hrc Hon) as (mv & Hm & _).
  unfold append_move. rewrite Hm. cbn. eauto.
Qed.

Lemma getKnightmoves_Ok s r c moves :
  wf_board (board s) = true -> on_board r c = true ->
  exists res, getKnightmoves s r c moves = Ok res.
Proof.
  intros Hwf Hrc. unfold getKnightmoves. apply for_each_Ok.
  intros m acc _. now apply step_to_Ok.
Qed.

Lemma getKingmoves_Ok s r c moves :
  wf_board (board s) = true -> on_board r c = true ->
  exists res, getKingmoves s r c moves = Ok res.
Proof.
  intros Hwf Hrc. unfold getKingmoves. apply for_each_Ok.
  intros i acc Hi.
  assert (exists m, py_getitem kingmoves i = Ok m) as [m ->].
  { cbn in Hi. repeat (destruct Hi as [<-|Hi]; [eexists; reflexivity|]).
    destruct Hi. }
  cbn [res_bind]. now apply step_to_Ok.
Qed.

Lemma slider_moves_Ok k s r c moves :
  wf_board (board s) = true -> on_board r c = true ->
  exists res, slider_moves k s r c moves = Ok res.
Proof.
  intros Hwf Hrc.
  destruct (slider_moves_spec k s r c moves Hwf Hrc) as (new & H & _). eauto.
Qed.

Lemma getPawnmoves_Ok s r c moves :
  wf_board (board s) = true -> on_board r c = true ->
  on_board (r + forward s) c = true ->
  exists res, getPawnmoves s r c moves = Ok res.
Proof.
  intros Hwf Hrc Hf.
  destruct (getPawnmoves_spec s r c moves Hwf Hrc Hf) as (new & H & _). eauto.
Qed.

Lemma row_has_false p b i r c :
  row_has p b i = false -> r = Z.of_nat i ->
  cell b (Z.to_nat r, Z.to_nat c) <> Some p.
Proof.
  unfold row_has, cell. intros H -> Hc. cbn in Hc.
  rewrite Nat2Z.id in Hc.
  destruct (b !! i) as [row|]; [|discriminate].
  assert (existsb (String.eqb p) row = true); [|congruence].
  apply existsb_exists. exists p. split; [|apply String.eqb_refl].
  apply list_elem_of_In. eapply list_elem_of_lookup_2, Hc.
Qed.

Lemma in_range_8 x : In x (range 8) -> 0 <= x < 8.
Proof.
  cbn. intros H. repeat (destruct H as [<-|H]; [lia|]). destruct H.
Qed.

Lemma scan_cell_Ok s r c moves :
  piece_board (board s) = true -> on_board r c = true ->
  last_rank_free (board s) (whiteToMove s) = true ->
  exists res, scan_cell s r c moves = Ok res.
Proof.
  intros Hpb Hrc Hfree. pose proof (piece_board_wf _ Hpb) as Hwf.
  destruct (piece_board_get _ _ _ Hpb Hrc) as (p & Hp & Hpc & Hcell).
  pose proof Hrc as Hrange. apply on_board_range in Hrange.
  unfold scan_cell. rewrite Hp. cbn [res_bind].
  unfold piece_cell in Hpc. apply existsb_exists in Hpc as (x & Hin & E).
  apply String.eqb_eq in E. subst x. unfold last_rank_free in Hfree.
  cbn in Hin.
  destruct (whiteToMove s) eqn:Hw;
  repeat (destruct Hin as [<-|Hin];
    [cbn [str_getitem norm_index String.length String.get Z.of_nat
          Z.leb Z.ltb Z.compare Z.to_nat andb orb negb Nat.eqb
          String.eqb Ascii.eqb Bool.eqb res_bind moveFunctions
          Pos.of_succ_nat Pos.succ Z.opp Pos.compare Pos.compare_cont];
     try (eexists; reflexivity);
     first [ apply (slider_moves_Ok Rook); assumption
           | apply (slider_moves_Ok Bishop); assumption
           | apply (slider_moves_Ok Queen); assumption
           | apply getKnightmoves_Ok; assumption
           | apply getKingmoves_Ok; assumption
           | apply getPawnmoves_Ok; [assumption|assumption|] ] |]);
  try (destruct Hin).
  - apply negb_true_iff in Hfree. unfold forward. rewrite Hw.
    apply on_board_range.
    assert (r <> 0); [|lia].
    intros ->. eapply (row_has_false "wp" _ 0%nat 0 c); eauto.
  - apply negb_true_iff in Hfree. unfold forward. rewrite Hw.
    apply on_board_range.
    assert (r <> 7); [|lia].
    intros ->. eapply (row_has_false "bp" _ 7%nat 7 c); eauto.
Qed.

Lemma getAllPossibleMoves_Ok s :
  piece_board (board s) = true ->
  last_rank_free (board s) (whiteToMove s) = true ->
  exists ms, getAllPossibleMoves s = Ok ms.
Proof.
  intros Hpb Hfree. pose proof (piece_board_wf _ Hpb) as Hwf.
  destruct (wf_board_rows _ Hwf) as [Hlen Hrows].
  unfold getAllPossibleMoves. rewrite Hlen. apply for_each_Ok.
  intros r acc Hr. apply in_range_8 in Hr.
  destruct (py_getitem_in_range (board s) r) as (row & Hrow & Hlk); [lia|].
  rewrite Hrow. cbn [res_bind].
  destruct (Hrows _ _ Hlk) as [Hl _]. rewrite Hl. apply for_each_Ok.
  intros c acc' Hc. apply in_range_8 in Hc.
  apply scan_cell_Ok; auto. apply on_board_range. lia.
Qed.

(** ** The legality filter runs to the end *)

Lemma Move_init_pieceMoved r c endSq b m :
  Move_init (r, c) endSq b = Ok m -> board_get b r c = Ok (pieceMoved m).
Proof.
  unfold Move_init. cbn [fst snd]. intros H. res_cases. cbn. reflexivity.
Qed.

Lemma side_cell_of w p turn :
  piece_cell p = true -> str_getitem p 0 = Ok turn ->
  (String.eqb turn "w" && w) || (String.eqb turn "b" && negb w) = true ->
  cell_of w p = true.
Proof.
  unfold piece_cell. intros Hp. apply existsb_exists in Hp as (x & Hin & E).
  apply String.eqb_eq in E. subst x. cbn in Hin.
  repeat (destruct Hin as [<-|Hin];
          [cbn; intros [= <-]; destruct w; cbn; congruence|]).
  destruct Hin.
Qed.

Lemma getAllPossibleMoves_candidates s ms :
  piece_board (board s) = true ->
  getAllPossibleMoves s = Ok ms -> Forall (candidate s) ms.
Proof.
  intros Hpb.
  apply (getAllPossibleMoves_appends s _
           (fun r c => exists p, board_get (board s) r c = Ok p /\
                                 cell_of (whiteToMove s) p = true));
    [| |constructor].
  - intros r c endSq moves res (p & Hp & Hside) HP H.
    unfold append_move in H. res_cases.
    apply Forall_app. split; [exact HP|].
    constructor; [|constructor]. split; [now exists (r, c), endSq|].
    apply Move_init_pieceMoved in E. congruence.
  - intros r c p turn Hp Hturn Hside. exists p. split; [exact Hp|].
    apply board_get_Ok in Hp as (q & _ & Hq).
    eapply side_cell_of; eauto. eapply piece_board_cell; eauto.
Qed.

Lemma row_has_upd p b q v i :
  row_has p (upd b q v) i = true -> row_has p b i = true \/ v = p.
Proof.
  unfold row_has. rewrite upd_lookup_row.
  destruct (decide (fst q = i)) as [<-|Hne]; [|auto].
  destruct (b !! fst q) as [row|]; [|discriminate]. cbn.
  intros H. apply existsb_exists in H as (x & Hin & E).
  apply String.eqb_eq in E. subst x.
  apply list_elem_of_In, list_elem_of_lookup in Hin as [j Hj].
  apply list_lookup_insert_Some in Hj as [(_ & -> & _)|(_ & Hj)]; [now right|].
  left. apply existsb_exists. exists p. split; [|apply String.eqb_refl].
  apply list_elem_of_In. eapply list_elem_of_lookup_2, Hj.
Qed.

Lemma last_rank_free_upd b q v w :
  last_rank_free b w = true ->
  v <> (if w then "wp" else "bp") ->
  last_rank_free (upd b q v) w = true.
Proof.
  unfold last_rank_free. destruct w; rewrite !negb_true_iff; intros H Hv;
    match goal with |- ?x = false => destruct x eqn:E; [|reflexivity] end;
    apply row_has_upd in E as [E|E]; congruence.
Qed.

Lemma cell_of_not_other_pawn w p :
  cell_of w p = true -> p <> (if negb w then "wp" else "bp").
Proof.
  unfold cell_of. intros H ->. destruct w; discriminate.
Qed.

Lemma cell_of_piece w p : cell_of w p = true -> piece_cell p = true.
Proof.
  unfold cell_of. intros H.
  destruct w; apply existsb_exists in H as (x & Hin & E);
    apply String.eqb_eq in E; subst x; cbn in Hin;
    repeat (destruct Hin as [<-|Hin]; [reflexivity|]); destruct Hin.
Qed.

Lemma squareUnderAttack_run r c s oppMoves :
  getAllPossibleMoves (set_whiteToMove (negb (whiteToMove s)) s) = Ok oppMoves ->
  squareUnderAttack r c s =
  (Ok (existsb (fun move => (endRow move =? r) && (endCol move =? c)) oppMoves), s).
Proof.
  intros H. unfold squareUnderAttack, bind, flip_turn, modify, read, ret.
  rewrite H. now rewrite flip_turn_twice.
Qed.

Lemma inCheck_run s :
  piece_board (board s) = true ->
  last_rank_free (board s) (negb (whiteToMove s)) = true ->
  exists chk, inCheck s = (Ok chk, s).
Proof.
  intros Hpb Hfree.
  destruct (getAllPossibleMoves_Ok (set_whiteToMove (negb (whiteToMove s)) s))
    as [opp Hopp]; [exact Hpb|exact Hfree|].
  unfold inCheck.
  rewrite !(squareUnderAttack_run _ _ s opp Hopp).
  destruct (whiteToMove s); eauto.
Qed.

(** One pass of the simulation on a candidate move. *)
Lemma simulate_run s m :
  piece_board (board s) = true ->
  last_rank_free (board s) (negb (whiteToMove s)) = true ->
  candidate s m ->
  exists s1 s2 chk,
    makeMove m s = (Ok tt, s1) /\
    flip_turn s1 = (Ok tt, s2) /\
    inCheck s2 = (Ok chk, s2) /\
    flip_turn s2 = (Ok tt, s1) /\
    undoMove s1 = (Ok tt, s).
Proof.
  intros Hpb Hfree [Hb Hside].
  pose proof Hb as (sq1 & sq2 & Hm).
  destruct (Move_init_inv _ _ _ _ Hm) as (p1 & p2 & L1 & L2 & C1 & C2).
  pose proof (cell_of_piece _ _ Hside) as Hpiece.
  destruct (wf_cell_chars (pieceMoved m)) as (a & b & _ & _ & Hk).
  { apply Nat.eqb_eq. now apply piece_cell_wf. }
  pose proof (makeMove_spec m s p1 p2 _ L1 L2 Hk) as Hmk.
  pose proof (undoMove_after_move m p1 p2 s _ L1 L2 C1 C2 Hk) as Hun.
  set (s1 := after_move m p1 p2 s) in *.
  set (s2 := set_whiteToMove (negb (whiteToMove s1)) s1).
  assert (set_whiteToMove (negb (whiteToMove s2)) s2 = s1) as Hback
    by apply flip_turn_twice.
  assert (exists chk, inCheck s2 = (Ok chk, s2)) as [chk Hchk].
  { apply inCheck_run.
    - subst s2 s1. cbn [board set_whiteToMove after_move].
      apply board_all_upd; [now apply board_all_upd|exact Hpiece].
    - subst s2 s1. cbn [board whiteToMove set_whiteToMove after_move].
      rewrite negb_involutive.
      apply last_rank_free_upd; [apply last_rank_free_upd|].
      + exact Hfree.
      + destruct (negb (whiteToMove s)); discriminate.
      + now apply cell_of_not_other_pawn. }
  exists s1, s2, chk. repeat split; auto.
  unfold flip_turn, modify. now rewrite Hback.
Qed.

Lemma bind_run {A B} (x : M A) (f : A -> M B) s a s1 :
  x s = (Ok a, s1) -> bind x f s = f a s1.
Proof. unfold bind. now intros ->. Qed.

Lemma list_remove_run m l :
  In m l -> exists l', list_remove m l = Ok l' /\ length l = S (length l').
Proof.
  induction l as [|y l IH]; [intros []|]. intros Hin. cbn.
  destruct (Move_eq y m) eqn:E; [eauto|].
  destruct Hin as [->|Hin].
  - unfold Move_eq in E. rewrite Z.eqb_refl in E. discriminate.
  - destruct (IH Hin) as (l' & -> & Hlen). cbn.
    eexists. split; [reflexivity|]. cbn. now rewrite Hlen.
Qed.

Lemma filter_loop_run s :
  piece_board (board s) = true ->
  last_rank_free (board s) (negb (whiteToMove s)) = true ->
  forall n moves,
    (n <= length moves)%nat ->
    Forall (candidate s) moves ->
    exists res, filter_loop n moves s = (Ok res, s).
Proof.
  intros Hpb Hfree. induction n as [|i IH]; intros moves Hlen Hcand.
  - cbn. unfold ret. eauto.
  - cbn [filter_loop].
    destruct (py_getitem_in_range moves (Z.of_nat i)) as (m & Hm & _); [lia|].
    assert (In m moves) as Hin by (eapply py_getitem_In, Hm).
    assert (candidate s m) as Hc.
    { rewrite Forall_forall in Hcand. now apply Hcand, list_elem_of_In. }
    destruct (simulate_run s m Hpb Hfree Hc)
      as (s1 & s2 & chk & Hmk & Hfl & Hchk & Hfl2 & Hun).
    assert (exists moves', (length moves' >= i)%nat /\
              Forall (candidate s) moves' /\
              (if chk
               then (m' <-- read (fun _ => py_getitem moves (Z.of_nat i)) ;;
                     read (fun _ => list_remove m' moves))%gs
               else ret moves) s2 = (Ok moves', s2))
      as (moves' & Hlen' & Hcand' & Hrm).
    { destruct chk.
      - destruct (list_remove_run m moves Hin) as (l' & Hl' & Hlen').
        exists l'. split; [lia|]. split.
        + eapply list_remove_Forall; eauto.
        + unfold bind, read. now rewrite Hm, Hl'.
      - exists moves. split; [lia|]. split; [exact Hcand|reflexivity]. }
    destruct (IH moves' Hlen' Hcand') as [res Hres].
    exists res.
    rewrite (bind_run _ _ s m s) by (unfold read; now rewrite Hm).
    rewrite (bind_run _ _ _ _ _ Hmk), (bind_run _ _ _ _ _ Hfl).
    rewrite (bind_run _ _ _ _ _ Hchk), (bind_run _ _ _ _ _ Hrm).
    rewrite (bind_run _ _ _ _ _ Hfl2), (bind_run _ _ _ _ _ Hun).
    exact Hres.
Qed.

(** On a board of pieces with no pawn of either colour on its last rank,
    [getValidMoves] returns. *)
Lemma getValidMoves_run s :
  piece_board (board s) = true ->
  last_rank_free (board s) true = true ->
  last_rank_free (board s) false = true ->
  exists ms s', getValidMoves s = (Ok ms, s').
Proof.
  intros Hpb Hw Hb.
  assert (forall w, last_rank_free (board s) w = true) as Hfree
    by (intros []; assumption).
  destruct (getAllPossibleMoves_Ok s Hpb (Hfree _)) as [moves Hmoves].
  pose proof (getAllPossibleMoves_candidates s moves Hpb Hmoves) as Hcand.
  destruct (filter_loop_run s Hpb (Hfree _) (length moves) moves
              (Nat.le_refl _) Hcand) as [res Hres].
  destruct (inCheck_run s Hpb (Hfree _)) as [chk Hchk].
  unfold getValidMoves.
  rewrite (bind_run _ _ s moves s) by (unfold read; now rewrite Hmoves).
  rewrite (bind_run _ _ _ _ _ Hres).
  destruct res as [|m res]; cbn [length Nat.eqb].
  - rewrite (bind_run _ _ s tt
               (if chk then set_checkMate true s else set_staleMate true s)).
    + unfold ret. eauto.
    + rewrite (bind_run _ _ _ _ _ Hchk). now destruct chk.
  - unfold bind, modify, ret. eauto.
Qed.

Lemma reachable_piece_board s : reachable s -> piece_board (board s) = true.
Proof.
  induction 1 as [|s ms s1 m s2 Hs IH Hv Hin Hmk]; [reflexivity|].
  pose proof (getValidMoves_board _ _ _ Hv) as Hb.
  pose proof (getValidMoves_built _ _ _ Hv) as Hbuilt.
  rewrite Forall_forall in Hbuilt.
  destruct (Hbuilt m) as (sq1 & sq2 & Hm); [now apply list_elem_of_In|].
  destruct (Move_init_inv _ _ _ _ Hm) as (q1 & q2 & _ & _ & C1 & _).
  apply makeMove_Ok_inv in Hmk as (p1 & p2 & k & _ & _ & _ & ->).
  cbn [board after_move]. rewrite Hb.
  apply board_all_upd; [now apply board_all_upd|].
  eapply piece_board_cell; eauto.
Qed.

(** Away from the last-rank pawns the legality filter is a query: in a
    reachable position with no pawn on its last rank [getValidMoves]
    returns, and board, turn flag, move log and cached king squares are
    what they were. *)
Lemma getValidMoves_frame s :
  reachable s ->
  last_rank_free (board s) true = true ->
  last_rank_free (board s) false = true ->
  exists ms s',
    getValidMoves s = (Ok ms, s') /\
    board s' = board s /\
    whiteToMove s' = whiteToMove s /\
    moveLog s' = moveLog s /\
    whiteKingLocation s' = whiteKingLocation s /\
    blackKingLocation s' = blackKingLocation s.
Proof.
  intros Hs Hw Hb.
  destruct (getValidMoves_run s (reachable_piece_board s Hs) Hw Hb)
    as (ms & s' & H).
  exists ms, s'. split; [exact H|].
  apply getValidMoves_Ok_inv in H
    as [[_ ->]|[(_ & _ & ->)|(_ & _ & ->)]]; cbn; auto.
Qed.

(** * The properties of the specification, C1 to C10 *)

Ltac run := vm_compute; reflexivity.
Ltac run_all := repeat (match goal with |- _ /\ _ => split; [run|] end); run.
Ltac in_list := vm_compute; repeat (first [left; reflexivity | right]).
Ltac played g := apply (play_reachable g init); [apply reachable_init | run].

(** C1 asks that [makeMove] of a king move, besides emptying the origin
    cell, filling the destination cell, logging the move and flipping the
    turn flag, set that colour's cached king square to the destination.
    The code departs from it.  After 1.e4 e5 the king move Ke1-e2 is
    among the valid moves; [makeMove] empties e1, puts the king on e2,
    appends the move to the log and flips the turn flag, but the cached
    white king square is still (7, 4) and not the destination (6, 4):
    the test [move.pieceMoved[1] == 'wK'] compares one character with two
    and never holds. *)
Theorem makeMove_king_move_keeps_stale_cache :
  exists s ms s0 m s',
    play game_open init = Some s /\ reachable s /\
    board s = board_open /\
    getValidMoves s = (Ok ms, s0) /\
    Move_init (7, 4) (6, 4) (board s0) = Ok m /\ In m ms /\
    pieceMoved m = "wK" /\
    makeMove m s0 = (Ok tt, s') /\
    board_get (board s') 7 4 = Ok "--" /\
    board_get (board s') 6 4 = Ok "wK" /\
    moveLog s' = moveLog s0 ++ [m] /\
    whiteToMove s' = negb (whiteToMove s0) /\
    (endRow m, endCol m) = (6, 4) /\
    whiteKingLocation s' = (7, 4).
Proof.
  do 5 eexists.
  split; [run|]. split; [played game_open|]. split; [run|]. split; [run|].
  split; [run|].
  split; [in_list|]. run_all.
Qed.

(** C2 asks that in a reachable position no move returned by
    [getValidMoves] leave the mover's king on a square attacked by a
    pseudo-legal move of the opponent, the king being looked up on the
    board after the move.  The code departs from it.  After 1.e4 d5 2.Ke2
    Bg4+ the list returned by [getValidMoves] contains a2-a3; once that
    move is made, the white king, found on the board at (6, 4), stands on
    a square on which a pseudo-legal move of black ends. *)
Theorem getValidMoves_keeps_move_leaving_king_attacked :
  exists s ms s0 m s',
    play game_bishop_check init = Some s /\ reachable s /\
    board s = board_bishop_check /\
    getValidMoves s = (Ok ms, s0) /\
    Move_init (6, 0) (5, 0) (board s0) = Ok m /\ In m ms /\
    makeMove m s0 = (Ok tt, s') /\
    find_piece "wK" (board s') 0 = Some (6, 4) /\
    attacked s' (6, 4) = Ok true /\
    leaves_king_attacked s' = Ok true.
Proof.
  do 5 eexists.
  split; [run|]. split; [played game_bishop_check|]. split; [run|].
  split; [run|]. split; [run|].
  split; [in_list|]. run_all.
Qed.

(** C3.  For every reachable game state and every move record built on
    its board, [makeMove] followed at once by [undoMove] succeeds and
    restores the board grid, the turn flag and both cached king squares;
    the object as a whole is the one before the call. *)
Theorem makeMove_undoMove_round_trip (s : GameState) (m : Move) :
  reachable s ->
  built_on (board s) m ->
  exists s1 s2,
    makeMove m s = (Ok tt, s1) /\
    undoMove s1 = (Ok tt, s2) /\
    board s2 = board s /\
    whiteToMove s2 = whiteToMove s /\
    whiteKingLocation s2 = whiteKingLocation s /\
    blackKingLocation s2 = blackKingLocation s /\
    s2 = s.
Proof.
  intros Hs Hm.
  assert (String.length (pieceMoved m) = 2%nat) as Hlen.
  { destruct Hm as (sq1 & sq2 & Hm).
    destruct (Move_init_inv _ _ _ _ Hm) as (p1 & _ & _ & _ & C1 & _).
    eapply wf_cell_length; [apply reachable_wf, Hs|exact C1]. }
  destruct (makeMove_undoMove_restores s m Hm Hlen) as (s1 & H1 & H2).
  exists s1, s. auto 10.
Qed.

Lemma makeMove_undoMove_round_trip_witness :
  reachable init /\ built_on (board init) move_e2e4 /\
  exists s1 s2,
    makeMove move_e2e4 init = (Ok tt, s1) /\
    undoMove s1 = (Ok tt, s2) /\
    board s2 = board init /\
    whiteToMove s2 = whiteToMove init /\
    whiteKingLocation s2 = whiteKingLocation init /\
    blackKingLocation s2 = blackKingLocation init /\
    s2 = init.
Proof.
  assert (built_on (board init) move_e2e4) as Hb
    by (exists (6, 4), (4, 4); reflexivity).
  split; [apply reachable_init|]. split; [exact Hb|].
  apply (makeMove_undoMove_round_trip init move_e2e4 reachable_init Hb).
Defined.

(** C4 asks that in every reachable position, pawns on the last rank
    included, [getAllPossibleMoves] and the generators index the board
    within 0..7 only, without failing or wrapping around.  The code
    departs from it.  Both positions below are reached from the start by
    valid moves.  With a black pawn on h1 the pawn generator indexes row
    8: it raises [IndexError], and so do [getAllPossibleMoves] for black
    and [getValidMoves] for white.  With a white pawn on b8 and b1 empty
    the pawn generator reads row -1, that is row 7, and the step from
    (0, 1) to (-1, 1) is among the valid moves; making it puts the pawn on
    b1. *)
Theorem pawn_on_last_rank_leaves_the_board :
  (exists s st,
     play game_black_pawn_h1 init = Some s /\ reachable s /\
     board s = board_black_pawn_h1 /\
     board_get (board s) 7 7 = Ok "bp" /\
     getPawnmoves (set_whiteToMove false s) 7 7 [] = Raise IndexError /\
     getAllPossibleMoves (set_whiteToMove false s) = Raise IndexError /\
     getValidMoves s = (Raise IndexError, st)) /\
  (exists s ms s0 m s',
     play game_white_pawn_b8 init = Some s /\ reachable s /\
     board s = board_white_pawn_b8 /\
     board_get (board s) 0 1 = Ok "wp" /\
     getValidMoves s = (Ok ms, s0) /\
     Move_init (0, 1) (-1, 1) (board s0) = Ok m /\ In m ms /\
     endRow m = -1 /\
     makeMove m s0 = (Ok tt, s') /\
     board_get (board s') 7 1 = Ok "wp").
Proof.
  split.
  - do 2 eexists.
    split; [run|]. split; [played game_black_pawn_h1|]. split; [run|]. run_all.
  - do 5 eexists.
    split; [run|]. split; [played game_white_pawn_b8|]. split; [run|].
    split; [run|]. split; [run|].
    split; [run|]. split; [in_list|]. run_all.
Qed.

(** C5.  In the starting position, white to move, [getValidMoves]
    returns exactly 20 moves: 8 single pawn steps, 8 double pawn steps and
    4 knight moves, in scan order. *)
Theorem getValidMoves_init_twenty_moves :
  exists ms s',
    getValidMoves init = (Ok ms, s') /\
    length ms = 20%nat /\
    length (List.filter is_single_step ms) = 8%nat /\
    length (List.filter is_double_step ms) = 8%nat /\
    length (List.filter is_knight_move ms) = 4%nat /\
    map coords ms =
      [((6,0),(5,0)); ((6,0),(4,0)); ((6,1),(5,1)); ((6,1),(4,1));
       ((6,2),(5,2)); ((6,2),(4,2)); ((6,3),(5,3)); ((6,3),(4,3));
       ((6,4),(5,4)); ((6,4),(4,4)); ((6,5),(5,5)); ((6,5),(4,5));
       ((6,6),(5,6)); ((6,6),(4,6)); ((6,7),(5,7)); ((6,7),(4,7));
       ((7,1),(5,0)); ((7,1),(5,2)); ((7,6),(5,5)); ((7,6),(5,7))].
Proof.
  do 2 eexists. split; [run|]. run_all.
Qed.

(** C6 asks that after [getValidMoves] exactly one of the two terminal
    flags be true when the returned list is empty and none when it is
    not, and that the two flags never be true together.  The code departs
    from it.  In the position reached by [game_two_pawns] the queen moves
    Qf6-e6 and Qf6xe7 are both valid.  Making the first and asking for
    the valid moves gives the empty list and sets [staleMate]; after
    [undoMove], making the second and asking again gives the empty list
    and sets [checkMate] without clearing [staleMate]: both terminal
    flags are true. *)
Theorem terminal_flags_both_true :
  exists s ms s0 m1 m2 sf,
    play game_two_pawns init = Some s /\ reachable s /\
    board s = board_two_pawns /\
    getValidMoves s = (Ok ms, s0) /\
    checkMate s0 = false /\ staleMate s0 = false /\
    Move_init (2, 5) (2, 4) (board s0) = Ok m1 /\ In m1 ms /\
    Move_init (2, 5) (1, 4) (board s0) = Ok m2 /\ In m2 ms /\
    try_two_moves m1 m2 s0 = (Ok ([], []), sf) /\
    checkMate sf = true /\ staleMate sf = true.
Proof.
  do 6 eexists.
  split; [run|]. split; [played game_two_pawns|]. split; [run|]. split; [run|].
  split; [run|]. split; [run|].
  split; [run|]. split; [in_list|].
  split; [run|]. split; [in_list|].
  run_all.
Qed.

(** C7 asks that the pawn generator offer the double step exactly from
    the starting row over two empty cells, and a diagonal move exactly
    when the diagonal target cell holds a piece of the opposite colour.
    The code departs from it on the last rank.  In the position reached
    by [game_knight_c1], white to move, a white pawn stands on b8 and a
    black knight on c1.  The pawn has no diagonal target on the board,
    yet the pawn generator offers the diagonal move from (0, 1) to
    (-1, 2), capturing the knight read from row 7. *)
Theorem pawn_on_last_rank_captures_across_the_board :
  exists s m,
    play game_knight_c1 init = Some s /\ reachable s /\
    board s = board_knight_c1 /\
    whiteToMove s = true /\
    board_get (board s) 0 1 = Ok "wp" /\
    board_get (board s) 7 2 = Ok "bN" /\
    getPawnmoves s 0 1 [] = Ok [m] /\
    coords m = ((0, 1), (-1, 2)) /\
    pieceCaptured m = "bN" /\
    on_board (-1) 2 = false.
Proof.
  do 2 eexists.
  split; [run|]. split; [played game_knight_c1|]. split; [run|]. run_all.
Qed.

(** C8.  On a well-formed board, for the rook, bishop and queen
    generators called at a square of the board: the call returns; every
    destination it adds lies on one of the piece's rays with all squares
    before it empty; no destination lies on a ray beyond that ray's first
    occupied square; and the first occupied square of a ray is a
    destination if and only if it holds a piece of the colour opposite to
    the side to move. *)
Theorem sliders_stop_at_first_occupied (k : slider) (s : GameState)
    (r c : Z) (moves : list Move) :
  wf_board (board s) = true ->
  on_board r c = true ->
  exists new,
    slider_moves k s r c moves = Ok (moves ++ new) /\
    (forall sq, In sq (destinations new) ->
       exists d i,
         In d (slider_directions k) /\ 1 <= i <= 7 /\ sq = ray r c d i /\
         forall j, 1 <= j < i -> empty_at (board s) (ray r c d j)) /\
    (forall d i j,
       In d (slider_directions k) ->
       first_occupied (board s) r c d i ->
       i < j ->
       ~ In (ray r c d j) (destinations new)) /\
    (forall d i,
       In d (slider_directions k) ->
       first_occupied (board s) r c d i ->
       (In (ray r c d i) (destinations new) <->
        color_at (board s) (ray r c d i) (enemyColor s))).
Proof.
  intros Hwf Hrc.
  destruct (slider_moves_spec k s r c moves Hwf Hrc) as (new & Hrun & Hspec).
  assert (forall d, In d (slider_directions k) -> In d all_directions) as Hall.
  { intros d Hd. destruct k; cbn in Hd |- *; tauto. }
  exists new. split; [exact Hrun|]. split; [|split].
  - intros sq Hsq. apply Hspec in Hsq as (d & Hd & i & Hi & -> & _ & Hpre & _).
    exists d, i. auto.
  - intros d i j Hd (Hi & Hon & Hpre & p & Hp & Hocc) Hij Hin.
    apply Hspec in Hin as (d' & Hd' & i' & Hi' & E & _ & Hpre' & _).
    apply ray_injective in E as [-> ->]; auto; try lia.
    specialize (Hpre' i ltac:(lia)). unfold empty_at in Hpre'. congruence.
  - intros d i Hd (Hi & Hon & Hpre & p & Hp & Hocc). rewrite Hspec. split.
    + intros (d' & Hd' & i' & Hi' & E & _ & _ & Hend).
      destruct Hend as [Hend|Hend]; [|exact Hend].
      unfold empty_at in Hend. congruence.
    + intros Hcol. exists d. split; [exact Hd|].
      exists i. auto 10.
Qed.

Lemma sliders_stop_at_first_occupied_witness :
  wf_board (board pos_open) = true /\ on_board 7 5 = true /\
  exists new,
    slider_moves Bishop pos_open 7 5 [] = Ok ([] ++ new) /\
    (forall sq, In sq (destinations new) ->
       exists d i,
         In d (slider_directions Bishop) /\ 1 <= i <= 7 /\
         sq = ray 7 5 d i /\
         forall j, 1 <= j < i -> empty_at (board pos_open) (ray 7 5 d j)) /\
    (forall d i j,
       In d (slider_directions Bishop) ->
       first_occupied (board pos_open) 7 5 d i ->
       i < j ->
       ~ In (ray 7 5 d j) (destinations new)) /\
    (forall d i,
       In d (slider_directions Bishop) ->
       first_occupied (board pos_open) 7 5 d i ->
       (In (ray 7 5 d i) (destinations new) <->
        color_at (board pos_open) (ray 7 5 d i) (enemyColor pos_open))).
Proof.
  split; [reflexivity|]. split; [reflexivity|].
  apply (sliders_stop_at_first_occupied Bishop pos_open 7 5 []); reflexivity.
Defined.

(** C9.  Two move records whose row and column coordinates all lie in
    0..7, built on any two boards, compare equal if and only if their
    origin and destination coordinates are the same; the boards, and so
    the pieces moved and captured, play no part. *)
Theorem Move_eq_iff_coordinates (b1 b2 : Board)
    (sr1 sc1 er1 ec1 sr2 sc2 er2 ec2 : Z) (m1 m2 : Move) :
  0 <= sr1 <= 7 -> 0 <= sc1 <= 7 -> 0 <= er1 <= 7 -> 0 <= ec1 <= 7 ->
  0 <= sr2 <= 7 -> 0 <= sc2 <= 7 -> 0 <= er2 <= 7 -> 0 <= ec2 <= 7 ->
  Move_init (sr1, sc1) (er1, ec1) b1 = Ok m1 ->
  Move_init (sr2, sc2) (er2, ec2) b2 = Ok m2 ->
  (Move_eq m1 m2 = true <->
   sr1 = sr2 /\ sc1 = sc2 /\ er1 = er2 /\ ec1 = ec2).
Proof.
  intros ? ? ? ? ? ? ? ? H1 H2.
  unfold Move_init in H1, H2. cbn [fst snd] in H1, H2. res_cases.
  unfold Move_eq. cbn [moveID]. rewrite Z.eqb_eq. lia.
Qed.

Lemma Move_eq_iff_coordinates_witness :
  0 <= 6 <= 7 /\ 0 <= 4 <= 7 /\
  Move_init (6, 4) (4, 4) (board init) = Ok move_e2e4 /\
  (exists m2, Move_init (6, 4) (4, 4) (board pos_open) = Ok m2 /\
     pieceMoved m2 <> pieceMoved move_e2e4 /\
     (Move_eq move_e2e4 m2 = true <-> 6 = 6 /\ 4 = 4 /\ 4 = 4 /\ 4 = 4)).
Proof.
  split; [lia|]. split; [lia|]. split; [reflexivity|].
  eexists. split; [reflexivity|]. split; [discriminate|].
  apply (Move_eq_iff_coordinates (board init) (board pos_open)
           6 4 4 4 6 4 4 4); try lia; reflexivity.
Defined.

(** C10 asks that in every reachable position a call of
    [getValidMoves] leave the board, the turn flag, both cached king
    squares and the move log as they were at entry.  The code departs
    from it.  In the position reached by [game_black_pawn_a1], white to
    move, [getValidMoves] raises [IndexError] in the middle of the first
    simulation and leaves the object changed: the rook move h1xh7 is
    still on the board, the turn flag is black's and the move log is one
    move longer. *)
Theorem getValidMoves_raise_keeps_simulated_move :
  exists s st,
    play game_black_pawn_a1 init = Some s /\ reachable s /\
    board s = board_black_pawn_a1 /\
    getValidMoves s = (Raise IndexError, st) /\
    board_get (board s) 7 7 = Ok "wR" /\
    board_get (board st) 7 7 = Ok "--" /\
    board_get (board st) 1 7 = Ok "wR" /\
    whiteToMove s = true /\ whiteToMove st = false /\
    length (moveLog st) = S (length (moveLog s)).
Proof.
  do 2 eexists.
  split; [run|]. split; [played game_black_pawn_a1|]. split; [run|]. run_all.
Qed.
(** * Further lemmas on the board and on [makeMove] *)

Lemma cell_upd b p q v :
  cell (upd b p v) q =
  if decide (p = q)
  then match cell b q with Some _ => Some v | None => None end
  else cell b q.
Proof.
  destruct p as [i j], q as [i' j']. unfold cell. cbn [fst snd].
  rewrite upd_lookup_row. cbn [fst snd].
  destruct (decide (i = i')) as [->|Hi].
  - destruct (b !! i') as [row|] eqn:Er; cbn.
    + destruct (decide (j = j')) as [->|Hj].
      * rewrite decide_True by reflexivity.
        destruct (row !! j') eqn:Ec.
        -- apply list_lookup_insert_eq. eapply lookup_lt_Some; eauto.
        -- apply lookup_ge_None. rewrite length_insert.
           now apply lookup_ge_None.
      * rewrite decide_False by congruence.
        now apply list_lookup_insert_ne.
    + now destruct (decide _).
  - rewrite decide_False by congruence. reflexivity.
Qed.

Lemma board_get_upd b p v r c q :
  locate b r c = Some q ->
  board_get (upd b p v) r c = if decide (p = q) then Ok v else board_get b r c.
Proof.
  intros Hq. rewrite !board_get_locate, locate_upd, Hq, cell_upd.
  destruct (locate_cell _ _ _ _ Hq) as [x Hx]. rewrite Hx.
  now destruct (decide _).
Qed.

Lemma str_getitem_1 pm :
  (2 <= String.length pm)%nat -> exists k, str_getitem pm 1 = Ok k.
Proof.
  intros H. destruct pm as [|a [|b rest]]; cbn in H; try lia.
  unfold str_getitem.
  rewrite norm_index_in_range by (cbn [String.length]; lia).
  cbn. eauto.
Qed.

Lemma locate_on_board_inj b r c r' c' :
  wf_board b = true -> on_board r c = true -> on_board r' c' = true ->
  locate b r c = locate b r' c' -> (r, c) = (r', c').
Proof.
  intros Hb H1 H2. rewrite (wf_locate _ _ _ Hb H1), (wf_locate _ _ _ Hb H2).
  apply on_board_range in H1, H2. intros [= E1 E2]. f_equal; lia.
Qed.

Lemma wf_board_upd b p v :
  wf_board b = true -> String.length v = 2%nat -> wf_board (upd b p v) = true.
Proof.
  intros Hb Hv. apply board_all_upd; [exact Hb|].
  unfold wf_cell. now rewrite Hv.
Qed.

Lemma norm_index_None len i :
  ~ (- Z.of_nat len <= i < Z.of_nat len) -> norm_index len i = None.
Proof.
  intros H. unfold norm_index.
  destruct (0 <=? i) eqn:E1, (i <? Z.of_nat len) eqn:E2,
           (- Z.of_nat len <=? i) eqn:E3, (i <? 0) eqn:E4; cbn; try reflexivity;
    exfalso; apply H; lia.
Qed.

Lemma wf_locate_None b r c :
  wf_board b = true ->
  ~ (-8 <= r < 8 /\ -8 <= c < 8) -> locate b r c = None.
Proof.
  intros Hb H. destruct (wf_board_rows _ Hb) as [Hlen Hrows].
  unfold locate. rewrite Hlen.
  destruct (norm_index 8 r) as [i|] eqn:Er; [|reflexivity].
  destruct (b !! i) as [row|] eqn:Erow; [|reflexivity].
  destruct (Hrows _ _ Erow) as [Hrow _]. rewrite Hrow.
  rewrite norm_index_None; [reflexivity|].
  intros Hc. apply H. split; [|exact Hc].
  destruct (Z_le_dec (-8) r); [destruct (Z_lt_dec r 8); [lia|]|];
    rewrite norm_index_None in Er by (cbn; lia); discriminate.
Qed.

(** ** One turn of play, taken apart *)

Lemma getValidMoves_Ok_same s ms s' :
  getValidMoves s = (Ok ms, s') ->
  board s' = board s /\
  whiteToMove s' = whiteToMove s /\
  moveLog s' = moveLog s /\
  whiteKingLocation s' = whiteKingLocation s /\
  blackKingLocation s' = blackKingLocation s.
Proof.
  intros H.
  apply getValidMoves_Ok_inv in H as [[_ ->]|[(_ & _ & ->)|(_ & _ & ->)]];
    repeat split; reflexivity.
Qed.

Lemma reachable_step_inv s ms s1 m s2 :
  reachable s ->
  getValidMoves s = (Ok ms, s1) ->
  In m ms ->
  makeMove m s1 = (Ok tt, s2) ->
  exists p1 p2,
    built_on (board s1) m /\
    String.length (pieceMoved m) = 2%nat /\
    locate (board s1) (startRow m) (startCol m) = Some p1 /\
    locate (board s1) (endRow m) (endCol m) = Some p2 /\
    cell (board s1) p1 = Some (pieceMoved m) /\
    cell (board s1) p2 = Some (pieceCaptured m) /\
    s2 = after_move m p1 p2 s1.
Proof.
  intros Hs Hv Hin Hmk.
  destruct (getValidMoves_Ok_same _ _ _ Hv) as (Hb & _).
  pose proof (getValidMoves_built _ _ _ Hv) as Hbuilt.
  rewrite Forall_forall in Hbuilt.
  pose proof (Hbuilt m ltac:(now apply list_elem_of_In)) as Hm.
  rewrite <- Hb in Hm.
  destruct Hm as (sq1 & sq2 & Hm).
  destruct (Move_init_inv _ _ _ _ Hm) as (q1 & q2 & L1 & L2 & C1 & C2).
  apply makeMove_Ok_inv in Hmk as (p1 & p2 & k & L1' & L2' & _ & ->).
  rewrite L1 in L1'. injection L1' as <-.
  rewrite L2 in L2'. injection L2' as <-.
  exists q1, q2. split; [now exists sq1, sq2|].
  split; [|auto 10].
  eapply wf_cell_length; [|exact C1]. rewrite Hb. now apply reachable_wf.
Qed.

(** ** Taking back the whole log *)

Lemma undo_moves_empty n s :
  moveLog s = [] -> undo_moves n s = (Ok tt, s).
Proof.
  intros H. induction n as [|n IH]; [reflexivity|].
  cbn [undo_moves]. unfold bind at 1.
  assert (undoMove s = (Ok tt, s)) as -> by (unfold undoMove; now rewrite H).
  exact IH.
Qed.

Lemma set_flags_id s :
  set_staleMate (staleMate s) (set_checkMate (checkMate s) s) = s.
Proof. now destruct s. Qed.

Lemma reachable_undo_moves s :
  reachable s ->
  forall n cm sm, (length (moveLog s) <= n)%nat ->
  exists s0,
    undo_moves n (set_staleMate sm (set_checkMate cm s)) = (Ok tt, s0) /\
    board s0 = board init /\
    whiteToMove s0 = true /\
    moveLog s0 = [].
Proof.
  induction 1 as [|s ms s1 m s2 Hs IH Hv Hin Hmk]; intros n cm sm Hn.
  - eexists. split; [now apply undo_moves_empty|]. repeat split.
  - destruct (reachable_step_inv _ _ _ _ _ Hs Hv Hin Hmk)
      as (p1 & p2 & _ & Hlen & L1 & L2 & C1 & C2 & ->).
    destruct (str_getitem_1 (pieceMoved m)) as [k Hk]; [lia|].
    cbn [moveLog after_move] in Hn. rewrite length_app in Hn. cbn in Hn.
    destruct n as [|n]; [lia|].
    cbn [undo_moves].
    assert (set_staleMate sm (set_checkMate cm (after_move m p1 p2 s1)) =
            after_move m p1 p2 (set_staleMate sm (set_checkMate cm s1))) as ->
      by reflexivity.
    rewrite (bind_run _ _ _ _ _
      (undoMove_after_move m p1 p2 (set_staleMate sm (set_checkMate cm s1)) k
         L1 L2 C1 C2 Hk)).
    assert (set_staleMate sm (set_checkMate cm s1) =
            set_staleMate sm (set_checkMate cm s)) as ->.
    { apply getValidMoves_Ok_inv in Hv
        as [[_ ->]|[(_ & _ & ->)|(_ & _ & ->)]]; reflexivity. }
    apply IH.
    destruct (getValidMoves_Ok_same _ _ _ Hv) as (_ & _ & Hl & _).
    rewrite <- Hl. lia.
Qed.

(** ** Counting pieces *)

Lemma count_insert p (row : list string) : forall j v old,
  row !! j = Some old ->
  (length (List.filter (String.eqb p) (<[j := v]> row))
   + (if String.eqb p old then 1 else 0)
   = length (List.filter (String.eqb p) row)
   + (if String.eqb p v then 1 else 0))%nat.
Proof.
  induction row as [|x row IH]; intros [|j] v old H; try discriminate.
  - injection H as ->. cbn.
    destruct (String.eqb p old), (String.eqb p v); cbn; lia.
  - cbn in H. specialize (IH j v old H).
    change (<[S j := v]> (x :: row)) with (x :: <[j := v]> row).
    cbn [List.filter].
    destruct (String.eqb p x); cbn [length]; lia.
Qed.

Lemma count_piece_upd p (b : Board) : forall q v old,
  cell b q = Some old ->
  (count_piece p (upd b q v) + (if String.eqb p old then 1 else 0)
   = count_piece p b + (if String.eqb p v then 1 else 0))%nat.
Proof.
  induction b as [|row b IH]; intros [i j] v old H.
  - discriminate.
  - destruct i as [|i].
    + unfold cell in H. cbn in H.
      pose proof (count_insert p row j v old H) as E.
      change (upd (row :: b) (0%nat, j) v) with (<[j := v]> row :: b).
      unfold count_piece. cbn [fold_right]. lia.
    + unfold cell in H. cbn in H.
      specialize (IH (i, j) v old H).
      change (upd (row :: b) (S i, j) v) with (row :: upd b (i, j) v).
      unfold count_piece in *. cbn [fold_right] in *. lia.
Qed.

Lemma after_move_count p m p1 p2 s :
  p <> "--" ->
  cell (board s) p1 = Some (pieceMoved m) ->
  is_Some (cell (board s) p2) ->
  (count_piece p (board (after_move m p1 p2 s)) <= count_piece p (board s))%nat.
Proof.
  intros Hp C1 [pc C2]. cbn [board after_move].
  pose proof (count_piece_upd p (board s) p1 "--" _ C1) as E1.
  assert (exists old, cell (upd (board s) p1 "--") p2 = Some old) as [old C2'].
  { rewrite cell_upd, C2. destruct (decide _); eauto. }
  pose proof (count_piece_upd p _ p2 (pieceMoved m) _ C2') as E2.
  assert (String.eqb p "--" = false) as N by now apply String.eqb_neq.
  rewrite N in E1.
  destruct (String.eqb p (pieceMoved m)), (String.eqb p old); lia.
Qed.

(** ** The legality filter only removes *)

Lemma list_remove_sublist x l l' : list_remove x l = Ok l' -> sublist l' l.
Proof.
  revert l'. induction l as [|y l IH]; intros l' H; cbn in H; [discriminate|].
  destruct (Move_eq y x).
  - injection H as <-. now apply sublist_cons_r; left.
  - destruct (list_remove x l) as [l''|]; cbn in H; [|discriminate].
    injection H as <-. apply sublist_skip. now apply IH.
Qed.

Lemma filter_loop_sublist n : forall moves s res s',
  filter_loop n moves s = (Ok res, s') -> sublist res moves.
Proof.
  induction n as [|i IH]; intros moves s res s' H; cbn [filter_loop] in H.
  - unfold ret in H. now injection H as <- _.
  - apply bind_Ok_inv in H as (m & s0 & _ & H).
    apply bind_Ok_inv in H as ([] & s1 & _ & H).
    apply bind_Ok_inv in H as ([] & s2 & _ & H).
    apply bind_Ok_inv in H as (chk & s3 & _ & H).
    apply bind_Ok_inv in H as (moves' & s4 & Hrm & H).
    apply bind_Ok_inv in H as ([] & s5 & _ & H).
    apply bind_Ok_inv in H as ([] & s6 & _ & H).
    apply IH in H. etransitivity; [exact H|].
    destruct chk.
    + apply bind_Ok_inv in Hrm as (m' & s7 & _ & Hrm).
      unfold read in Hrm. injection Hrm as Hrm _.
      now apply list_remove_sublist in Hrm.
    + unfold ret in Hrm. now injection Hrm as <- _.
Qed.

Lemma squareUnderAttack_Raise r c s e s' :
  squareUnderAttack r c s = (Raise e, s') ->
  s' = set_whiteToMove (negb (whiteToMove s)) s /\
  getAllPossibleMoves s' = Raise e.
Proof.
  unfold squareUnderAttack, bind, flip_turn, modify, read, ret.
  destruct (getAllPossibleMoves _) as [opp|e'] eqn:E; [discriminate|].
  intros [= <- <-]. auto.
Qed.

(** ** The notation tables *)

Lemma dict_getitem_missing {V} (d : list (Z * V)) k :
  Forall (fun kv => fst kv <> k) d -> dict_getitem Z.eqb d k = Raise KeyError.
Proof.
  intros H. unfold dict_getitem.
  destruct (find _ d) as [kv|] eqn:E; [|reflexivity].
  apply find_some in E as [Hin E]. apply Z.eqb_eq in E.
  rewrite Forall_forall in H. apply list_elem_of_In in Hin.
  now destruct (H _ Hin).
Qed.

Lemma rowsToRanks_literal :
  rowsToRanks = [(7, "1"); (6, "2"); (5, "3"); (4, "4");
                 (3, "5"); (2, "6"); (1, "7"); (0, "8")].
Proof. reflexivity. Qed.

Lemma colsToFiles_literal :
  colsToFiles = [(0, "a"); (1, "b"); (2, "c"); (3, "d");
                 (4, "e"); (5, "f"); (6, "g"); (7, "h")].
Proof. reflexivity. Qed.

Lemma range_8_cases x :
  0 <= x < 8 ->
  x = 0 \/ x = 1 \/ x = 2 \/ x = 3 \/ x = 4 \/ x = 5 \/ x = 6 \/ x = 7.
Proof. lia. Qed.

Lemma colsToFiles_missing c :
  ~ 0 <= c < 8 -> dict_getitem Z.eqb colsToFiles c = Raise KeyError.
Proof.
  intros H. apply dict_getitem_missing. rewrite colsToFiles_literal.
  repeat constructor; cbn; lia.
Qed.

Lemma rowsToRanks_missing r :
  ~ 0 <= r < 8 -> dict_getitem Z.eqb rowsToRanks r = Raise KeyError.
Proof.
  intros H. apply dict_getitem_missing. rewrite rowsToRanks_literal.
  repeat constructor; cbn; lia.
Qed.

Lemma colsToFiles_found c :
  0 <= c < 8 ->
  exists a, dict_getitem Z.eqb colsToFiles c = Ok (String a EmptyString) /\
            dict_getitem String.eqb filesToCols (String a EmptyString) = Ok c.
Proof.
  intros H. apply range_8_cases in H.
  repeat (destruct H as [->|H]); try subst c; eexists; split; reflexivity.
Qed.

Lemma rowsToRanks_found r :
  0 <= r < 8 ->
  exists b, dict_getitem Z.eqb rowsToRanks r = Ok (String b EmptyString) /\
            dict_getitem String.eqb ranksToRows (String b EmptyString) = Ok r.
Proof.
  intros H. apply range_8_cases in H.
  repeat (destruct H as [->|H]); try subst r; eexists; split; reflexivity.
Qed.

Lemma getRankFile_on_board r c :
  on_board r c = true ->
  exists a b,
    getRankFile r c = Ok (String a (String b EmptyString)) /\
    dict_getitem String.eqb filesToCols (String a EmptyString) = Ok c /\
    dict_getitem String.eqb ranksToRows (String b EmptyString) = Ok r.
Proof.
  intros H. apply on_board_range in H as [Hr Hc].
  destruct (colsToFiles_found c Hc) as (a & Ha & Ha').
  destruct (rowsToRanks_found r Hr) as (b & Hb & Hb').
  exists a, b. unfold getRankFile. rewrite Ha, Hb. auto.
Qed.

Lemma getRankFile_off_board r c :
  on_board r c = false -> getRankFile r c = Raise KeyError.
Proof.
  intros H. unfold getRankFile.
  destruct (Z_le_dec 0 c) as [H1|H1]; [destruct (Z_lt_dec c 8) as [H2|H2]|];
    try (rewrite colsToFiles_missing by lia; reflexivity).
  destruct (colsToFiles_found c ltac:(lia)) as (a & -> & _). cbn [res_bind].
  rewrite rowsToRanks_missing; [reflexivity|].
  intros Hr. assert (on_board r c = true) by (apply on_board_range; lia).
  congruence.
Qed.

Lemma getRankFile_Ok_inv r c n :
  getRankFile r c = Ok n ->
  on_board r c = true /\
  exists a b,
    n = String a (String b EmptyString) /\
    dict_getitem String.eqb filesToCols (String a EmptyString) = Ok c /\
    dict_getitem String.eqb ranksToRows (String b EmptyString) = Ok r.
Proof.
  intros H. destruct (on_board r c) eqn:E.
  - split; [reflexivity|].
    destruct (getRankFile_on_board r c E) as (a & b & Hn & Ha & Hb).
    exists a, b. split; [congruence|auto].
  - rewrite getRankFile_off_board in H by exact E. discriminate.
Qed.

(** ** Generators append, whatever list they are handed *)

Lemma appender_ret : appender (fun moves => Ok moves).
Proof. intros moves. cbn. now rewrite app_nil_r. Qed.

Lemma appender_append_move s startSq endSq :
  appender (append_move s startSq endSq).
Proof.
  intros moves. unfold append_move.
  destruct (Move_init _ _ _); reflexivity.
Qed.

Lemma appender_seq g1 g2 :
  appender g1 -> appender g2 ->
  appender (fun moves => (moves' <- g1 moves ;; g2 moves')%res).
Proof.
  intros H1 H2 moves. rewrite (H1 moves).
  destruct (g1 []) as [n1|]; cbn [res_bind]; [|reflexivity].
  rewrite (H2 (moves ++ n1)), (H2 n1).
  destruct (g2 []) as [n2|]; cbn [res_bind]; [|reflexivity].
  now rewrite app_assoc.
Qed.

Lemma appender_bind {A} (x : Res A) (f : A -> list Move -> Res (list Move)) :
  (forall a, x = Ok a -> appender (f a)) ->
  appender (fun moves => (a <- x ;; f a moves)%res).
Proof.
  intros H moves. destruct x as [a|]; cbn [res_bind]; [|reflexivity].
  now apply H.
Qed.

Lemma appender_if (b : bool) g1 g2 :
  (b = true -> appender g1) -> (b = false -> appender g2) ->
  appender (fun moves => if b then g1 moves else g2 moves).
Proof. intros H1 H2. destruct b; auto. Qed.

Lemma appender_ext g1 g2 :
  (forall moves, g1 moves = g2 moves) -> appender g1 -> appender g2.
Proof. intros E H moves. rewrite <- !E. apply H. Qed.

Lemma appender_for_each {A} (l : list A) body :
  (forall x, In x l -> appender (body x)) -> appender (for_each l body).
Proof.
  induction l as [|x l IH]; intros H.
  - apply appender_ret.
  - cbn [for_each]. apply appender_seq.
    + apply H. now left.
    + apply IH. intros y Hy. apply H. now right.
Qed.

Lemma appender_slide s e r c d steps : appender (slide s e r c d steps).
Proof.
  induction steps as [|i steps IH]; [apply appender_ret|].
  cbn [slide]. apply appender_if; intros _; [|apply appender_ret].
  apply appender_bind. intros endpiece _.
  apply appender_if; intros _.
  - apply appender_seq; [apply appender_append_move|exact IH].
  - apply appender_bind. intros k _.
    apply appender_if; intros _;
      [apply appender_append_move|apply appender_ret].
Qed.

Lemma appender_step_to s a r c m : appender (step_to s a r c m).
Proof.
  unfold step_to. apply appender_if; intros _; [|apply appender_ret].
  apply appender_bind. intros endpiece _.
  apply appender_bind. intros k _.
  apply appender_if; intros _;
    [apply appender_append_move|apply appender_ret].
Qed.

Lemma appender_pawn_steps s r c r1 r2 home :
  appender (pawn_steps s r c r1 r2 home).
Proof.
  unfold pawn_steps. apply appender_bind. intros front _.
  apply appender_if; intros _; [|apply appender_ret].
  apply appender_seq; [apply appender_append_move|].
  apply appender_if; intros _; [|apply appender_ret].
  apply appender_bind. intros front2 _.
  apply appender_if; intros _;
    [apply appender_append_move|apply appender_ret].
Qed.

Lemma appender_pawn_capture s r c r1 c1 guard color :
  appender (pawn_capture s r c r1 c1 guard color).
Proof.
  unfold pawn_capture. apply appender_if; intros _; [|apply appender_ret].
  apply appender_bind. intros p _.
  apply appender_bind. intros k _.
  apply appender_if; intros _;
    [apply appender_append_move|apply appender_ret].
Qed.

Lemma appender_getPawnmoves s r c : appender (getPawnmoves s r c).
Proof.
  eapply appender_ext; [intros moves; symmetry; apply getPawnmoves_unfold|].
  apply appender_if; intros _;
    (apply appender_seq; [apply appender_pawn_steps|];
     apply appender_seq; apply appender_pawn_capture).
Qed.

Lemma appender_getRookmoves s r c : appender (getRookmoves s r c).
Proof.
  unfold getRookmoves. apply appender_for_each. intros d _.
  apply appender_slide.
Qed.

Lemma appender_getBishopmoves s r c : appender (getBishopmoves s r c).
Proof.
  unfold getBishopmoves. apply appender_for_each. intros d _.
  apply appender_slide.
Qed.

Lemma appender_getQueenmoves s r c : appender (getQueenmoves s r c).
Proof.
  unfold getQueenmoves.
  apply appender_seq; [apply appender_getRookmoves|apply appender_getBishopmoves].
Qed.

Lemma appender_getKnightmoves s r c : appender (getKnightmoves s r c).
Proof.
  unfold getKnightmoves. apply appender_for_each. intros d _.
  apply appender_step_to.
Qed.

Lemma appender_getKingmoves s r c : appender (getKingmoves s r c).
Proof.
  unfold getKingmoves. apply appender_for_each. intros i _.
  apply appender_bind. intros m _. apply appender_step_to.
Qed.

Lemma appender_moveFunctions piece f s r c :
  moveFunctions piece = Ok f -> appender (f s r c).
Proof.
  unfold moveFunctions. intros H.
  destruct (String.eqb piece "p");
    [injection H as <-; apply appender_getPawnmoves|].
  destruct (String.eqb piece "R");
    [injection H as <-; apply appender_getRookmoves|].
  destruct (String.eqb piece "N");
    [injection H as <-; apply appender_getKnightmoves|].
  destruct (String.eqb piece "B");
    [injection H as <-; apply appender_getBishopmoves|].
  destruct (String.eqb piece "Q");
    [injection H as <-; apply appender_getQueenmoves|].
  destruct (String.eqb piece "K");
    [injection H as <-; apply appender_getKingmoves|].
  discriminate.
Qed.

Lemma appender_scan_cell s r c : appender (scan_cell s r c).
Proof.
  unfold scan_cell. apply appender_bind. intros cell _.
  apply appender_bind. intros turn _.
  apply appender_if; intros _; [|apply appender_ret].
  apply appender_bind. intros cell' _.
  apply appender_bind. intros piece _.
  apply appender_bind. intros f Hf.
  now apply appender_moveFunctions with piece.
Qed.

(** ** Loops taken apart *)

Lemma for_each_app {A B} (l1 l2 : list A) (body : A -> B -> Res B) acc :
  for_each (l1 ++ l2) body acc =
  (acc' <- for_each l1 body acc ;; for_each l2 body acc')%res.
Proof.
  revert acc. induction l1 as [|x l1 IH]; intros acc; [reflexivity|].
  cbn [for_each app]. destruct (body x acc); cbn [res_bind]; auto.
Qed.

Lemma for_each_ext {A B} (l : list A) (body1 body2 : A -> B -> Res B) acc :
  (forall x acc, In x l -> body1 x acc = body2 x acc) ->
  for_each l body1 acc = for_each l body2 acc.
Proof.
  revert acc. induction l as [|x l IH]; intros acc H; [reflexivity|].
  cbn [for_each]. rewrite (H x acc) by now left.
  destruct (body2 x acc); cbn [res_bind]; [|reflexivity].
  apply IH. intros y acc' Hy. apply H. now right.
Qed.

Lemma for_each_map {A A' B} (f : A -> A') (l : list A)
    (body : A' -> B -> Res B) acc :
  for_each (map f l) body acc = for_each l (fun x acc => body (f x) acc) acc.
Proof.
  revert acc. induction l as [|x l IH]; intros acc; [reflexivity|].
  cbn [for_each map]. destruct (body (f x) acc); cbn [res_bind]; auto.
Qed.

Lemma for_each_flat_map {A A' B} (k : A -> list A') (l : list A)
    (body : A' -> B -> Res B) acc :
  for_each (flat_map k l) body acc =
  for_each l (fun x acc => for_each (k x) body acc) acc.
Proof.
  revert acc. induction l as [|x l IH]; intros acc; [reflexivity|].
  cbn [flat_map]. rewrite for_each_app. cbn [for_each].
  destruct (for_each (k x) body acc); cbn [res_bind]; auto.
Qed.

(** On a board of eight rows of eight cells the two nested loops of
    [getAllPossibleMoves] visit the sixty-four squares row by row. *)
Lemma getAllPossibleMoves_squares s :
  wf_board (board s) = true ->
  getAllPossibleMoves s =
  for_each squares (fun sq moves => scan_cell s (fst sq) (snd sq) moves) [].
Proof.
  intros Hb. destruct (wf_board_rows _ Hb) as [Hlen Hrows].
  unfold getAllPossibleMoves, squares. rewrite Hlen, for_each_flat_map.
  apply for_each_ext. intros r acc Hr.
  apply in_range_8 in Hr.
  destruct (py_getitem_in_range (board s) r) as (row & -> & Hrow); [lia|].
  cbn [res_bind]. destruct (Hrows _ _ Hrow) as [-> _].
  now rewrite for_each_map.
Qed.

Lemma in_squares sq : In sq squares <-> on_board (fst sq) (snd sq) = true.
Proof.
  rewrite on_board_range. unfold squares. rewrite in_flat_map. split.
  - intros (r & Hr & H). apply in_map_iff in H as (c & <- & Hc).
    apply in_range_8 in Hr, Hc. cbn. lia.
  - intros [Hr Hc]. destruct sq as [r c]. cbn in Hr, Hc.
    exists r. split.
    + apply range_8_cases in Hr. vm_compute. intuition.
    + apply in_map_iff. exists c. split; [reflexivity|].
      apply range_8_cases in Hc. vm_compute. intuition.
Qed.

Section Collect.
Context {A : Type}.
Variable body : A -> list Move -> Res (list Move).

Lemma for_each_cons_nil x l :
  (forall y, In y (x :: l) -> appender (body y)) ->
  for_each (x :: l) body [] =
  (a <- body x [] ;; b <- for_each l body [] ;; Ok (a ++ b))%res.
Proof.
  intros H. cbn [for_each].
  destruct (body x []) as [a|]; cbn [res_bind]; [|reflexivity].
  apply appender_for_each. intros y Hy. apply H. now right.
Qed.

Lemma for_each_nil_Ok l res :
  (forall y, In y l -> appender (body y)) ->
  for_each l body [] = Ok res ->
  (forall x, In x l -> exists new, body x [] = Ok new) /\
  (forall m, In m res <->
     exists x new, In x l /\ body x [] = Ok new /\ In m new).
Proof.
  revert res. induction l as [|x l IH]; intros res Happ H.
  - injection H as <-. split; [intros x []|].
    intros m. split; [intros []|intros (x & _ & [] & _)].
  - rewrite for_each_cons_nil in H by exact Happ.
    destruct (body x []) as [a|] eqn:Ea; cbn [res_bind] in H; [|discriminate].
    destruct (for_each l body []) as [b|] eqn:Eb; cbn [res_bind] in H;
      [|discriminate].
    injection H as <-.
    destruct (IH b) as [IH1 IH2];
      [intros y Hy; apply Happ; now right|reflexivity|].
    split.
    + intros y [<-|Hy]; eauto.
    + intros m. rewrite in_app_iff, IH2. split.
      * intros [Hm|(y & new & Hy & E & Hm)].
        -- exists x, a. split; [now left|auto].
        -- exists y, new. split; [now right|auto].
      * intros (y & new & [<-|Hy] & E & Hm).
        -- left. congruence.
        -- right. eauto.
Qed.

Lemma for_each_nil_Raise l e :
  (forall y, In y l -> appender (body y)) ->
  (forall y, In y l ->
     (exists new, body y [] = Ok new) \/ body y [] = Raise e) ->
  (exists x, In x l /\ body x [] = Raise e) ->
  for_each l body [] = Raise e.
Proof.
  induction l as [|x l IH]; intros Happ Hall (z & Hz & Ez); [destruct Hz|].
  rewrite for_each_cons_nil by exact Happ.
  destruct (Hall x ltac:(now left)) as [[new Hn]|Hr];
    [rewrite Hn|now rewrite Hr].
  cbn [res_bind]. destruct Hz as [->|Hz]; [congruence|].
  rewrite IH; [reflexivity| | |eauto].
  - intros y Hy. apply Happ. now right.
  - intros y Hy. apply Hall. now right.
Qed.

Lemma for_each_nil_all_Ok l :
  (forall y, In y l -> appender (body y)) ->
  (forall y, In y l -> exists new, body y [] = Ok new) ->
  exists res, for_each l body [] = Ok res.
Proof.
  intros Happ Hok. apply for_each_Ok. intros y acc Hy.
  destruct (Hok y Hy) as [new Hnew].
  rewrite (Happ y Hy acc), Hnew. cbn. eauto.
Qed.
End Collect.

(** ** Reading the board with negative positions *)

Lemma norm_index_wrap len i :
  - Z.of_nat len <= i < Z.of_nat len ->
  exists n, norm_index len i = Some n /\ (n < len)%nat.
Proof.
  intros H. destruct (norm_index len i) as [n|] eqn:E.
  - exists n. split; [reflexivity|]. eapply norm_index_lt, E.
  - unfold norm_index in E.
    destruct (0 <=? i) eqn:E1, (i <? Z.of_nat len) eqn:E2,
             (- Z.of_nat len <=? i) eqn:E3, (i <? 0) eqn:E4;
      cbn in E; try discriminate; lia.
Qed.

Lemma wf_locate_wrap b r c :
  wf_board b = true -> -8 <= r < 8 -> -8 <= c < 8 ->
  exists q p, locate b r c = Some q /\ cell b q = Some p /\
              String.length p = 2%nat.
Proof.
  intros Hb Hr Hc. destruct (wf_board_rows _ Hb) as [Hlen Hrows].
  destruct (norm_index_wrap 8 r Hr) as (i & Hi & Hi8).
  destruct (norm_index_wrap 8 c Hc) as (j & Hj & Hj8).
  destruct (lookup_lt_is_Some_2 b i) as [row Hrow]; [lia|].
  destruct (Hrows _ _ Hrow) as [Hrl Hcells].
  destruct (lookup_lt_is_Some_2 row j) as [p Hp]; [lia|].
  exists (i, j), p. unfold locate, cell. cbn [fst snd].
  rewrite Hlen, Hi, Hrow, Hrl, Hj, Hp. eauto.
Qed.

Lemma wf_board_get_wrap b r c :
  wf_board b = true -> -8 <= r < 8 -> -8 <= c < 8 ->
  exists p, board_get b r c = Ok p /\ String.length p = 2%nat.
Proof.
  intros Hb Hr Hc.
  destruct (wf_locate_wrap b r c Hb Hr Hc) as (q & p & L & C & Hp).
  exists p. split; [|exact Hp]. apply board_get_Ok. eauto.
Qed.

Lemma wf_append_move_wrap s r c er ec moves :
  wf_board (board s) = true ->
  -8 <= r < 8 -> -8 <= c < 8 -> -8 <= er < 8 -> -8 <= ec < 8 ->
  exists m, append_move s (r, c) (er, ec) moves = Ok (moves ++ [m]).
Proof.
  intros Hb Hr Hc Her Hec.
  destruct (wf_board_get_wrap _ r c Hb Hr Hc) as (pm & Hpm & _).
  destruct (wf_board_get_wrap _ er ec Hb Her Hec) as (pc & Hpc & _).
  unfold append_move, Move_init. cbn [fst snd]. rewrite Hpm, Hpc. cbn. eauto.
Qed.

Lemma str_getitem_0 p :
  String.length p = 2%nat -> exists k, str_getitem p 0 = Ok k.
Proof.
  intros H. destruct (wf_cell_chars p H) as (a & b & _ & H0 & _). eauto.
Qed.

Lemma pawn_steps_Ok s r c r1 r2 home moves :
  wf_board (board s) = true ->
  0 <= r < 8 -> 0 <= c < 8 -> -8 <= r1 < 8 -> (r = home -> -8 <= r2 < 8) ->
  exists res, pawn_steps s r c r1 r2 home moves = Ok res.
Proof.
  intros Hb Hr Hc H1 H2. unfold pawn_steps.
  destruct (wf_board_get_wrap _ r1 c Hb) as (front & -> & _); [lia|lia|].
  cbn [res_bind]. destruct (String.eqb front "--"); [|eauto].
  destruct (wf_append_move_wrap s r c r1 c moves Hb) as (m & ->); try lia.
  cbn [res_bind]. destruct (Z.eqb_spec r home) as [E|E]; [|eauto].
  destruct (wf_board_get_wrap _ r2 c Hb) as (front2 & -> & _); [lia|lia|].
  cbn [res_bind]. destruct (String.eqb front2 "--"); [|eauto].
  destruct (wf_append_move_wrap s r c r2 c (moves ++ [m]) Hb) as (m2 & ->);
    try lia; eauto.
Qed.

Lemma pawn_capture_Ok s r c r1 c1 guard color moves :
  wf_board (board s) = true ->
  0 <= r < 8 -> 0 <= c < 8 -> -8 <= r1 < 8 ->
  (guard = true -> -8 <= c1 < 8) ->
  exists res, pawn_capture s r c r1 c1 guard color moves = Ok res.
Proof.
  intros Hb Hr Hc H1 H2. unfold pawn_capture.
  destruct guard; [|eauto]. specialize (H2 eq_refl).
  destruct (wf_board_get_wrap _ r1 c1 Hb) as (p & -> & Hp); [lia|lia|].
  cbn [res_bind]. destruct (str_getitem_0 p Hp) as [k ->]. cbn [res_bind].
  destruct (String.eqb k color); [|eauto].
  destruct (wf_append_move_wrap s r c r1 c1 moves Hb) as (m & ->);
    try lia; eauto.
Qed.

(** The pawn generator returns except for a black pawn on row 7: a white
    pawn on row 0 reads row -1, which is row 7. *)
Lemma getPawnmoves_Ok_wrap s r c moves :
  wf_board (board s) = true ->
  0 <= r < 8 -> 0 <= c < 8 ->
  (whiteToMove s = false -> r <> 7) ->
  exists res, getPawnmoves s r c moves = Ok res.
Proof.
  intros Hb Hr Hc Hlast. rewrite getPawnmoves_unfold.
  destruct (whiteToMove s).
  - destruct (pawn_steps_Ok s r c (r - 1) (r - 2) 6 moves Hb) as [m1 ->];
      try lia.
    cbn [res_bind].
    destruct (pawn_capture_Ok s r c (r - 1) (c - 1) (c - 1 >=? 0) "b" m1 Hb)
      as [m2 ->]; try lia.
    cbn [res_bind].
    apply pawn_capture_Ok; try assumption; lia.
  - specialize (Hlast eq_refl).
    destruct (pawn_steps_Ok s r c (r + 1) (r + 2) 1 moves Hb) as [m1 ->];
      try lia.
    cbn [res_bind].
    destruct (pawn_capture_Ok s r c (r + 1) (c - 1) (c - 1 >=? 0) "w" m1 Hb)
      as [m2 ->]; try lia.
    cbn [res_bind].
    apply pawn_capture_Ok; try assumption; lia.
Qed.

Lemma getPawnmoves_black_row_7 s c moves :
  wf_board (board s) = true -> whiteToMove s = false ->
  getPawnmoves s 7 c moves = Raise IndexError.
Proof.
  intros Hb Hw. unfold getPawnmoves. rewrite Hw.
  assert (board_get (board s) (7 + 1) c = Raise IndexError) as ->; [|reflexivity].
  rewrite board_get_locate, wf_locate_None; [reflexivity|exact Hb|lia].
Qed.

(** ** Where the scan of the board stops *)

Ltac dispatch_cell :=
  cbn [str_getitem norm_index String.length String.get Z.of_nat
       Z.leb Z.ltb Z.compare Z.to_nat andb orb negb Nat.eqb
       String.eqb Ascii.eqb Bool.eqb res_bind moveFunctions
       Pos.of_succ_nat Pos.succ Z.opp Pos.compare Pos.compare_cont].

Lemma scan_cell_total s r c :
  piece_board (board s) = true -> on_board r c = true ->
  (whiteToMove s = false /\ r = 7 /\ board_get (board s) r c = Ok "bp" /\
   scan_cell s r c [] = Raise IndexError) \/
  (~ (whiteToMove s = false /\ r = 7 /\ board_get (board s) r c = Ok "bp") /\
   exists new, scan_cell s r c [] = Ok new).
Proof.
  intros Hpb Hrc. pose proof (piece_board_wf _ Hpb) as Hwf.
  destruct (piece_board_get _ _ _ Hpb Hrc) as (p & Hp & Hpc & Hcell).
  pose proof Hrc as Hrange. apply on_board_range in Hrange as [Hr Hc].
  unfold scan_cell. rewrite Hp. cbn [res_bind].
  unfold piece_cell in Hpc. apply existsb_exists in Hpc as (x & Hin & E).
  apply String.eqb_eq in E. subst x. cbn in Hin.
  destruct (whiteToMove s) eqn:Hw;
  repeat (destruct Hin as [<-|Hin];
    [dispatch_cell;
     try (right; split; [intros (? & ? & ?); congruence|];
          first [ eexists; reflexivity
                | apply (slider_moves_Ok Rook); assumption
                | apply (slider_moves_Ok Bishop); assumption
                | apply (slider_moves_Ok Queen); assumption
                | apply getKnightmoves_Ok; assumption
                | apply getKingmoves_Ok; assumption
                | apply getPawnmoves_Ok_wrap; [assumption|assumption|assumption|congruence] ]) |]);
  try (destruct Hin).
  destruct (Z.eq_dec r 7) as [->|Hr7].
  - left. repeat split. now apply getPawnmoves_black_row_7.
  - right. split; [intros (_ & ? & _); contradiction|].
    apply getPawnmoves_Ok_wrap; try assumption. intros _. exact Hr7.
Qed.

(** ** What every appended record looks like *)

Section Guarded.
Variable s : GameState.
Variables r c : Z.
Variable pawn : bool.

Lemma append_guarded er ec p k moves res :
  board_get (board s) er ec = Ok p ->
  str_getitem p 0 = Ok k ->
  k <> allyColor s ->
  on_board er ec = true \/
  (pawn = true /\ er = r + forward s /\ 0 <= ec < 8) ->
  Forall (guarded s r c pawn) moves ->
  append_move s (r, c) (er, ec) moves = Ok res ->
  Forall (guarded s r c pawn) res.
Proof.
  intros Hp Hk Hne Hgeo HP H. unfold append_move, Move_init in H.
  cbn [fst snd] in H. rewrite Hp in H.
  destruct (board_get (board s) r c) as [pm|] eqn:Epm; cbn [res_bind] in H;
    [|discriminate].
  injection H as <-. apply Forall_app. split; [exact HP|].
  constructor; [|constructor].
  unfold guarded. cbn. eauto 10.
Qed.

Lemma append_guarded_empty er ec p moves res :
  board_get (board s) er ec = Ok p ->
  String.eqb p "--" = true ->
  on_board er ec = true \/
  (pawn = true /\ er = r + forward s /\ 0 <= ec < 8) ->
  Forall (guarded s r c pawn) moves ->
  append_move s (r, c) (er, ec) moves = Ok res ->
  Forall (guarded s r c pawn) res.
Proof.
  intros Hp E. apply String.eqb_eq in E. subst p.
  apply (append_guarded er ec "--" "-"); [exact Hp|reflexivity|].
  unfold allyColor. now destruct (whiteToMove s).
Qed.

Lemma slide_guarded d steps : forall moves res,
  Forall (guarded s r c pawn) moves ->
  slide s (enemyColor s) r c d steps moves = Ok res ->
  Forall (guarded s r c pawn) res.
Proof.
  induction steps as [|i steps IH]; intros moves res HP H; cbn [slide] in H.
  - now injection H as <-.
  - destruct (on_board _ _) eqn:Eon; [|now injection H as <-].
    destruct (board_get _ _ _) as [endpiece|] eqn:Ep; cbn [res_bind] in H;
      [|discriminate].
    destruct (String.eqb endpiece "--") eqn:Ee.
    + destruct (append_move _ _ _ _) as [moves'|] eqn:Ea; cbn [res_bind] in H;
        [|discriminate].
      apply IH in H; [exact H|].
      eapply append_guarded_empty; eauto.
    + destruct (str_getitem endpiece 0) as [k|] eqn:Ek; cbn [res_bind] in H;
        [|discriminate].
      destruct (String.eqb k (enemyColor s)) eqn:Ec; [|now injection H as <-].
      apply String.eqb_eq in Ec.
      eapply append_guarded; eauto.
      rewrite Ec. unfold enemyColor, allyColor. now destruct (whiteToMove s).
Qed.

Lemma step_to_guarded m moves res :
  Forall (guarded s r c pawn) moves ->
  step_to s (allyColor s) r c m moves = Ok res ->
  Forall (guarded s r c pawn) res.
Proof.
  intros HP H. unfold step_to in H.
  destruct (on_board _ _) eqn:Eon; [|now injection H as <-].
  destruct (board_get _ _ _) as [endpiece|] eqn:Ep; cbn [res_bind] in H;
    [|discriminate].
  destruct (str_getitem endpiece 0) as [k|] eqn:Ek; cbn [res_bind] in H;
    [|discriminate].
  destruct (String.eqb k (allyColor s)) eqn:Ec; cbn [negb] in H;
    [now injection H as <-|].
  apply String.eqb_neq in Ec. eapply append_guarded; eauto.
Qed.

Lemma pawn_steps_guarded home moves res :
  pawn = true ->
  0 <= c < 8 ->
  (r = home -> on_board (r + 2 * forward s) c = true) ->
  Forall (guarded s r c pawn) moves ->
  pawn_steps s r c (r + forward s) (r + 2 * forward s) home moves = Ok res ->
  Forall (guarded s r c pawn) res.
Proof.
  intros Hpawn Hc Hhome HP H. unfold pawn_steps in H.
  destruct (board_get _ (r + forward s) c) as [front|] eqn:E1;
    cbn [res_bind] in H; [|discriminate].
  destruct (String.eqb front "--") eqn:Ee1; [|now injection H as <-].
  destruct (append_move _ _ _ _) as [moves'|] eqn:Ea; cbn [res_bind] in H;
    [|discriminate].
  eapply append_guarded_empty in Ea; eauto.
  destruct (Z.eqb_spec r home) as [Eh|Eh]; [|now injection H as <-].
  destruct (board_get _ (r + 2 * forward s) c) as [front2|] eqn:E2;
    cbn [res_bind] in H; [|discriminate].
  destruct (String.eqb front2 "--") eqn:Ee2; [|now injection H as <-].
  eapply append_guarded_empty; eauto.
Qed.

Lemma pawn_capture_guarded c1 guard moves res :
  pawn = true ->
  (guard = true -> 0 <= c1 < 8) ->
  Forall (guarded s r c pawn) moves ->
  pawn_capture s r c (r + forward s) c1 guard (enemyColor s) moves = Ok res ->
  Forall (guarded s r c pawn) res.
Proof.
  intros Hpawn Hg HP H. unfold pawn_capture in H.
  destruct guard; [|now injection H as <-]. specialize (Hg eq_refl).
  destruct (board_get _ _ _) as [p|] eqn:Ep; cbn [res_bind] in H;
    [|discriminate].
  destruct (str_getitem p 0) as [k|] eqn:Ek; cbn [res_bind] in H;
    [|discriminate].
  destruct (String.eqb k (enemyColor s)) eqn:Ec; [|now injection H as <-].
  apply String.eqb_eq in Ec.
  eapply append_guarded; eauto.
  rewrite Ec. unfold enemyColor, allyColor. now destruct (whiteToMove s).
Qed.

Lemma getPawnmoves_guarded moves res :
  pawn = true ->
  on_board r c = true ->
  Forall (guarded s r c pawn) moves ->
  getPawnmoves s r c moves = Ok res ->
  Forall (guarded s r c pawn) res.
Proof.
  intros Hpawn Hrc HP H. apply on_board_range in Hrc as [Hr Hc].
  rewrite getPawnmoves_unfold in H.
  assert (forall home,
    (whiteToMove s = true -> home = 6) ->
    (whiteToMove s = false -> home = 1) ->
    (moves <- pawn_steps s r c (r + forward s) (r + 2 * forward s) home moves ;;
     moves <- pawn_capture s r c (r + forward s) (c - 1) (c - 1 >=? 0)
                (enemyColor s) moves ;;
     pawn_capture s r c (r + forward s) (c + 1) (c + 1 <=? 7)
       (enemyColor s) moves)%res = Ok res ->
    Forall (guarded s r c pawn) res) as Main.
  { intros home Hw Hb H0. clear H.
    destruct (pawn_steps _ _ _ _ _ _ _) as [m1|] eqn:E1; cbn [res_bind] in H0;
      [|discriminate].
    apply pawn_steps_guarded in E1; [|exact Hpawn|exact Hc| |exact HP].
    2:{ intros ->. apply on_board_range. unfold forward.
        destruct (whiteToMove s); [rewrite Hw|rewrite Hb]; auto; lia. }
    destruct (pawn_capture _ _ _ _ _ _ _ m1) as [m2|] eqn:E2;
      cbn [res_bind] in H0; [|discriminate].
    apply pawn_capture_guarded in E2; [|exact Hpawn|lia|exact E1].
    apply pawn_capture_guarded in H0; [exact H0|exact Hpawn|lia|exact E2]. }
  unfold forward, enemyColor in Main.
  destruct (whiteToMove s).
  - apply (Main 6); [reflexivity|discriminate|].
    replace (r + -1) with (r - 1) by lia.
    replace (r + 2 * -1) with (r - 2) by lia. exact H.
  - apply (Main 1); [discriminate|reflexivity|].
    replace (r + 2 * 1) with (r + 2) by lia. exact H.
Qed.

Lemma getRookmoves_guarded moves res :
  Forall (guarded s r c pawn) moves -> getRookmoves s r c moves = Ok res ->
  Forall (guarded s r c pawn) res.
Proof.
  intros HP. unfold getRookmoves. apply for_each_invariant; [|exact HP].
  intros d acc acc' Hacc. now apply slide_guarded.
Qed.

Lemma getBishopmoves_guarded moves res :
  Forall (guarded s r c pawn) moves -> getBishopmoves s r c moves = Ok res ->
  Forall (guarded s r c pawn) res.
Proof.
  intros HP. unfold getBishopmoves. apply for_each_invariant; [|exact HP].
  intros d acc acc' Hacc. now apply slide_guarded.
Qed.

Lemma getQueenmoves_guarded moves res :
  Forall (guarded s r c pawn) moves -> getQueenmoves s r c moves = Ok res ->
  Forall (guarded s r c pawn) res.
Proof.
  intros HP H. unfold getQueenmoves in H.
  destruct (getRookmoves s r c moves) as [m1|] eqn:E; cbn [res_bind] in H;
    [|discriminate].
  eapply getBishopmoves_guarded; [|exact H].
  eapply getRookmoves_guarded; eauto.
Qed.

Lemma getKnightmoves_guarded moves res :
  Forall (guarded s r c pawn) moves -> getKnightmoves s r c moves = Ok res ->
  Forall (guarded s r c pawn) res.
Proof.
  intros HP. unfold getKnightmoves. apply for_each_invariant; [|exact HP].
  intros d acc acc' Hacc. now apply step_to_guarded.
Qed.

Lemma getKingmoves_guarded moves res :
  Forall (guarded s r c pawn) moves -> getKingmoves s r c moves = Ok res ->
  Forall (guarded s r c pawn) res.
Proof.
  intros HP. unfold getKingmoves. apply for_each_invariant; [|exact HP].
  intros i acc acc' Hacc H.
  destruct (py_getitem kingmoves i) as [m|]; cbn [res_bind] in H;
    [|discriminate].
  now apply step_to_guarded in H.
Qed.

End Guarded.

Lemma scan_cell_guarded s r c res :
  on_board r c = true ->
  scan_cell s r c [] = Ok res ->
  res = [] \/
  exists cell piece,
    board_get (board s) r c = Ok cell /\
    str_getitem cell 0 = Ok (allyColor s) /\
    str_getitem cell 1 = Ok piece /\
    Forall (guarded s r c (String.eqb piece "p")) res.
Proof.
  intros Hrc H. unfold scan_cell in H.
  destruct (board_get (board s) r c) as [cell|] eqn:Ecell; cbn [res_bind] in H;
    [|discriminate].
  destruct (str_getitem cell 0) as [turn|] eqn:Eturn; cbn [res_bind] in H;
    [|discriminate].
  destruct ((String.eqb turn "w" && whiteToMove s)
            || (String.eqb turn "b" && negb (whiteToMove s))) eqn:Eg.
  2:{ injection H as <-. now left. }
  right.
  destruct (str_getitem cell 1) as [piece|] eqn:Epiece; cbn [res_bind] in H;
    [|discriminate].
  exists cell, piece. split; [reflexivity|]. split.
  { rewrite Eturn. f_equal. unfold allyColor.
    destruct (whiteToMove s); cbn in Eg;
      rewrite ?andb_true_r, ?andb_false_r, ?orb_false_r in Eg; cbn in Eg;
      now apply String.eqb_eq in Eg. }
  split; [exact Epiece|].
  unfold moveFunctions in H.
  destruct (String.eqb piece "p") eqn:Ep.
  { exact (getPawnmoves_guarded s r c true [] res eq_refl Hrc
             ltac:(constructor) H). }
  destruct (String.eqb piece "R").
  { exact (getRookmoves_guarded s r c false [] res ltac:(constructor) H). }
  destruct (String.eqb piece "N").
  { exact (getKnightmoves_guarded s r c false [] res ltac:(constructor) H). }
  destruct (String.eqb piece "B").
  { exact (getBishopmoves_guarded s r c false [] res ltac:(constructor) H). }
  destruct (String.eqb piece "Q").
  { exact (getQueenmoves_guarded s r c false [] res ltac:(constructor) H). }
  destruct (String.eqb piece "K").
  { exact (getKingmoves_guarded s r c false [] res ltac:(constructor) H). }
  discriminate.
Qed.

(** ** The moves of [getAllPossibleMoves], one by one *)

Lemma getAllPossibleMoves_In s ms :
  wf_board (board s) = true ->
  getAllPossibleMoves s = Ok ms ->
  forall m, In m ms <->
    exists r c new,
      on_board r c = true /\ scan_cell s r c [] = Ok new /\ In m new.
Proof.
  intros Hb H m. rewrite getAllPossibleMoves_squares in H by exact Hb.
  apply for_each_nil_Ok in H as [_ H];
    [|intros sq _; apply appender_scan_cell].
  rewrite H. split.
  - intros (sq & new & Hsq & E & Hm). exists (fst sq), (snd sq), new.
    split; [now apply in_squares|auto].
  - intros (r & c & new & Hrc & E & Hm). exists (r, c), new.
    split; [now apply in_squares|auto].
Qed.

Lemma possible_move_inv s ms m :
  wf_board (board s) = true ->
  getAllPossibleMoves s = Ok ms ->
  In m ms ->
  exists piece,
    on_board (startRow m) (startCol m) = true /\
    str_getitem (pieceMoved m) 0 = Ok (allyColor s) /\
    str_getitem (pieceMoved m) 1 = Ok piece /\
    guarded s (startRow m) (startCol m) (String.eqb piece "p") m.
Proof.
  intros Hb H Hm.
  apply (getAllPossibleMoves_In s ms Hb H) in Hm
    as (r & c & new & Hrc & E & Hm).
  apply scan_cell_guarded in E as [->|(cell & piece & Hc & H0 & H1 & HG)];
    [destruct Hm| |exact Hrc].
  rewrite Forall_forall in HG.
  pose proof (HG m ltac:(now apply list_elem_of_In)) as G.
  pose proof G as (Sr & Sc & Hpm & _).
  assert (pieceMoved m = cell) as Epm by congruence.
  exists piece. rewrite Sr, Sc, Epm. auto.
Qed.

Lemma wf_board_get_range b r c p :
  wf_board b = true -> board_get b r c = Ok p ->
  -8 <= r < 8 /\ -8 <= c < 8.
Proof.
  intros Hb H.
  destruct (Z_le_dec (-8) r), (Z_lt_dec r 8), (Z_le_dec (-8) c),
           (Z_lt_dec c 8); try lia;
    rewrite board_get_locate, wf_locate_None in H by (auto; lia);
    discriminate.
Qed.

Lemma board_get_row_has b r c p :
  wf_board b = true -> on_board r c = true ->
  board_get b r c = Ok p -> row_has p b (Z.to_nat r) = true.
Proof.
  intros Hb Hrc H. apply board_get_Ok in H as (q & L & C).
  rewrite (wf_locate _ _ _ Hb Hrc) in L. injection L as <-.
  unfold cell in C. cbn [fst snd] in C. unfold row_has.
  destruct (b !! Z.to_nat r) as [row|]; [|discriminate].
  apply existsb_exists. exists p. split; [|apply String.eqb_refl].
  apply list_elem_of_In. eapply list_elem_of_lookup_2, C.
Qed.

Lemma row_has_board_get p b i :
  row_has p b i = true ->
  exists j, cell b (i, j) = Some p.
Proof.
  unfold row_has, cell. cbn [fst snd].
  destruct (b !! i) as [row|]; [|discriminate].
  intros H. apply existsb_exists in H as (x & Hin & E).
  apply String.eqb_eq in E. subst x.
  apply list_elem_of_In, list_elem_of_lookup in Hin. exact Hin.
Qed.

Lemma getValidMoves_possible s ms s' :
  getValidMoves s = (Ok ms, s') ->
  exists all, getAllPossibleMoves s = Ok all /\ sublist ms all.
Proof.
  intros H. unfold getValidMoves in H.
  apply bind_Ok_inv in H as (moves & s0 & Hg & H).
  unfold read in Hg. injection Hg as Hg <-.
  apply bind_Ok_inv in H as (moves' & s1 & Hloop & H).
  apply filter_loop_sublist in Hloop.
  apply bind_Ok_inv in H as ([] & s2 & _ & H).
  unfold ret in H. injection H as <- _.
  now exists moves.
Qed.

Lemma wf_board_get_length b r c p :
  wf_board b = true -> board_get b r c = Ok p -> String.length p = 2%nat.
Proof.
  intros Hb H. apply board_get_Ok in H as (q & _ & C).
  eapply wf_cell_length; eauto.
Qed.

Lemma two_chars p a b :
  String.length p = 2%nat ->
  str_getitem p 0 = Ok (String a EmptyString) ->
  str_getitem p 1 = Ok (String b EmptyString) ->
  p = String a (String b EmptyString).
Proof.
  intros H H0 H1.
  destruct (wf_cell_chars p H) as (a' & b' & -> & E0 & E1).
  congruence.
Qed.

Lemma possible_move_squares s ms m :
  wf_board (board s) = true ->
  getAllPossibleMoves s = Ok ms ->
  In m ms ->
  on_board (startRow m) (startCol m) = true /\
  (on_board (endRow m) (endCol m) = true \/
   (whiteToMove s = true /\ pieceMoved m = "wp" /\
    startRow m = 0 /\ endRow m = -1 /\ 0 <= endCol m < 8)).
Proof.
  intros Hb H Hm.
  destruct (possible_move_inv s ms m Hb H Hm)
    as (piece & Hon & H0 & H1 & _ & _ & Hpm & Hpc & _ & Hgeo).
  split; [exact Hon|].
  destruct Hgeo as [Hgeo|(Hp & Hr & Hc)]; [now left|].
  apply String.eqb_eq in Hp. subst piece.
  destruct (wf_board_get_range _ _ _ _ Hb Hpc) as [Her _].
  apply on_board_range in Hon as [Hsr Hsc].
  unfold forward, allyColor in *.
  destruct (whiteToMove s).
  - destruct (Z.eq_dec (startRow m) 0) as [E|E].
    + right. split; [reflexivity|]. split; [|lia].
      apply two_chars; try assumption.
      eapply wf_board_get_length; eauto.
    + left. apply on_board_range. lia.
  - left. apply on_board_range. lia.
Qed.

(** ** Knight and king: one step per offset *)

Lemma step_to_spec s a r c d moves :
  wf_board (board s) = true -> on_board r c = true ->
  exists new,
    step_to s a r c d moves = Ok (moves ++ new) /\
    forall sq, In sq (destinations new) <->
      sq = (r + fst d, c + snd d) /\
      on_board (fst sq) (snd sq) = true /\
      ~ color_at (board s) sq a.
Proof.
  intros Hwf Hrc. unfold step_to.
  destruct (on_board (r + fst d) (c + snd d)) eqn:Hon.
  2:{ exists []. split; [now rewrite app_nil_r|].
      intros sq. split; [intros []|]. intros (-> & H & _).
      cbn in H. congruence. }
  destruct (wf_board_get _ _ _ Hwf Hon) as (p & Hp & Hlen).
  destruct (wf_cell_chars p Hlen) as (x & y & -> & Hk & _).
  rewrite Hp. cbn [res_bind]. rewrite Hk. cbn [res_bind].
  destruct (String.eqb (String x EmptyString) a) eqn:E; cbn [negb].
  - apply String.eqb_eq in E.
    exists []. split; [now rewrite app_nil_r|].
    intros sq. split; [intros []|]. intros (-> & _ & N).
    apply N. eexists. split; [exact Hp|]. now rewrite Hk, E.
  - apply String.eqb_neq in E.
    destruct (wf_Move_init _ r c _ _ Hwf Hrc Hon)
      as (mv & Hm & _ & _ & Er & Ec & _).
    unfold append_move. rewrite Hm. cbn [res_bind].
    exists [mv]. split; [reflexivity|].
    intros sq. cbn [destinations map In]. rewrite Er, Ec. split.
    + intros [<-|[]]. split; [reflexivity|]. split; [exact Hon|].
      intros (q & Hq & Hq0). cbn [fst snd] in Hq.
      rewrite Hp in Hq. injection Hq as <-. rewrite Hk in Hq0. congruence.
    + intros (-> & _). now left.
Qed.

Lemma for_each_step_to s a r c offs :
  wf_board (board s) = true -> on_board r c = true ->
  forall moves, exists new,
    for_each offs (fun d moves => step_to s a r c d moves) moves
      = Ok (moves ++ new) /\
    forall sq, In sq (destinations new) <->
      exists d, In d offs /\
        sq = (r + fst d, c + snd d) /\
        on_board (fst sq) (snd sq) = true /\
        ~ color_at (board s) sq a.
Proof.
  intros Hwf Hrc. induction offs as [|d offs IH]; intros moves.
  - exists []. split; [cbn; now rewrite app_nil_r|].
    intros sq. split; [intros []|intros (d & [] & _)].
  - destruct (step_to_spec s a r c d moves Hwf Hrc) as (n1 & H1 & S1).
    destruct (IH (moves ++ n1)) as (n2 & H2 & S2).
    exists (n1 ++ n2). cbn [for_each]. rewrite H1. cbn [res_bind].
    rewrite H2. split; [now rewrite app_assoc|].
    intros sq. rewrite destinations_app, in_app_iff, S1, S2. split.
    + intros [H|(d' & Hd & H)]; [exists d|exists d']; cbn [In]; auto.
    + intros (d' & [<-|Hd] & H); [now left|right; eauto].
Qed.

Lemma getKingmoves_unfold s r c moves :
  getKingmoves s r c moves =
  for_each kingmoves (fun d moves => step_to s (allyColor s) r c d moves) moves.
Proof. reflexivity. Qed.

Lemma in_knightmoves d :
  In d knightmoves <->
  (Z.abs (fst d) = 1 /\ Z.abs (snd d) = 2) \/
  (Z.abs (fst d) = 2 /\ Z.abs (snd d) = 1).
Proof.
  destruct d as [x y]. cbn [fst snd]. split.
  - cbn. intros H.
    repeat (destruct H as [[= <- <-]|H]; [cbn; lia|]). destruct H.
  - intros H.
    assert ((x = -2 /\ y = -1) \/ (x = -2 /\ y = 1) \/ (x = -1 /\ y = -2) \/
            (x = -1 /\ y = 2) \/ (x = 1 /\ y = -2) \/ (x = 1 /\ y = 2) \/
            (x = 2 /\ y = -1) \/ (x = 2 /\ y = 1)) as C by lia.
    cbn. repeat (destruct C as [[-> ->]|C]; [tauto|]).
    destruct C as [-> ->]. tauto.
Qed.

Lemma in_kingmoves d :
  In d kingmoves <-> Z.max (Z.abs (fst d)) (Z.abs (snd d)) = 1.
Proof.
  destruct d as [x y]. cbn [fst snd]. split.
  - cbn. intros H.
    repeat (destruct H as [[= <- <-]|H]; [cbn; lia|]). destruct H.
  - intros H.
    assert ((x = -1 /\ y = -1) \/ (x = -1 /\ y = 0) \/ (x = -1 /\ y = 1) \/
            (x = 0 /\ y = -1) \/ (x = 0 /\ y = 1) \/ (x = 1 /\ y = -1) \/
            (x = 1 /\ y = 0) \/ (x = 1 /\ y = 1)) as C by lia.
    cbn. repeat (destruct C as [[-> ->]|C]; [tauto|]).
    destruct C as [-> ->]. tauto.
Qed.

(** ** [undoMove] on any log, [Move.__init__] on any squares *)

Lemma undoMove_spec s rest m p1 p2 k :
  moveLog s = rest ++ [m] ->
  locate (board s) (startRow m) (startCol m) = Some p1 ->
  locate (board s) (endRow m) (endCol m) = Some p2 ->
  str_getitem (pieceMoved m) 1 = Ok k ->
  undoMove s =
  (Ok tt,
   {| board := upd (upd (board s) p1 (pieceMoved m)) p2 (pieceCaptured m);
      whiteToMove := negb (whiteToMove s);
      moveLog := rest;
      whiteKingLocation := whiteKingLocation s;
      blackKingLocation := blackKingLocation s;
      checkMate := checkMate s;
      staleMate := staleMate s |}).
Proof.
  intros Hl H1 H2 Hk. destruct (king_test_false _ _ Hk) as [Hw Hb].
  unfold undoMove. rewrite Hl, pop_snoc, length_app. cbn [length].
  replace (negb (Nat.eqb (length rest + 1) 0)) with true
    by (destruct (length rest); reflexivity).
  unfold bind, assign_cell, modify, flip_turn, read, ret. cbn.
  rewrite board_set_locate, H1. cbn.
  rewrite board_set_locate, !locate_upd, H2. cbn.
  rewrite Hk, Hw, Hb. reflexivity.
Qed.

Lemma norm_index_mod len i :
  - Z.of_nat len <= i < Z.of_nat len ->
  norm_index len i = Some (Z.to_nat (i mod Z.of_nat len)).
Proof.
  intros H. unfold norm_index.
  destruct (Z.leb_spec 0 i), (Z.ltb_spec i (Z.of_nat len)); cbn; try lia.
  - now rewrite Z.mod_small by lia.
  - destruct (Z.leb_spec (- Z.of_nat len) i), (Z.ltb_spec i 0); cbn; try lia.
    do 2 f_equal.
    rewrite <- (Z.mod_add i 1 (Z.of_nat len)) by lia.
    rewrite Z.mod_small; lia.
Qed.

Lemma norm_index_8 i :
  -8 <= i < 8 -> norm_index 8 i = Some (Z.to_nat (i mod 8)).
Proof. intros H. apply (norm_index_mod 8 i). cbn. lia. Qed.

Lemma wf_board_get_mod b r c :
  wf_board b = true -> -8 <= r < 8 -> -8 <= c < 8 ->
  board_get b r c = board_get b (r mod 8) (c mod 8).
Proof.
  intros Hb Hr Hc. destruct (wf_board_rows _ Hb) as [Hlen Hrows].
  assert (on_board (r mod 8) (c mod 8) = true) as Hon.
  { apply on_board_range.
    pose proof (Z.mod_pos_bound r 8). pose proof (Z.mod_pos_bound c 8). lia. }
  rewrite !board_get_locate, (wf_locate _ _ _ Hb Hon).
  unfold locate. rewrite Hlen, (norm_index_8 r Hr).
  destruct (lookup_lt_is_Some_2 b (Z.to_nat (r mod 8))) as [row Hrow].
  { pose proof (Z.mod_pos_bound r 8). lia. }
  rewrite Hrow. destruct (Hrows _ _ Hrow) as [-> _].
  now rewrite (norm_index_8 c Hc).
Qed.

(** ** No method reads the two flags *)

Lemma slide_with_flags cm sm s e r c d steps : forall moves,
  slide (with_flags cm sm s) e r c d steps moves = slide s e r c d steps moves.
Proof.
  induction steps as [|i steps IH]; intros moves; [reflexivity|].
  cbn [slide]. change (board (with_flags cm sm s)) with (board s).
  destruct (on_board _ _); [|reflexivity].
  destruct (board_get _ _ _) as [endpiece|]; cbn [res_bind]; [|reflexivity].
  destruct (String.eqb endpiece "--"); [|reflexivity].
  change (append_move (with_flags cm sm s)) with (append_move s).
  destruct (append_move _ _ _ _); cbn [res_bind]; [apply IH|reflexivity].
Qed.

Lemma moveFunctions_with_flags cm sm piece f s r c moves :
  moveFunctions piece = Ok f ->
  f (with_flags cm sm s) r c moves = f s r c moves.
Proof.
  unfold moveFunctions. intros H.
  destruct (String.eqb piece "p"); [injection H as <-; reflexivity|].
  destruct (String.eqb piece "R").
  { injection H as <-. unfold getRookmoves. apply for_each_ext.
    intros d acc _. apply slide_with_flags. }
  destruct (String.eqb piece "N"); [injection H as <-; reflexivity|].
  destruct (String.eqb piece "B").
  { injection H as <-. unfold getBishopmoves. apply for_each_ext.
    intros d acc _. apply slide_with_flags. }
  destruct (String.eqb piece "Q").
  { injection H as <-. unfold getQueenmoves, getRookmoves, getBishopmoves.
    rewrite (for_each_ext rook_directions _
               (fun d moves =>
                  slide s (if whiteToMove s then "b" else "w") r c d
                    range_1_8 moves))
      by (intros d acc _; apply slide_with_flags).
    destruct (for_each rook_directions _ moves); cbn [res_bind];
      [|reflexivity].
    apply for_each_ext. intros d acc _. apply slide_with_flags. }
  destruct (String.eqb piece "K"); [injection H as <-; reflexivity|].
  discriminate.
Qed.

Lemma getAllPossibleMoves_with_flags cm sm s :
  getAllPossibleMoves (with_flags cm sm s) = getAllPossibleMoves s.
Proof.
  unfold getAllPossibleMoves. change (board (with_flags cm sm s)) with (board s).
  apply for_each_ext. intros r acc _.
  destruct (py_getitem (board s) r) as [row|]; cbn [res_bind]; [|reflexivity].
  apply for_each_ext. intros c acc' _.
  unfold scan_cell. change (board (with_flags cm sm s)) with (board s).
  change (whiteToMove (with_flags cm sm s)) with (whiteToMove s).
  destruct (board_get (board s) r c) as [cell|]; cbn [res_bind]; [|reflexivity].
  destruct (str_getitem cell 0) as [turn|]; cbn [res_bind]; [|reflexivity].
  destruct (_ || _); [|reflexivity].
  destruct (str_getitem cell 1) as [piece|]; cbn [res_bind]; [|reflexivity].
  destruct (moveFunctions piece) as [f|] eqn:Hf; cbn [res_bind]; [|reflexivity].
  now apply moveFunctions_with_flags with piece.
Qed.

Lemma ignores_flags_ret {A} (a : A) : ignores_flags (ret a).
Proof. intros cm sm s. reflexivity. Qed.

Lemma ignores_flags_bind {A B} (x : M A) (f : A -> M B) :
  ignores_flags x -> (forall a, ignores_flags (f a)) ->
  ignores_flags (bind x f).
Proof.
  intros Hx Hf cm sm s. unfold bind. rewrite Hx.
  destruct (x s) as [[a|e] s1]; cbn [fst snd]; [apply Hf|reflexivity].
Qed.

Lemma ignores_flags_flip_turn : ignores_flags flip_turn.
Proof. intros cm sm s. reflexivity. Qed.

Lemma ignores_flags_makeMove m : ignores_flags (makeMove m).
Proof.
  intros cm sm s.
  unfold makeMove, bind, assign_cell, modify, flip_turn, read, ret.
  change (board (with_flags cm sm s)) with (board s).
  destruct (board_set (board s) _ _ _) as [b1|]; [|reflexivity].
  cbn [board set_board with_flags set_staleMate set_checkMate].
  destruct (board_set b1 _ _ _) as [b2|]; [|reflexivity].
  cbn.
  destruct (str_getitem (pieceMoved m) 1) as [k|]; [|reflexivity].
  destruct (String.eqb k "wK"); [reflexivity|].
  destruct (String.eqb k "bK"); reflexivity.
Qed.

Lemma ignores_flags_undoMove : ignores_flags undoMove.
Proof.
  intros cm sm s. unfold undoMove.
  change (moveLog (with_flags cm sm s)) with (moveLog s).
  destruct (negb _); [|reflexivity].
  destruct (pop (moveLog s)) as [[m rest]|]; [|reflexivity].
  unfold bind, assign_cell, modify, flip_turn, read, ret.
  cbn [board set_moveLog with_flags set_staleMate set_checkMate].
  destruct (board_set (board s) _ _ _) as [b1|]; [|reflexivity].
  cbn [board set_board].
  destruct (board_set b1 _ _ _) as [b2|]; [|reflexivity].
  cbn.
  destruct (str_getitem (pieceMoved m) 1) as [k|]; [|reflexivity].
  destruct (String.eqb k "wK"); [reflexivity|].
  destruct (String.eqb k "bK"); reflexivity.
Qed.

Lemma ignores_flags_squareUnderAttack r c :
  ignores_flags (squareUnderAttack r c).
Proof.
  intros cm sm s. unfold squareUnderAttack, bind, flip_turn, modify, read, ret.
  change (set_whiteToMove (negb (whiteToMove (with_flags cm sm s)))
            (with_flags cm sm s))
    with (with_flags cm sm (set_whiteToMove (negb (whiteToMove s)) s)).
  rewrite getAllPossibleMoves_with_flags.
  destruct (getAllPossibleMoves _); reflexivity.
Qed.

Lemma ignores_flags_inCheck : ignores_flags inCheck.
Proof.
  intros cm sm s. unfold inCheck.
  change (whiteToMove (with_flags cm sm s)) with (whiteToMove s).
  change (whiteKingLocation (with_flags cm sm s)) with (whiteKingLocation s).
  change (blackKingLocation (with_flags cm sm s)) with (blackKingLocation s).
  destruct (whiteToMove s); apply ignores_flags_squareUnderAttack.
Qed.

Lemma ignores_flags_const {A} (r : Res A) : ignores_flags (read (fun _ => r)).
Proof. intros cm sm s. reflexivity. Qed.

Lemma ignores_flags_filter_loop n : forall moves,
  ignores_flags (filter_loop n moves).
Proof.
  induction n as [|i IH]; intros moves; cbn [filter_loop].
  - apply ignores_flags_ret.
  - apply ignores_flags_bind; [apply ignores_flags_const|]. intros m.
    apply ignores_flags_bind; [apply ignores_flags_makeMove|]. intros _.
    apply ignores_flags_bind; [apply ignores_flags_flip_turn|]. intros _.
    apply ignores_flags_bind; [apply ignores_flags_inCheck|]. intros chk.
    apply ignores_flags_bind.
    { destruct chk; [|apply ignores_flags_ret].
      apply ignores_flags_bind; [apply ignores_flags_const|]. intros m'.
      apply ignores_flags_const. }
    intros moves'.
    apply ignores_flags_bind; [apply ignores_flags_flip_turn|]. intros _.
    apply ignores_flags_bind; [apply ignores_flags_undoMove|]. intros _.
    apply IH.
Qed.

Lemma ignores_flags_read {A} (f : GameState -> Res A) :
  (forall cm sm s, f (with_flags cm sm s) = f s) -> ignores_flags (read f).
Proof. intros H cm sm s. unfold read. now rewrite H. Qed.

Lemma bind_fst_with_flags {A B} (x : M A) (f : A -> M B) cm sm s :
  ignores_flags x ->
  (forall a s, fst (f a (with_flags cm sm s)) = fst (f a s)) ->
  fst (bind x f (with_flags cm sm s)) = fst (bind x f s).
Proof.
  intros Hx Hf. unfold bind. rewrite Hx.
  destruct (x s) as [[a|e] s1]; cbn [fst snd]; [apply Hf|reflexivity].
Qed.

Lemma getValidMoves_with_flags cm sm s :
  fst (getValidMoves (with_flags cm sm s)) = fst (getValidMoves s).
Proof.
  unfold getValidMoves. apply bind_fst_with_flags.
  { apply ignores_flags_read. intros. apply getAllPossibleMoves_with_flags. }
  intros all s0. apply bind_fst_with_flags; [apply ignores_flags_filter_loop|].
  intros ms s1. destruct ms as [|m ms]; cbn [length Nat.eqb].
  - unfold bind. rewrite (ignores_flags_inCheck cm sm s1).
    destruct (inCheck s1) as [[[]|e] s2]; reflexivity.
  - reflexivity.
Qed.

Lemma with_flags_self s : with_flags (checkMate s) (staleMate s) s = s.
Proof. now destruct s. Qed.

Lemma inCheck_with_flags cm sm s chk :
  inCheck s = (Ok chk, s) ->
  inCheck (with_flags cm sm s) = (Ok chk, with_flags cm sm s).
Proof. intros H. rewrite ignores_flags_inCheck, H. reflexivity. Qed.
(** * Further properties of the engine *)

(** X1.  On a board of eight rows of eight two-character cells,
    [makeMove] of a record whose two squares are on the board and whose
    [pieceMoved] has at least two characters returns normally.  The end
    square then holds [pieceMoved] as the record gives it, the start
    square, when it is another square, is empty, every other square of the
    board is as before, the record is the last item of the log, the turn
    flag is negated, and the two flags and the two cached king squares are
    untouched. *)
Theorem makeMove_changes_two_squares (s : GameState) (m : Move) :
  wf_board (board s) = true ->
  on_board (startRow m) (startCol m) = true ->
  on_board (endRow m) (endCol m) = true ->
  (2 <= String.length (pieceMoved m))%nat ->
  exists s',
    makeMove m s = (Ok tt, s') /\
    board_get (board s') (endRow m) (endCol m) = Ok (pieceMoved m) /\
    ((startRow m, startCol m) <> (endRow m, endCol m) ->
     board_get (board s') (startRow m) (startCol m) = Ok "--") /\
    (forall r c,
       on_board r c = true ->
       (r, c) <> (startRow m, startCol m) ->
       (r, c) <> (endRow m, endCol m) ->
       board_get (board s') r c = board_get (board s) r c) /\
    moveLog s' = moveLog s ++ [m] /\
    whiteToMove s' = negb (whiteToMove s) /\
    checkMate s' = checkMate s /\
    staleMate s' = staleMate s /\
    whiteKingLocation s' = whiteKingLocation s /\
    blackKingLocation s' = blackKingLocation s.
Proof.
  intros Hb H1 H2 Hlen.
  destruct (str_getitem_1 _ Hlen) as [k Hk].
  pose proof (wf_locate _ _ _ Hb H1) as L1.
  pose proof (wf_locate _ _ _ Hb H2) as L2.
  eexists. split; [exact (makeMove_spec m s _ _ k L1 L2 Hk)|].
  cbn [board after_move moveLog whiteToMove checkMate staleMate
       whiteKingLocation blackKingLocation].
  split.
  { rewrite (board_get_upd _ _ _ _ _ _ ltac:(rewrite locate_upd; exact L2)).
    now rewrite decide_True. }
  split.
  { intros Hne.
    rewrite (board_get_upd _ _ _ _ _ _ ltac:(rewrite locate_upd; exact L1)).
    rewrite decide_False.
    - rewrite (board_get_upd _ _ _ _ _ _ L1). now rewrite decide_True.
    - intros E. apply Hne. apply (locate_on_board_inj (board s)); try assumption.
      now rewrite L1, L2, E. }
  split; [|auto 10].
  intros r c Hrc N1 N2.
  pose proof (wf_locate _ _ _ Hb Hrc) as L.
  rewrite (board_get_upd _ _ _ _ _ _ ltac:(rewrite locate_upd; exact L)).
  rewrite decide_False.
  - rewrite (board_get_upd _ _ _ _ _ _ L). rewrite decide_False; [reflexivity|].
    intros E. apply N1. apply (locate_on_board_inj (board s)); try assumption.
    now rewrite L, L1, E.
  - intros E. apply N2. apply (locate_on_board_inj (board s)); try assumption.
    now rewrite L, L2, E.
Qed.

Lemma makeMove_changes_two_squares_witness :
  wf_board (board init) = true /\
  on_board 6 4 = true /\ on_board 4 4 = true /\
  (2 <= String.length "wp")%nat /\
  exists s',
    makeMove move_e2e4 init = (Ok tt, s') /\
    board_get (board s') 4 4 = Ok "wp" /\
    ((6, 4) <> (4, 4) -> board_get (board s') 6 4 = Ok "--") /\
    (forall r c,
       on_board r c = true -> (r, c) <> (6, 4) -> (r, c) <> (4, 4) ->
       board_get (board s') r c = board_get (board init) r c) /\
    moveLog s' = moveLog init ++ [move_e2e4] /\
    whiteToMove s' = negb (whiteToMove init) /\
    checkMate s' = checkMate init /\
    staleMate s' = staleMate init /\
    whiteKingLocation s' = whiteKingLocation init /\
    blackKingLocation s' = blackKingLocation init.
Proof.
  assert (2 <= String.length "wp")%nat as Hlen by (cbn; lia).
  split; [reflexivity|]. split; [reflexivity|]. split; [reflexivity|].
  split; [exact Hlen|].
  exact (makeMove_changes_two_squares init move_e2e4
           eq_refl eq_refl eq_refl Hlen).
Defined.

(** X2.  [makeMove] raises [IndexError] when a square of the record lies
    outside the rows and columns -8..7 that Python accepts as positions
    of an eight-item list.  If it is the start square, the object is left
    as it was.  If the start square is on the board and it is the end
    square, the start square has been emptied by then and stays empty:
    the piece is gone, while the log and the turn flag are as before. *)
Theorem makeMove_raises_outside_board (s : GameState) (m : Move) :
  wf_board (board s) = true ->
  (~ (-8 <= startRow m < 8 /\ -8 <= startCol m < 8) ->
   makeMove m s = (Raise IndexError, s)) /\
  (on_board (startRow m) (startCol m) = true ->
   ~ (-8 <= endRow m < 8 /\ -8 <= endCol m < 8) ->
   exists s',
     makeMove m s = (Raise IndexError, s') /\
     board_get (board s') (startRow m) (startCol m) = Ok "--" /\
     (forall r c,
        on_board r c = true -> (r, c) <> (startRow m, startCol m) ->
        board_get (board s') r c = board_get (board s) r c) /\
     moveLog s' = moveLog s /\
     whiteToMove s' = whiteToMove s).
Proof.
  intros Hb. split.
  - intros H. pose proof (wf_locate_None _ _ _ Hb H) as L.
    unfold makeMove, bind, assign_cell. now rewrite board_set_locate, L.
  - intros H1 H2.
    pose proof (wf_locate _ _ _ Hb H1) as L1.
    pose proof (wf_locate_None _ _ _ Hb H2) as L2.
    eexists. split.
    { unfold makeMove, bind, assign_cell. rewrite board_set_locate, L1.
      cbn [board set_board]. rewrite board_set_locate, locate_upd, L2.
      reflexivity. }
    cbn [board set_board moveLog whiteToMove].
    split; [|split; [|split; reflexivity]].
    + rewrite (board_get_upd _ _ _ _ _ _ L1). now rewrite decide_True.
    + intros r c Hrc N.
      pose proof (wf_locate _ _ _ Hb Hrc) as L.
      rewrite (board_get_upd _ _ _ _ _ _ L). rewrite decide_False; [reflexivity|].
      intros E. apply N. apply (locate_on_board_inj (board s)); try assumption.
      now rewrite L, L1, E.
Qed.

Lemma makeMove_raises_outside_board_witness :
  wf_board (board init) = true /\
  on_board 6 4 = true /\
  ~ (-8 <= 8 < 8 /\ -8 <= 4 < 8) /\
  exists s',
    makeMove move_e2_off_board init = (Raise IndexError, s') /\
    board_get (board s') 6 4 = Ok "--" /\
    (forall r c,
       on_board r c = true -> (r, c) <> (6, 4) ->
       board_get (board s') r c = board_get (board init) r c) /\
    moveLog s' = moveLog init /\
    whiteToMove s' = whiteToMove init.
Proof.
  assert (~ (-8 <= 8 < 8 /\ -8 <= 4 < 8)) as N by lia.
  split; [reflexivity|]. split; [reflexivity|]. split; [exact N|].
  exact (proj2 (makeMove_raises_outside_board init move_e2_off_board eq_refl)
           eq_refl N).
Defined.

(** X3.  In every position reached from the start by valid moves the turn
    flag is the parity of the log: white is to move exactly when an even
    number of moves has been logged. *)
Theorem reachable_turn_is_log_parity (s : GameState) :
  reachable s -> whiteToMove s = Nat.even (length (moveLog s)).
Proof.
  induction 1 as [|s ms s1 m s2 Hs IH Hv Hin Hmk]; [reflexivity|].
  destruct (getValidMoves_Ok_same _ _ _ Hv) as (_ & Ht & Hl & _).
  destruct (reachable_step_inv _ _ _ _ _ Hs Hv Hin Hmk)
    as (p1 & p2 & _ & _ & _ & _ & _ & _ & ->).
  cbn [whiteToMove moveLog after_move].
  rewrite Ht, Hl, IH, length_app. cbn [length].
  rewrite Nat.add_1_r, Nat.even_succ, <- Nat.negb_even. reflexivity.
Qed.

Lemma reachable_turn_is_log_parity_witness :
  reachable pos_open /\
  whiteToMove pos_open = Nat.even (length (moveLog pos_open)).
Proof.
  assert (reachable pos_open) as H by (played game_open).
  split; [exact H|]. apply (reachable_turn_is_log_parity pos_open H).
Defined.

(** X4.  No sequence of valid moves changes the cached king squares: in
    every reachable position [whiteKingLocation] is (7, 4) and
    [blackKingLocation] is (0, 4), wherever the kings stand. *)
Theorem reachable_king_locations_constant (s : GameState) :
  reachable s ->
  whiteKingLocation s = (7, 4) /\ blackKingLocation s = (0, 4).
Proof.
  induction 1 as [|s ms s1 m s2 Hs IH Hv Hin Hmk]; [split; reflexivity|].
  destruct (getValidMoves_Ok_same _ _ _ Hv) as (_ & _ & _ & Hw & Hk).
  destruct (makeMove_king_locations _ _ _ _ Hmk) as [Hw' Hk'].
  rewrite Hw', Hk', Hw, Hk. exact IH.
Qed.

Lemma reachable_king_locations_constant_witness :
  reachable pos_bishop_check /\
  whiteKingLocation pos_bishop_check = (7, 4) /\
  blackKingLocation pos_bishop_check = (0, 4).
Proof.
  assert (reachable pos_bishop_check) as H by (played game_bishop_check).
  split; [exact H|].
  apply (reachable_king_locations_constant pos_bishop_check H).
Defined.

(** X5.  The log is a faithful undo stack.  From any position reached
    from the start by valid moves, calling [undoMove] once for every
    logged move, or more often, never raises and ends on the starting
    board with white to move and an empty log; calls made on an empty log
    change nothing. *)
Theorem undoMove_whole_log_restores_start (s : GameState) (n : nat) :
  reachable s ->
  (length (moveLog s) <= n)%nat ->
  exists s0,
    undo_moves n s = (Ok tt, s0) /\
    board s0 = board init /\
    whiteToMove s0 = true /\
    moveLog s0 = [].
Proof.
  intros Hs Hn.
  destruct (reachable_undo_moves s Hs n (checkMate s) (staleMate s) Hn)
    as (s0 & H & R).
  rewrite set_flags_id in H. now exists s0.
Qed.

Lemma undoMove_whole_log_restores_start_witness :
  reachable pos_open /\
  (length (moveLog pos_open) <= 3)%nat /\
  exists s0,
    undo_moves 3 pos_open = (Ok tt, s0) /\
    board s0 = board init /\
    whiteToMove s0 = true /\
    moveLog s0 = [].
Proof.
  assert (reachable pos_open) as H by (played game_open).
  assert (length (moveLog pos_open) <= 3)%nat as Hn by (vm_compute; lia).
  split; [exact H|]. split; [exact Hn|].
  apply (undoMove_whole_log_restores_start pos_open 3 H Hn).
Defined.

(** X6.  Every position reached from the start by valid moves has a
    board of eight rows of eight cells, each cell empty or one of the
    twelve piece codes: every square 0..7 x 0..7 can be read. *)
Theorem reachable_board_is_8x8_of_pieces (s : GameState) :
  reachable s ->
  length (board s) = 8%nat /\
  (forall row, In row (board s) -> length row = 8%nat) /\
  (forall r c, on_board r c = true ->
     exists p, board_get (board s) r c = Ok p /\ In p pieces).
Proof.
  intros Hs. pose proof (reachable_piece_board s Hs) as Hb.
  destruct (board_all_rows _ _ Hb) as [Hlen Hrows].
  split; [exact Hlen|]. split.
  - intros row Hin. apply list_elem_of_In, list_elem_of_lookup in Hin as [i Hi].
    now destruct (Hrows i row Hi).
  - intros r c Hrc.
    destruct (piece_board_get _ _ _ Hb Hrc) as (p & Hg & Hp & _).
    exists p. split; [exact Hg|].
    unfold piece_cell in Hp. apply existsb_exists in Hp as (x & Hx & E).
    apply String.eqb_eq in E. now subst.
Qed.

Lemma reachable_board_is_8x8_of_pieces_witness :
  reachable pos_open /\
  length (board pos_open) = 8%nat /\
  (forall row, In row (board pos_open) -> length row = 8%nat) /\
  (forall r c, on_board r c = true ->
     exists p, board_get (board pos_open) r c = Ok p /\ In p pieces).
Proof.
  assert (reachable pos_open) as H by (played game_open).
  split; [exact H|]. apply (reachable_board_is_8x8_of_pieces pos_open H).
Defined.

(** X7.  The engine never creates a piece: in every position reached
    from the start by valid moves, each piece code occurs on the board at
    most as often as on the starting board.  In particular a pawn that
    reaches the far row stays a pawn. *)
Theorem reachable_never_more_pieces (s : GameState) (p : string) :
  reachable s ->
  p <> "--" ->
  (count_piece p (board s) <= count_piece p (board init))%nat.
Proof.
  intros Hs Hp.
  induction Hs as [|s ms s1 m s2 Hs IH Hv Hin Hmk]; [lia|].
  destruct (getValidMoves_Ok_same _ _ _ Hv) as (Hb & _).
  destruct (reachable_step_inv _ _ _ _ _ Hs Hv Hin Hmk)
    as (p1 & p2 & _ & _ & _ & _ & C1 & C2 & ->).
  pose proof (after_move_count p m p1 p2 s1 Hp C1 ltac:(eauto)) as E.
  rewrite Hb in E. lia.
Qed.

Lemma reachable_never_more_pieces_witness :
  reachable pos_open /\ "wQ" <> "--" /\
  (count_piece "wQ" (board pos_open) <= count_piece "wQ" (board init))%nat.
Proof.
  assert (reachable pos_open) as H by (played game_open).
  assert ("wQ" <> "--") as N by discriminate.
  split; [exact H|]. split; [exact N|].
  apply (reachable_never_more_pieces pos_open "wQ" H N).
Defined.

(** X8.  When [getValidMoves] returns, the board, the turn flag, the log
    and the cached king squares are what they were before the call; only
    the two flags may differ.  With a non-empty result both flags are
    cleared.  With an empty result the check test has returned and the
    flag it selects is set, [checkMate] if it says yes and [staleMate] if
    it says no, while the other flag keeps the value it had. *)
Theorem getValidMoves_changes_only_flags (s : GameState) (ms : list Move)
    (s' : GameState) :
  getValidMoves s = (Ok ms, s') ->
  board s' = board s /\
  whiteToMove s' = whiteToMove s /\
  moveLog s' = moveLog s /\
  whiteKingLocation s' = whiteKingLocation s /\
  blackKingLocation s' = blackKingLocation s /\
  (ms <> [] -> checkMate s' = false /\ staleMate s' = false) /\
  (ms = [] ->
   exists chk, inCheck s = (Ok chk, s) /\
     if chk : bool
     then checkMate s' = true /\ staleMate s' = staleMate s
     else staleMate s' = true /\ checkMate s' = checkMate s).
Proof.
  intros H.
  destruct (getValidMoves_Ok_same _ _ _ H) as (Hb & Ht & Hl & Hw & Hk).
  do 5 (split; [assumption|]).
  apply getValidMoves_Ok_inv in H
    as [[Hne ->]|[(-> & Hc & ->)|(-> & Hc & ->)]].
  - split; [intros _; split; reflexivity|]. intros E. contradiction.
  - split; [intros E; contradiction|]. intros _. exists true. auto.
  - split; [intros E; contradiction|]. intros _. exists false. auto.
Qed.

Lemma getValidMoves_changes_only_flags_witness :
  exists ms s',
    getValidMoves init = (Ok ms, s') /\
    board s' = board init /\
    whiteToMove s' = whiteToMove init /\
    moveLog s' = moveLog init /\
    whiteKingLocation s' = whiteKingLocation init /\
    blackKingLocation s' = blackKingLocation init /\
    (ms <> [] -> checkMate s' = false /\ staleMate s' = false) /\
    (ms = [] ->
     exists chk, inCheck init = (Ok chk, init) /\
       if chk : bool
       then checkMate s' = true /\ staleMate s' = staleMate init
       else staleMate s' = true /\ checkMate s' = checkMate init).
Proof.
  do 2 eexists. split; [run|].
  apply (getValidMoves_changes_only_flags init); run.
Defined.

(** X9.  The legality filter only removes moves: when [getValidMoves]
    returns, [getAllPossibleMoves] returns on the same position, and the
    valid moves are some of its moves in the same order. *)
Theorem getValidMoves_sublist_of_possible (s : GameState) (ms : list Move)
    (s' : GameState) :
  getValidMoves s = (Ok ms, s') ->
  exists all, getAllPossibleMoves s = Ok all /\ sublist ms all.
Proof.
  intros H. unfold getValidMoves in H.
  apply bind_Ok_inv in H as (moves & s0 & Hg & H).
  unfold read in Hg. injection Hg as Hg <-.
  apply bind_Ok_inv in H as (moves' & s1 & Hloop & H).
  apply filter_loop_sublist in Hloop.
  apply bind_Ok_inv in H as ([] & s2 & _ & H).
  unfold ret in H. injection H as <- _.
  now exists moves.
Qed.

Lemma getValidMoves_sublist_of_possible_witness :
  exists ms s',
    getValidMoves init = (Ok ms, s') /\
    exists all, getAllPossibleMoves init = Ok all /\ sublist ms all.
Proof.
  do 2 eexists. split; [run|].
  eapply (getValidMoves_sublist_of_possible init); run.
Defined.

(** X10.  [squareUnderAttack] and [inCheck] either return and leave
    the object as it was, or raise, when the opponent's move generation
    raises inside them, and leave the turn flag switched to the opponent
    with everything else as it was. *)
Theorem inCheck_returns_or_leaves_turn_flipped (s : GameState) (r c : Z) :
  ((exists b, squareUnderAttack r c s = (Ok b, s)) \/
   (exists e, squareUnderAttack r c s
              = (Raise e, set_whiteToMove (negb (whiteToMove s)) s))) /\
  ((exists b, inCheck s = (Ok b, s)) \/
   (exists e, inCheck s
              = (Raise e, set_whiteToMove (negb (whiteToMove s)) s))).
Proof.
  assert (forall r c,
    (exists b, squareUnderAttack r c s = (Ok b, s)) \/
    (exists e, squareUnderAttack r c s
               = (Raise e, set_whiteToMove (negb (whiteToMove s)) s))) as H.
  { intros r0 c0. destruct (squareUnderAttack r0 c0 s) as [[b|e] s'] eqn:E.
    - left. exists b. now rewrite (squareUnderAttack_Ok _ _ _ _ _ E).
    - right. exists e. now destruct (squareUnderAttack_Raise _ _ _ _ _ E) as [-> _]. }
  split; [apply H|]. unfold inCheck. destruct (whiteToMove s); apply H.
Qed.

(** X11.  [getRankFile] is defined exactly on the squares of the board.
    For a square with both coordinates in 0..7 it returns a file letter
    followed by a rank digit, and looking these up in [filesToCols] and
    [ranksToRows] gives the column and the row back.  For every other
    row or column, negative ones included, it raises [KeyError]: the
    tables do not wrap around as the board lists do. *)
Theorem getRankFile_round_trip (r c : Z) :
  (on_board r c = true ->
   exists a b,
     getRankFile r c = Ok (String a (String b EmptyString)) /\
     dict_getitem String.eqb filesToCols (String a EmptyString) = Ok c /\
     dict_getitem String.eqb ranksToRows (String b EmptyString) = Ok r) /\
  (on_board r c = false -> getRankFile r c = Raise KeyError).
Proof.
  split; [apply getRankFile_on_board|apply getRankFile_off_board].
Qed.

Lemma getRankFile_round_trip_witness :
  (on_board 6 4 = true /\
   exists a b,
     getRankFile 6 4 = Ok (String a (String b EmptyString)) /\
     dict_getitem String.eqb filesToCols (String a EmptyString) = Ok 4 /\
     dict_getitem String.eqb ranksToRows (String b EmptyString) = Ok 6) /\
  (on_board (-1) 4 = false /\ getRankFile (-1) 4 = Raise KeyError).
Proof.
  split.
  - split; [reflexivity|].
    apply (proj1 (getRankFile_round_trip 6 4)). reflexivity.
  - split; [reflexivity|].
    apply (proj2 (getRankFile_round_trip (-1) 4)). reflexivity.
Defined.

(** X12.  [getChessNotation] returns exactly for the records whose two
    squares are on the board, with a text of four characters; for every
    other record, among them the pawn steps to row -1, it raises
    [KeyError]. *)
Theorem getChessNotation_defined_on_the_board (m : Move) :
  (on_board (startRow m) (startCol m)
   && on_board (endRow m) (endCol m) = true ->
   exists n, getChessNotation m = Ok n /\ String.length n = 4%nat) /\
  (on_board (startRow m) (startCol m)
   && on_board (endRow m) (endCol m) = false ->
   getChessNotation m = Raise KeyError).
Proof.
  split.
  - intros H. apply andb_true_iff in H as [E1 E2].
    destruct (getRankFile_on_board _ _ E1) as (a & b & H1 & _).
    destruct (getRankFile_on_board _ _ E2) as (a' & b' & H2 & _).
    unfold getChessNotation. rewrite H1, H2. cbn. eauto.
  - intros H. unfold getChessNotation.
    destruct (on_board (startRow m) (startCol m)) eqn:E1.
    + destruct (getRankFile_on_board _ _ E1) as (a & b & -> & _).
      cbn [res_bind]. cbn in H. now rewrite getRankFile_off_board.
    + now rewrite getRankFile_off_board.
Qed.

Lemma getChessNotation_defined_on_the_board_witness :
  (on_board 6 4 && on_board 4 4 = true /\
   exists n, getChessNotation move_e2e4 = Ok n /\ String.length n = 4%nat) /\
  (on_board 6 4 && on_board 8 4 = false /\
   getChessNotation move_e2_off_board = Raise KeyError).
Proof.
  split.
  - split; [reflexivity|].
    exact (proj1 (getChessNotation_defined_on_the_board move_e2e4) eq_refl).
  - split; [reflexivity|].
    exact (proj2 (getChessNotation_defined_on_the_board move_e2_off_board)
             eq_refl).
Defined.

(** X13.  The text of [getChessNotation] names the squares: two records
    for which it returns the same text have the same four coordinates. *)
Theorem getChessNotation_injective (m1 m2 : Move) (n : string) :
  getChessNotation m1 = Ok n ->
  getChessNotation m2 = Ok n ->
  coords m1 = coords m2.
Proof.
  intros H1 H2. unfold getChessNotation in H1, H2.
  destruct (getRankFile (startRow m1) (startCol m1)) as [x1|] eqn:S1;
    [|discriminate].
  destruct (getRankFile (endRow m1) (endCol m1)) as [y1|] eqn:T1;
    [|discriminate].
  destruct (getRankFile (startRow m2) (startCol m2)) as [x2|] eqn:S2;
    [|discriminate].
  destruct (getRankFile (endRow m2) (endCol m2)) as [y2|] eqn:T2;
    [|discriminate].
  cbn in H1, H2.
  apply getRankFile_Ok_inv in S1 as (_ & a1 & b1 & -> & A1 & B1).
  apply getRankFile_Ok_inv in T1 as (_ & c1 & d1 & -> & C1 & D1).
  apply getRankFile_Ok_inv in S2 as (_ & a2 & b2 & -> & A2 & B2).
  apply getRankFile_Ok_inv in T2 as (_ & c2 & d2 & -> & C2 & D2).
  cbn in H1, H2. rewrite <- H1 in H2. injection H2 as -> -> -> ->.
  unfold coords. congruence.
Qed.

Lemma getChessNotation_injective_witness :
  getChessNotation move_e2e4 = Ok "e2e4" /\
  getChessNotation move_e2e4 = Ok "e2e4" /\
  coords move_e2e4 = coords move_e2e4.
Proof.
  split; [reflexivity|]. split; [reflexivity|].
  exact (getChessNotation_injective move_e2e4 move_e2e4 "e2e4"
           eq_refl eq_refl).
Defined.

(** X14.  On a board of eight rows of eight cells, each empty or one of
    the twelve piece codes, [getAllPossibleMoves] raises [IndexError]
    exactly when it is black's turn and a black pawn stands on row 7;
    in every other case, a white pawn on row 0 included, it returns a
    list: the sixty-four cells all return, or the first black pawn on
    row 7 stops the scan. *)
Theorem getAllPossibleMoves_raises_iff_black_pawn_on_row_7 (s : GameState) :
  piece_board (board s) = true ->
  (negb (whiteToMove s) && row_has "bp" (board s) 7 = true ->
   getAllPossibleMoves s = Raise IndexError) /\
  (negb (whiteToMove s) && row_has "bp" (board s) 7 = false ->
   exists ms, getAllPossibleMoves s = Ok ms).
Proof.
  intros Hpb. pose proof (piece_board_wf _ Hpb) as Hwf.
  rewrite getAllPossibleMoves_squares by exact Hwf. split.
  - intros H. apply andb_true_iff in H as [Hw Hrow].
    apply negb_true_iff in Hw.
    apply for_each_nil_Raise.
    + intros sq _. apply appender_scan_cell.
    + intros sq Hsq. apply in_squares in Hsq.
      destruct (scan_cell_total s _ _ Hpb Hsq) as [(_ & _ & _ & E)|[_ E]];
        auto.
    + apply row_has_board_get in Hrow as [j Hj].
      destruct (wf_board_rows _ Hwf) as [Hlen Hrows].
      assert (j < 8)%nat as Hj8.
      { unfold cell in Hj. cbn [fst snd] in Hj.
        destruct (board s !! 7%nat) as [row|] eqn:Er; [|discriminate].
        destruct (Hrows _ _ Er) as [Hl _]. rewrite <- Hl.
        eapply lookup_lt_Some, Hj. }
      assert (on_board 7 (Z.of_nat j) = true) as Hon
        by (apply on_board_range; lia).
      exists (7, Z.of_nat j). split; [now apply in_squares|].
      cbn [fst snd].
      assert (board_get (board s) 7 (Z.of_nat j) = Ok "bp") as Hg.
      { apply board_get_Ok. exists (7%nat, j). split; [|exact Hj].
        rewrite (wf_locate _ _ _ Hwf Hon). now rewrite Nat2Z.id. }
      destruct (scan_cell_total s _ _ Hpb Hon) as [(_ & _ & _ & E)|[N _]];
        [exact E|].
      exfalso. apply N. auto.
  - intros H. apply for_each_nil_all_Ok.
    + intros sq _. apply appender_scan_cell.
    + intros sq Hsq. apply in_squares in Hsq.
      destruct (scan_cell_total s _ _ Hpb Hsq) as [(Hw & Hr & Hg & _)|[_ E]];
        [|exact E].
      exfalso. rewrite Hw in H. cbn in H.
      rewrite Hr in Hsq, Hg.
      apply (board_get_row_has _ _ _ _ Hwf Hsq) in Hg.
      change (Z.to_nat 7) with 7%nat in Hg. congruence.
Qed.

Lemma getAllPossibleMoves_raises_iff_black_pawn_on_row_7_witness :
  (piece_board (board (set_whiteToMove false pos_black_pawn_h1)) = true /\
   negb (whiteToMove (set_whiteToMove false pos_black_pawn_h1))
   && row_has "bp" (board (set_whiteToMove false pos_black_pawn_h1)) 7 = true /\
   getAllPossibleMoves (set_whiteToMove false pos_black_pawn_h1)
   = Raise IndexError) /\
  (piece_board (board pos_black_pawn_h1) = true /\
   negb (whiteToMove pos_black_pawn_h1)
   && row_has "bp" (board pos_black_pawn_h1) 7 = false /\
   exists ms, getAllPossibleMoves pos_black_pawn_h1 = Ok ms).
Proof.
  split.
  - split; [reflexivity|]. split; [reflexivity|].
    apply (proj1 (getAllPossibleMoves_raises_iff_black_pawn_on_row_7
                    (set_whiteToMove false pos_black_pawn_h1) eq_refl)).
    reflexivity.
  - split; [reflexivity|]. split; [reflexivity|].
    apply (proj2 (getAllPossibleMoves_raises_iff_black_pawn_on_row_7
                    pos_black_pawn_h1 eq_refl)).
    reflexivity.
Defined.

(** X15.  Every record in the list of [getAllPossibleMoves] starts on a
    square of the board that holds a piece of the side to move, and ends
    on a square that does not hold a piece of that side; its fields
    [pieceMoved] and [pieceCaptured] are the contents of its two squares
    on the board. *)
Theorem possible_moves_take_no_own_piece (s : GameState) (ms : list Move)
    (m : Move) :
  wf_board (board s) = true ->
  getAllPossibleMoves s = Ok ms ->
  In m ms ->
  on_board (startRow m) (startCol m) = true /\
  board_get (board s) (startRow m) (startCol m) = Ok (pieceMoved m) /\
  str_getitem (pieceMoved m) 0 = Ok (allyColor s) /\
  board_get (board s) (endRow m) (endCol m) = Ok (pieceCaptured m) /\
  exists k, str_getitem (pieceCaptured m) 0 = Ok k /\ k <> allyColor s.
Proof.
  intros Hb H Hm.
  destruct (possible_move_inv s ms m Hb H Hm)
    as (piece & Hon & H0 & H1 & _ & _ & Hpm & Hpc & Hk & _).
  auto.
Qed.

Lemma possible_moves_take_no_own_piece_witness :
  wf_board (board init) = true /\
  exists ms,
    getAllPossibleMoves init = Ok ms /\
    In move_e2e4 ms /\
    on_board (startRow move_e2e4) (startCol move_e2e4) = true /\
    board_get (board init) (startRow move_e2e4) (startCol move_e2e4)
    = Ok (pieceMoved move_e2e4) /\
    str_getitem (pieceMoved move_e2e4) 0 = Ok (allyColor init) /\
    board_get (board init) (endRow move_e2e4) (endCol move_e2e4)
    = Ok (pieceCaptured move_e2e4) /\
    exists k, str_getitem (pieceCaptured move_e2e4) 0 = Ok k /\
              k <> allyColor init.
Proof.
  split; [reflexivity|]. eexists. split; [run|].
  assert (In move_e2e4 (match getAllPossibleMoves init with
                        | Ok ms => ms | Raise _ => [] end)) as Hin
    by in_list.
  split; [exact Hin|].
  exact (possible_moves_take_no_own_piece init _ move_e2e4
           eq_refl eq_refl Hin).
Defined.

(** X16.  Every record in the list of [getAllPossibleMoves] has both
    squares on the board, with one exception: a white pawn on row 0 is
    given steps to row -1. *)
Theorem possible_moves_stay_on_board (s : GameState) (ms : list Move)
    (m : Move) :
  wf_board (board s) = true ->
  getAllPossibleMoves s = Ok ms ->
  In m ms ->
  on_board (startRow m) (startCol m) = true /\
  (on_board (endRow m) (endCol m) = true \/
   (whiteToMove s = true /\ pieceMoved m = "wp" /\
    startRow m = 0 /\ endRow m = -1 /\ 0 <= endCol m < 8)).
Proof. apply possible_move_squares. Qed.

Lemma possible_moves_stay_on_board_witness :
  wf_board (board init) = true /\
  exists ms,
    getAllPossibleMoves init = Ok ms /\
    In move_e2e4 ms /\
    on_board (startRow move_e2e4) (startCol move_e2e4) = true /\
    (on_board (endRow move_e2e4) (endCol move_e2e4) = true \/
     (whiteToMove init = true /\ pieceMoved move_e2e4 = "wp" /\
      startRow move_e2e4 = 0 /\ endRow move_e2e4 = -1 /\
      0 <= endCol move_e2e4 < 8)).
Proof.
  split; [reflexivity|]. eexists. split; [run|].
  assert (In move_e2e4 (match getAllPossibleMoves init with
                        | Ok ms => ms | Raise _ => [] end)) as Hin
    by in_list.
  split; [exact Hin|].
  exact (possible_moves_stay_on_board init _ move_e2e4 eq_refl eq_refl Hin).
Defined.

(** X17.  In a position with no white pawn on row 0, every move that
    [getValidMoves] returns can be written down: [getChessNotation]
    returns for it. *)
Theorem valid_moves_have_notation (s : GameState) (ms : list Move)
    (s' : GameState) (m : Move) :
  wf_board (board s) = true ->
  row_has "wp" (board s) 0 = false ->
  getValidMoves s = (Ok ms, s') ->
  In m ms ->
  exists n, getChessNotation m = Ok n.
Proof.
  intros Hb Hrow Hv Hm.
  destruct (getValidMoves_possible _ _ _ Hv) as (all & Hall & Hsub).
  assert (In m all) as Hin.
  { apply list_elem_of_In. eapply elem_of_sublist; [|exact Hsub].
    now apply list_elem_of_In. }
  destruct (possible_move_inv s all m Hb Hall Hin)
    as (piece & _ & _ & _ & _ & _ & Hpm & _).
  destruct (possible_move_squares s all m Hb Hall Hin)
    as [Hon [Hend|(_ & Ewp & Er & _)]].
  - destruct (getRankFile_on_board _ _ Hon) as (a & b & Ha & _).
    destruct (getRankFile_on_board _ _ Hend) as (a' & b' & Hb' & _).
    unfold getChessNotation. rewrite Ha, Hb'. cbn. eauto.
  - exfalso. rewrite Ewp in Hpm.
    apply (board_get_row_has _ _ _ _ Hb Hon) in Hpm.
    rewrite Er in Hpm. change (Z.to_nat 0) with 0%nat in Hpm. congruence.
Qed.

Lemma valid_moves_have_notation_witness :
  wf_board (board init) = true /\
  row_has "wp" (board init) 0 = false /\
  exists ms s',
    getValidMoves init = (Ok ms, s') /\
    In move_e2e4 ms /\
    exists n, getChessNotation move_e2e4 = Ok n.
Proof.
  split; [reflexivity|]. split; [reflexivity|].
  do 2 eexists. split; [run|].
  assert (In move_e2e4 (match getValidMoves init with
                        | (Ok ms, _) => ms | (Raise _, _) => [] end)) as Hin
    by in_list.
  split; [exact Hin|].
  eapply (valid_moves_have_notation init _ _ move_e2e4 eq_refl eq_refl);
    [run|exact Hin].
Defined.

(** X18.  On a board of eight rows of eight two-character cells, the
    knight generator called for a square of the board returns the list
    it was handed with moves added at the end.  The added moves end
    exactly on the squares of the board that are one row and two columns,
    or two rows and one column, away from the start and do not hold a
    piece of the side to move. *)
Theorem getKnightmoves_destinations (s : GameState) (r c : Z)
    (moves : list Move) :
  wf_board (board s) = true ->
  on_board r c = true ->
  exists new,
    getKnightmoves s r c moves = Ok (moves ++ new) /\
    forall sq, In sq (destinations new) <->
      on_board (fst sq) (snd sq) = true /\
      ((Z.abs (fst sq - r) = 1 /\ Z.abs (snd sq - c) = 2) \/
       (Z.abs (fst sq - r) = 2 /\ Z.abs (snd sq - c) = 1)) /\
      ~ color_at (board s) sq (allyColor s).
Proof.
  intros Hwf Hrc.
  destruct (for_each_step_to s (allyColor s) r c knightmoves Hwf Hrc moves)
    as (new & H & S).
  exists new. split; [exact H|].
  intros sq. rewrite S. split.
  - intros (d & Hd & -> & Hon & Hc). split; [exact Hon|]. split; [|exact Hc].
    apply in_knightmoves in Hd. cbn [fst snd].
    replace (r + fst d - r) with (fst d) by lia.
    replace (c + snd d - c) with (snd d) by lia. exact Hd.
  - intros (Hon & Hg & Hc). exists (fst sq - r, snd sq - c).
    split; [now apply in_knightmoves|]. split; [|auto].
    destruct sq as [x y]. cbn [fst snd]. f_equal; lia.
Qed.

Lemma getKnightmoves_destinations_witness :
  wf_board (board init) = true /\ on_board 7 1 = true /\
  exists new,
    getKnightmoves init 7 1 [] = Ok ([] ++ new) /\
    forall sq, In sq (destinations new) <->
      on_board (fst sq) (snd sq) = true /\
      ((Z.abs (fst sq - 7) = 1 /\ Z.abs (snd sq - 1) = 2) \/
       (Z.abs (fst sq - 7) = 2 /\ Z.abs (snd sq - 1) = 1)) /\
      ~ color_at (board init) sq (allyColor init).
Proof.
  split; [reflexivity|]. split; [reflexivity|].
  apply (getKnightmoves_destinations init 7 1 []); reflexivity.
Defined.

(** X19.  On a board of eight rows of eight two-character cells, the
    king generator called for a square of the board returns the list it
    was handed with moves added at the end.
    The added moves end exactly on the adjacent squares of the board that
    do not hold a piece of the side to move; whether such a square is
    attacked plays no part, and there is no castling. *)
Theorem getKingmoves_destinations (s : GameState) (r c : Z)
    (moves : list Move) :
  wf_board (board s) = true ->
  on_board r c = true ->
  exists new,
    getKingmoves s r c moves = Ok (moves ++ new) /\
    forall sq, In sq (destinations new) <->
      on_board (fst sq) (snd sq) = true /\
      Z.max (Z.abs (fst sq - r)) (Z.abs (snd sq - c)) = 1 /\
      ~ color_at (board s) sq (allyColor s).
Proof.
  intros Hwf Hrc. rewrite getKingmoves_unfold.
  destruct (for_each_step_to s (allyColor s) r c kingmoves Hwf Hrc moves)
    as (new & H & S).
  exists new. split; [exact H|].
  intros sq. rewrite S. split.
  - intros (d & Hd & -> & Hon & Hc). split; [exact Hon|]. split; [|exact Hc].
    apply in_kingmoves in Hd. cbn [fst snd].
    replace (r + fst d - r) with (fst d) by lia.
    replace (c + snd d - c) with (snd d) by lia. exact Hd.
  - intros (Hon & Hg & Hc). exists (fst sq - r, snd sq - c).
    split; [now apply in_kingmoves|]. split; [|auto].
    destruct sq as [x y]. cbn [fst snd]. f_equal; lia.
Qed.

Lemma getKingmoves_destinations_witness :
  wf_board (board pos_open) = true /\ on_board 7 4 = true /\
  exists new,
    getKingmoves pos_open 7 4 [] = Ok ([] ++ new) /\
    forall sq, In sq (destinations new) <->
      on_board (fst sq) (snd sq) = true /\
      Z.max (Z.abs (fst sq - 7)) (Z.abs (snd sq - 4)) = 1 /\
      ~ color_at (board pos_open) sq (allyColor pos_open).
Proof.
  split; [reflexivity|]. split; [reflexivity|].
  apply (getKingmoves_destinations pos_open 7 4 []); reflexivity.
Defined.

(** X20.  On a board of eight rows of eight two-character cells, the
    pawn generator called for a square of the board whose next row, in
    the direction of the side to move, is on the board returns the list
    it was handed with moves added at the end.
    The added moves end exactly on: the square straight ahead when it is
    empty; the square two rows ahead when the pawn is on its home row and
    both squares ahead are empty; and each of the two squares diagonally
    ahead that is on the board and holds a piece of the other colour.
    There is no en-passant capture. *)
Theorem getPawnmoves_destinations (s : GameState) (r c : Z)
    (moves : list Move) :
  wf_board (board s) = true ->
  on_board r c = true ->
  on_board (r + forward s) c = true ->
  exists new,
    getPawnmoves s r c moves = Ok (moves ++ new) /\
    forall sq, In sq (destinations new) <->
      (sq = (r + forward s, c) /\ empty_at (board s) (r + forward s, c)) \/
      (sq = (r + 2 * forward s, c) /\ r = home_row s /\
       empty_at (board s) (r + forward s, c) /\
       empty_at (board s) (r + 2 * forward s, c)) \/
      (exists dc, (dc = -1 \/ dc = 1) /\
         sq = (r + forward s, c + dc) /\
         on_board (r + forward s) (c + dc) = true /\
         color_at (board s) (r + forward s, c + dc) (enemyColor s)).
Proof.
  intros Hwf Hrc Hfwd. rewrite getPawnmoves_unfold.
  pose proof Hrc as Hrc'. pose proof Hfwd as Hfwd'.
  apply on_board_range in Hrc', Hfwd'.
  assert (forall home e,
    home = home_row s -> e = enemyColor s ->
    exists new,
      (moves <- pawn_steps s r c (r + forward s) (r + 2 * forward s) home moves ;;
       moves <- pawn_capture s r c (r + forward s) (c - 1) (c - 1 >=? 0) e moves ;;
       pawn_capture s r c (r + forward s) (c + 1) (c + 1 <=? 7) e moves)%res
      = Ok (moves ++ new) /\
      forall sq, In sq (destinations new) <->
        (sq = (r + forward s, c) /\ empty_at (board s) (r + forward s, c)) \/
        (sq = (r + 2 * forward s, c) /\ r = home_row s /\
         empty_at (board s) (r + forward s, c) /\
         empty_at (board s) (r + 2 * forward s, c)) \/
        (exists dc, (dc = -1 \/ dc = 1) /\
           sq = (r + forward s, c + dc) /\
           on_board (r + forward s) (c + dc) = true /\
           color_at (board s) (r + forward s, c + dc) (enemyColor s))) as Main.
  { intros home e -> ->.
    destruct (pawn_steps_spec s r c (r + forward s) (r + 2 * forward s)
                (home_row s) moves Hwf Hrc) as (l1 & H1 & S1);
      [exact Hfwd
      |intros E; apply on_board_range; unfold forward, home_row in *;
       destruct (whiteToMove s); lia|].
    rewrite H1. cbn [res_bind].
    destruct (pawn_capture_spec s r c (r + forward s) (c - 1) (c - 1 >=? 0)
                (enemyColor s) (moves ++ l1) Hwf Hrc) as (l2 & H2 & S2).
    { intros Hg. apply on_board_range. lia. }
    rewrite H2. cbn [res_bind].
    destruct (pawn_capture_spec s r c (r + forward s) (c + 1) (c + 1 <=? 7)
                (enemyColor s) ((moves ++ l1) ++ l2) Hwf Hrc) as (l3 & H3 & S3).
    { intros Hg. apply on_board_range. lia. }
    rewrite H3. exists (l1 ++ l2 ++ l3).
    split; [now rewrite !app_assoc|].
    intros sq. rewrite !destinations_app, !in_app_iff, S1, S2, S3.
    split.
    - intros [[H|H]|[(-> & Hg & Hc)|(-> & Hg & Hc)]]; auto.
      + right. right. exists (-1). split; [auto|].
        change (c + -1) with (c - 1). split; [reflexivity|].
        split; [|exact Hc]. apply on_board_range. lia.
      + right. right. exists 1. split; [auto|]. split; [reflexivity|].
        split; [|exact Hc]. apply on_board_range. lia.
    - intros [H|[H|(dc & [-> | ->] & -> & Hon & Hc)]]; auto.
      + right. left. change (c + -1) with (c - 1) in *.
        split; [reflexivity|]. split; [|exact Hc].
        apply on_board_range in Hon. lia.
      + right. right. split; [reflexivity|]. split; [|exact Hc].
        apply on_board_range in Hon. lia. }
  unfold forward, home_row, enemyColor in *.
  destruct (whiteToMove s).
  - destruct (Main 6 "b" eq_refl eq_refl) as (new & H & S).
    exists new. split; [|exact S].
    replace (r - 1) with (r + -1) by lia.
    replace (r - 2) with (r + 2 * -1) by lia. exact H.
  - destruct (Main 1 "w" eq_refl eq_refl) as (new & H & S).
    exists new. split; [|exact S].
    replace (r + 2) with (r + 2 * 1) by lia. exact H.
Qed.

Lemma getPawnmoves_destinations_witness :
  wf_board (board init) = true /\ on_board 6 4 = true /\
  on_board (6 + forward init) 4 = true /\
  exists new,
    getPawnmoves init 6 4 [] = Ok ([] ++ new) /\
    forall sq, In sq (destinations new) <->
      (sq = (6 + forward init, 4) /\
       empty_at (board init) (6 + forward init, 4)) \/
      (sq = (6 + 2 * forward init, 4) /\ 6 = home_row init /\
       empty_at (board init) (6 + forward init, 4) /\
       empty_at (board init) (6 + 2 * forward init, 4)) \/
      (exists dc, (dc = -1 \/ dc = 1) /\
         sq = (6 + forward init, 4 + dc) /\
         on_board (6 + forward init) (4 + dc) = true /\
         color_at (board init) (6 + forward init, 4 + dc) (enemyColor init)).
Proof.
  split; [reflexivity|]. split; [reflexivity|]. split; [reflexivity|].
  apply (getPawnmoves_destinations init 6 4 []); reflexivity.
Defined.

(** X21.  Each of the six generators that [moveFunctions] holds only
    appends to the list it is handed: the result is that list followed by
    the moves the generator produces for the empty list, and it raises
    exactly when it raises for the empty list. *)
Theorem generators_only_append (piece : string)
    (f : GameState -> Z -> Z -> list Move -> Res (list Move))
    (s : GameState) (r c : Z) (moves : list Move) :
  moveFunctions piece = Ok f ->
  f s r c moves = (new <- f s r c [] ;; Ok (moves ++ new))%res.
Proof.
  intros Hf. now apply (appender_moveFunctions piece f s r c Hf).
Qed.

Lemma generators_only_append_witness :
  moveFunctions "N" = Ok getKnightmoves /\
  getKnightmoves init 7 1 [move_e2e4]
  = (new <- getKnightmoves init 7 1 [] ;; Ok ([move_e2e4] ++ new))%res.
Proof.
  split; [reflexivity|].
  apply (generators_only_append "N" getKnightmoves init 7 1 [move_e2e4]).
  reflexivity.
Defined.

(** X22.  The queen generator is the rook generator followed by the
    bishop generator: it appends the rook moves from the square, then the
    bishop moves from the square, and raises when one of the two does. *)
Theorem getQueenmoves_is_rook_then_bishop (s : GameState) (r c : Z)
    (moves : list Move) :
  getQueenmoves s r c moves =
  (a <- getRookmoves s r c [] ;;
   b <- getBishopmoves s r c [] ;;
   Ok (moves ++ a ++ b))%res.
Proof.
  unfold getQueenmoves. rewrite (appender_getRookmoves s r c moves).
  destruct (getRookmoves s r c []) as [a|]; cbn [res_bind]; [|reflexivity].
  rewrite (appender_getBishopmoves s r c (moves ++ a)).
  destruct (getBishopmoves s r c []) as [b|]; cbn [res_bind]; [|reflexivity].
  now rewrite app_assoc.
Qed.

(** X23.  On a board of eight rows of eight cells, each empty or one of
    the twelve piece codes, with no white pawn on row 0 and no black pawn
    on row 7, [getValidMoves] returns a list, whoever is to move and
    whatever the log, the flags and the cached king squares are. *)
Theorem getValidMoves_returns_without_last_rank_pawns (s : GameState) :
  piece_board (board s) = true ->
  row_has "wp" (board s) 0 = false ->
  row_has "bp" (board s) 7 = false ->
  exists ms s', getValidMoves s = (Ok ms, s').
Proof.
  intros Hpb Hw Hb. apply getValidMoves_run; [exact Hpb| |];
    unfold last_rank_free; [now rewrite Hw|now rewrite Hb].
Qed.

Lemma getValidMoves_returns_without_last_rank_pawns_witness :
  piece_board (board pos_bishop_check) = true /\
  row_has "wp" (board pos_bishop_check) 0 = false /\
  row_has "bp" (board pos_bishop_check) 7 = false /\
  exists ms s', getValidMoves pos_bishop_check = (Ok ms, s').
Proof.
  split; [reflexivity|]. split; [reflexivity|]. split; [reflexivity|].
  apply (getValidMoves_returns_without_last_rank_pawns pos_bishop_check);
    reflexivity.
Defined.

(** X24.  Play never gets stuck on a valid move: in a position reached
    from the start by valid moves, [makeMove] returns for every move that
    [getValidMoves] has just returned, the position it leads to is again
    reachable, and [undoMove] takes the move back. *)
Theorem valid_moves_can_be_made (s : GameState) (ms : list Move)
    (s1 : GameState) (m : Move) :
  reachable s ->
  getValidMoves s = (Ok ms, s1) ->
  In m ms ->
  exists s2,
    makeMove m s1 = (Ok tt, s2) /\
    reachable s2 /\
    undoMove s2 = (Ok tt, s1).
Proof.
  intros Hs Hv Hin.
  destruct (getValidMoves_Ok_same _ _ _ Hv) as (Hb & _).
  pose proof (getValidMoves_built _ _ _ Hv) as Hbuilt.
  rewrite Forall_forall in Hbuilt.
  pose proof (Hbuilt m ltac:(now apply list_elem_of_In)) as Hm.
  rewrite <- Hb in Hm.
  assert (String.length (pieceMoved m) = 2%nat) as Hlen.
  { destruct Hm as (sq1 & sq2 & Hm).
    destruct (Move_init_inv _ _ _ _ Hm) as (p1 & _ & _ & _ & C1 & _).
    eapply wf_cell_length; [|exact C1]. rewrite Hb. now apply reachable_wf. }
  destruct (makeMove_undoMove_restores s1 m Hm Hlen) as (s2 & H1 & H2).
  exists s2. split; [exact H1|]. split; [|exact H2].
  exact (reachable_move s ms s1 m s2 Hs Hv Hin H1).
Qed.

Lemma valid_moves_can_be_made_witness :
  reachable init /\
  exists ms s1,
    getValidMoves init = (Ok ms, s1) /\
    In move_e2e4 ms /\
    exists s2,
      makeMove move_e2e4 s1 = (Ok tt, s2) /\
      reachable s2 /\
      undoMove s2 = (Ok tt, s1).
Proof.
  split; [apply reachable_init|].
  do 2 eexists. split; [run|].
  assert (In move_e2e4 (match getValidMoves init with
                        | (Ok ms, _) => ms | (Raise _, _) => [] end)) as Hin
    by in_list.
  split; [exact Hin|].
  eapply (valid_moves_can_be_made init _ _ move_e2e4 reachable_init);
    [run|exact Hin].
Defined.

(** X25.  [Move.__init__] on a board of eight rows of eight
    two-character cells accepts rows and columns from -8 to 7.  The record
    keeps the coordinates as they were given, negative ones included, and
    computes [moveID] from them; its two piece fields are read from the
    board at the coordinates taken modulo 8.  For any other row or column
    it raises [IndexError]. *)
Theorem Move_init_accepts_minus_8_to_7 (b : Board) (r c er ec : Z) :
  wf_board b = true ->
  ((-8 <= r < 8 /\ -8 <= c < 8) /\ (-8 <= er < 8 /\ -8 <= ec < 8) ->
   exists m,
     Move_init (r, c) (er, ec) b = Ok m /\
     coords m = ((r, c), (er, ec)) /\
     moveID m = r * 1000 + c * 100 + er * 10 + ec /\
     board_get b (r mod 8) (c mod 8) = Ok (pieceMoved m) /\
     board_get b (er mod 8) (ec mod 8) = Ok (pieceCaptured m)) /\
  (~ ((-8 <= r < 8 /\ -8 <= c < 8) /\ (-8 <= er < 8 /\ -8 <= ec < 8)) ->
   Move_init (r, c) (er, ec) b = Raise IndexError).
Proof.
  intros Hb. split.
  - intros [[Hr Hc] [Her Hec]].
    destruct (wf_board_get_wrap b r c Hb Hr Hc) as (pm & Hpm & _).
    destruct (wf_board_get_wrap b er ec Hb Her Hec) as (pc & Hpc & _).
    unfold Move_init. cbn [fst snd]. rewrite Hpm, Hpc. cbn [res_bind].
    eexists. split; [reflexivity|]. cbn.
    rewrite <- wf_board_get_mod, <- wf_board_get_mod by assumption. auto.
  - intros N. unfold Move_init. cbn [fst snd].
    destruct (Z_le_dec (-8) r), (Z_lt_dec r 8), (Z_le_dec (-8) c),
             (Z_lt_dec c 8);
      try (rewrite (board_get_locate b r c), wf_locate_None by (auto; lia);
           reflexivity).
    destruct (wf_board_get_wrap b r c Hb) as (pm & -> & _); [lia|lia|].
    cbn [res_bind].
    rewrite (board_get_locate b er ec), wf_locate_None; [reflexivity|exact Hb|].
    lia.
Qed.

Lemma Move_init_accepts_minus_8_to_7_witness :
  wf_board board_white_pawn_b8 = true /\
  (((-8 <= 0 < 8 /\ -8 <= 1 < 8) /\ (-8 <= -1 < 8 /\ -8 <= 1 < 8)) /\
   exists m,
     Move_init (0, 1) (-1, 1) board_white_pawn_b8 = Ok m /\
     coords m = ((0, 1), (-1, 1)) /\
     moveID m = 0 * 1000 + 1 * 100 + -1 * 10 + 1 /\
     board_get board_white_pawn_b8 (0 mod 8) (1 mod 8) = Ok (pieceMoved m) /\
     board_get board_white_pawn_b8 (-1 mod 8) (1 mod 8)
     = Ok (pieceCaptured m)) /\
  (~ ((-8 <= 7 < 8 /\ -8 <= 7 < 8) /\ (-8 <= 8 < 8 /\ -8 <= 7 < 8)) /\
   Move_init (7, 7) (8, 7) board_white_pawn_b8 = Raise IndexError).
Proof.
  assert ((-8 <= 0 < 8 /\ -8 <= 1 < 8) /\ (-8 <= -1 < 8 /\ -8 <= 1 < 8))
    as H1 by lia.
  assert (~ ((-8 <= 7 < 8 /\ -8 <= 7 < 8) /\ (-8 <= 8 < 8 /\ -8 <= 7 < 8)))
    as H2 by lia.
  split; [reflexivity|]. split.
  - split; [exact H1|].
    exact (proj1 (Move_init_accepts_minus_8_to_7 board_white_pawn_b8
                    0 1 (-1) 1 eq_refl) H1).
  - split; [exact H2|].
    exact (proj2 (Move_init_accepts_minus_8_to_7 board_white_pawn_b8
                    7 7 8 7 eq_refl) H2).
Defined.

(** X26.  On a board of eight rows of eight two-character cells,
    [undoMove] with a log whose last record has both squares on the board
    and a [pieceMoved] of at least two characters returns normally.  It
    writes [pieceMoved] on the start square and then [pieceCaptured] on
    the end square, as the record gives them and whatever the board held;
    every other square is as before, the record is removed from the log,
    the turn flag is negated, and the two flags and the two cached king
    squares are untouched. *)
Theorem undoMove_restores_two_squares (s : GameState) (rest : list Move)
    (m : Move) :
  wf_board (board s) = true ->
  moveLog s = rest ++ [m] ->
  on_board (startRow m) (startCol m) = true ->
  on_board (endRow m) (endCol m) = true ->
  (2 <= String.length (pieceMoved m))%nat ->
  exists s',
    undoMove s = (Ok tt, s') /\
    board_get (board s') (endRow m) (endCol m) = Ok (pieceCaptured m) /\
    ((startRow m, startCol m) <> (endRow m, endCol m) ->
     board_get (board s') (startRow m) (startCol m) = Ok (pieceMoved m)) /\
    (forall r c,
       on_board r c = true ->
       (r, c) <> (startRow m, startCol m) ->
       (r, c) <> (endRow m, endCol m) ->
       board_get (board s') r c = board_get (board s) r c) /\
    moveLog s' = rest /\
    whiteToMove s' = negb (whiteToMove s) /\
    checkMate s' = checkMate s /\
    staleMate s' = staleMate s /\
    whiteKingLocation s' = whiteKingLocation s /\
    blackKingLocation s' = blackKingLocation s.
Proof.
  intros Hb Hl H1 H2 Hlen.
  destruct (str_getitem_1 _ Hlen) as [k Hk].
  pose proof (wf_locate _ _ _ Hb H1) as L1.
  pose proof (wf_locate _ _ _ Hb H2) as L2.
  eexists. split; [exact (undoMove_spec s rest m _ _ k Hl L1 L2 Hk)|].
  cbn [board moveLog whiteToMove checkMate staleMate
       whiteKingLocation blackKingLocation].
  split.
  { rewrite (board_get_upd _ _ _ _ _ _ ltac:(rewrite locate_upd; exact L2)).
    now rewrite decide_True. }
  split.
  { intros Hne.
    rewrite (board_get_upd _ _ _ _ _ _ ltac:(rewrite locate_upd; exact L1)).
    rewrite decide_False.
    - rewrite (board_get_upd _ _ _ _ _ _ L1). now rewrite decide_True.
    - intros E. apply Hne. apply (locate_on_board_inj (board s)); try assumption.
      now rewrite L1, L2, E. }
  split; [|auto 10].
  intros r c Hrc N1 N2.
  pose proof (wf_locate _ _ _ Hb Hrc) as L.
  rewrite (board_get_upd _ _ _ _ _ _ ltac:(rewrite locate_upd; exact L)).
  rewrite decide_False.
  - rewrite (board_get_upd _ _ _ _ _ _ L). rewrite decide_False; [reflexivity|].
    intros E. apply N1. apply (locate_on_board_inj (board s)); try assumption.
    now rewrite L, L1, E.
  - intros E. apply N2. apply (locate_on_board_inj (board s)); try assumption.
    now rewrite L, L2, E.
Qed.

Lemma undoMove_restores_two_squares_witness :
  wf_board (board pos_open) = true /\
  moveLog pos_open = [move_e2e4] ++ [move_e7e5] /\
  on_board 1 4 = true /\ on_board 3 4 = true /\
  (2 <= String.length "bp")%nat /\
  exists s',
    undoMove pos_open = (Ok tt, s') /\
    board_get (board s') 3 4 = Ok "--" /\
    ((1, 4) <> (3, 4) -> board_get (board s') 1 4 = Ok "bp") /\
    (forall r c,
       on_board r c = true -> (r, c) <> (1, 4) -> (r, c) <> (3, 4) ->
       board_get (board s') r c = board_get (board pos_open) r c) /\
    moveLog s' = [move_e2e4] /\
    whiteToMove s' = negb (whiteToMove pos_open) /\
    checkMate s' = checkMate pos_open /\
    staleMate s' = staleMate pos_open /\
    whiteKingLocation s' = whiteKingLocation pos_open /\
    blackKingLocation s' = blackKingLocation pos_open.
Proof.
  assert (2 <= String.length "bp")%nat as Hlen by (cbn; lia).
  split; [reflexivity|]. split; [reflexivity|]. split; [reflexivity|].
  split; [reflexivity|]. split; [exact Hlen|].
  exact (undoMove_restores_two_squares pos_open [move_e2e4] move_e7e5
           eq_refl eq_refl eq_refl eq_refl Hlen).
Defined.

(** X27.  No method reads [checkMate] or [staleMate]: whatever values
    the two flags are given before the call, [getValidMoves] returns the
    same list, or raises the same exception. *)
Theorem getValidMoves_ignores_flags (cm sm : bool) (s : GameState) :
  fst (getValidMoves (with_flags cm sm s)) = fst (getValidMoves s).
Proof. apply getValidMoves_with_flags. Qed.

(** X28.  [getValidMoves] can be asked again: when it has returned, a
    second call right away returns the same list and leaves the object,
    the two flags included, as the first call left it. *)
Theorem getValidMoves_twice (s : GameState) (ms : list Move) (s' : GameState) :
  getValidMoves s = (Ok ms, s') ->
  getValidMoves s' = (Ok ms, s').
Proof.
  intros H.
  assert (fst (getValidMoves s') = Ok ms) as Hfst.
  { pose proof H as H0.
    apply getValidMoves_Ok_inv in H0
      as [[_ ->]|[(_ & _ & ->)|(_ & _ & ->)]].
    - change (set_staleMate false (set_checkMate false s))
        with (with_flags false false s).
      now rewrite getValidMoves_with_flags, H.
    - replace (set_checkMate true s) with (with_flags true (staleMate s) s)
        by now destruct s.
      now rewrite getValidMoves_with_flags, H.
    - replace (set_staleMate true s) with (with_flags (checkMate s) true s)
        by now destruct s.
      now rewrite getValidMoves_with_flags, H. }
  destruct (getValidMoves s') as [r s''] eqn:E. cbn in Hfst. subst r.
  f_equal.
  apply getValidMoves_Ok_inv in H
    as [[Hne ->]|[(-> & Hc & ->)|(-> & Hc & ->)]];
  apply getValidMoves_Ok_inv in E
    as [[Hne' ->]|[(He' & Hc' & ->)|(He' & Hc' & ->)]];
    try contradiction; try reflexivity.
  - replace (set_checkMate true s) with (with_flags true (staleMate s) s)
      in Hc' by now destruct s.
    rewrite (inCheck_with_flags _ _ _ _ Hc) in Hc'. discriminate.
  - replace (set_staleMate true s) with (with_flags (checkMate s) true s)
      in Hc' by now destruct s.
    rewrite (inCheck_with_flags _ _ _ _ Hc) in Hc'. discriminate.
Qed.

Lemma getValidMoves_twice_witness :
  exists ms s',
    getValidMoves init = (Ok ms, s') /\
    getValidMoves s' = (Ok ms, s').
Proof.
  do 2 eexists. split; [run|].
  apply (getValidMoves_twice init). run.
Defined.
